(** * Terrain height-field engine (rts/Map/ReadMap.cpp): a shallow embedding

    The development follows [CReadMap] of the Spring engine: the synced
    corner-height grid, the buffers derived from it (center heights, mip
    levels, face and center normals, slope map), the paced height-bounds
    scan, the XOR-differential serialisation and the per-frame drain of the
    unsynced update queue.

    Conventions.
    - C++ [int] and [size_t] values are integers of [Z]; [/] on ints is
      [Z.quot], [%] is [Z.rem], [>>] is [Z.shiftr], [&] is [Z.land].  Signed
      overflow is undefined behaviour in the source.  It is written out
      where the source multiplies the grid size by another factor, in the
      slice indices of the paced bounds scan; the plain products
      [mapx * mapy] and [mapxp1 * mapyp1] are taken to fit.
    - A [std::vector] (or the raw pointer into it) is a [list]; an access
      outside the allocated range is undefined behaviour in the source and
      makes the embedded function return [None].
    - [float] arithmetic goes through the interface [Scalar], with two
      instances: IEEE binary32 as [SpecFloat] specifies it, and the real
      numbers (exact arithmetic).  Structural properties are proved for
      every instance.  Properties of the order [<] are proved for every
      instance under the condition that [<] is total on the values at
      hand, which binary32 meets when there is no NaN and only one of the
      two zeros.  Concrete runs are evaluated in binary32.
    - [for_mt_chunk] loops hand each row to a worker; the rows write disjoint
      cells and read only data the loop does not write, so they are embedded
      as sequential loops over the rows. *)

From Stdlib Require Import ZArith Reals Lra Lia Psatz.
From Stdlib Require Import Floats.SpecFloat.
From stdpp Require Import base option list.

Local Open Scope Z_scope.

(** ** Arrays and loops *)

(** [buf[i]] as an rvalue. *)
Definition rd {A} (buf : list A) (i : Z) : option A :=
  if decide (0 ≤ i) then buf !! Z.to_nat i else None.

(** [buf[i] = v]. *)
Definition wr {A} (buf : list A) (i : Z) (v : A) : option (list A) :=
  if decide (0 ≤ i < Z.of_nat (length buf))
  then Some (<[Z.to_nat i := v]> buf) else None.

(** A loop whose body may fault: the iterations run in list order, the first
    fault ends the run. *)
Fixpoint forM {K S} (ks : list K) (body : K → S → option S) (s : S) : option S :=
  match ks with
  | [] => Some s
  | k :: ks' => s' ← body k s; forM ks' body s'
  end.

(** [for (i = a; i <= b; i++)] *)
Definition range_incl (a b : Z) : list Z := seqZ a (b - a + 1).
(** [for (i = a; i < b; i++)] *)
Definition range_excl (a b : Z) : list Z := seqZ a (b - a).
(** [for (i = a; i < b; i += w)], [w > 0] *)
Definition range_step (w a b : Z) : list Z :=
  (λ k, a + w * k) <$> seqZ 0 ((b - a + w - 1) `div` w).

(** ** Scalars and vectors *)

Record float3 (F : Type) := mkFloat3 { fx : F; fy : F; fz : F }.
Arguments mkFloat3 {F} _ _ _.
Arguments fx {F} _.
Arguments fy {F} _.
Arguments fz {F} _.

(** The operations on [float] the translation unit uses.  [Normalize2D] is
    declared in System/float3.h, which is not part of the sources at hand; it
    only feeds [centerNormals2D] and is kept as an operation of the
    interface. *)
Class Scalar (F : Type) := {
  f_of_Z : Z → F;
  f_quarter : F;
  f_eighth : F;
  FLT_MAX : F;
  FLT_LOWEST : F;
  fadd : F → F → F;
  fsub : F → F → F;
  fmul : F → F → F;
  fdiv : F → F → F;
  fneg : F → F;
  fsqrt : F → F;
  fltb : F → F → bool;
  Normalize2D : float3 F → float3 F
}.

Section ScalarOps.
Context {F : Type} `{Scalar F}.

(** [std::min(a, b)]: [b] when [b < a], otherwise [a]. *)
Definition std_min (a b : F) : F := if fltb b a then b else a.
(** [std::max(a, b)]: [b] when [a < b], otherwise [a]. *)
Definition std_max (a b : F) : F := if fltb a b then b else a.

Definition float3_add (a b : float3 F) : float3 F :=
  mkFloat3 (fadd (fx a) (fx b)) (fadd (fy a) (fy b)) (fadd (fz a) (fz b)).

Definition SqLength (v : float3 F) : F :=
  fadd (fadd (fmul (fx v) (fx v)) (fmul (fy v) (fy v))) (fmul (fz v) (fz v)).

(** Modelled from the spec: [float3::Normalize] (System/float3.h) is not in
    the sources; the spec has face and center normals of unit length, so the
    vector is scaled by the inverse of its length. *)
Definition Normalize (v : float3 F) : float3 F :=
  let isqrt := fdiv (f_of_Z 1) (fsqrt (SqLength v)) in
  mkFloat3 (fmul (fx v) isqrt) (fmul (fy v) isqrt) (fmul (fz v) isqrt).

(** Modelled from the spec: [mix] (System/SpringMath.h) is not in the
    sources; the spec calls it the linear blend of its first two arguments
    with the third as factor. *)
Definition mix (v1 v2 a : F) : F := fadd v1 (fmul (fsub v2 v1) a).
End ScalarOps.

(** ** Map dimensions, rectangles and compile-time constants *)

(** Modelled from the spec: [MapDimensions::Initialize] (MapDimensions.h) is
    not in the sources.  The corner grid is (W+1)x(H+1), the center grid WxH
    with inclusive bounds W-1 and H-1, and the slope grid has half the square
    grid's resolution in each axis. *)
Record MapDimensions := { mapx : Z; mapy : Z }.
Definition mapxm1 (d : MapDimensions) : Z := mapx d - 1.
Definition mapym1 (d : MapDimensions) : Z := mapy d - 1.
Definition mapxp1 (d : MapDimensions) : Z := mapx d + 1.
Definition mapyp1 (d : MapDimensions) : Z := mapy d + 1.
Definition hmapx (d : MapDimensions) : Z := Z.shiftr (mapx d) 1.
Definition hmapy (d : MapDimensions) : Z := Z.shiftr (mapy d) 1.

Record SRectangle := mkRect { x1 : Z; z1 : Z; x2 : Z; z2 : Z }.

Definition SRectangle_eqb (a b : SRectangle) : bool :=
  (x1 a =? x1 b) && (z1 a =? z1 b) && (x2 a =? x2 b) && (z2 a =? z2 b).

Definition MAX_UHM_RECTS_PER_FRAME : Z := 128.

(** What the translation unit takes from outside the sources.
    - Constants and switches of headers: [numHeightMipMaps] (ReadMap.h),
      [GAME_SPEED] and [SQUARE_SIZE] (GlobalConstants.h), the lane count of
      [xsimd::simd_type<float>], the [USE_UNSYNCED_HEIGHTMAP] switch.
    - The values the flags [hmUpdated] and [processingHeightBounds] have when
      [Initialize] is called: [Initialize] does not assign them, their
      initialisers are in ReadMap.h.
    - The queue of unsynced updates as [HeightMapUpdateLOSCheck] leaves it.
      That function cuts the rectangle into strips along the rows of the
      line-of-sight map and queues the strips whose squares are in view and
      have a changed digest; it works on [losHandler], on [gu] and on
      [SRectangle] helpers that are outside the sources, so the queue it
      leaves is a parameter here.  No property below depends on which
      strips are queued. *)
Class Consts := {
  numHeightMipMaps : Z;
  GAME_SPEED : Z;
  SQUARE_SIZE : Z;
  simdSize : Z;
  USE_UNSYNCED_HEIGHTMAP : bool;
  initial_hmUpdated : bool;
  initial_processingHeightBounds : bool;
  HeightMapUpdateLOSCheck : SRectangle → list SRectangle → list SRectangle
}.

(** ** The state of [CReadMap] *)

Record CReadMap (F : Type) := mkReadMap {
  heightMapSynced : list F;
  mapFileHeightMap : list F;
  originalHeightMap : list F;
  centerHeightMap : list F;
  (** [mipCenterHeightMaps[i]] is mip level [i + 1]; level 0 is
      [centerHeightMap]. *)
  mipCenterHeightMaps : list (list F);
  faceNormalsSynced : list (float3 F);
  faceNormalsUnsynced : list (float3 F);
  centerNormalsSynced : list (float3 F);
  centerNormalsUnsynced : list (float3 F);
  centerNormals2D : list (float3 F);
  slopeMap : list F;
  unsyncedHeightMapUpdates : list SRectangle;
  initHeightBounds : F * F;
  tempHeightBounds : F * F;
  currHeightBounds : F * F;
  hmUpdated : bool;
  processingHeightBounds : bool
}.
Arguments mkReadMap {F}.
Arguments heightMapSynced {F} _.
Arguments mapFileHeightMap {F} _.
Arguments originalHeightMap {F} _.
Arguments centerHeightMap {F} _.
Arguments mipCenterHeightMaps {F} _.
Arguments faceNormalsSynced {F} _.
Arguments faceNormalsUnsynced {F} _.
Arguments centerNormalsSynced {F} _.
Arguments centerNormalsUnsynced {F} _.
Arguments centerNormals2D {F} _.
Arguments slopeMap {F} _.
Arguments unsyncedHeightMapUpdates {F} _.
Arguments initHeightBounds {F} _.
Arguments tempHeightBounds {F} _.
Arguments currHeightBounds {F} _.
Arguments hmUpdated {F} _.
Arguments processingHeightBounds {F} _.

(** The buffers [UpdateFaceNormals] writes. *)
Record Normals (F : Type) := mkNormals {
  nFaceS : list (float3 F);
  nCenterS : list (float3 F);
  nCenter2D : list (float3 F);
  nFaceU : list (float3 F);
  nCenterU : list (float3 F)
}.
Arguments mkNormals {F}.
Arguments nFaceS {F} _.
Arguments nCenterS {F} _.
Arguments nCenter2D {F} _.
Arguments nFaceU {F} _.
Arguments nCenterU {F} _.

(** ** The derivation pipeline *)

Section Pipeline.
Context {F : Type} `{Scalar F} `{Consts}.
Variable mapDims : MapDimensions.

(** [(h0 + h1 + h2 + h3) * 0.25f], the mean of four heights as the source
    computes it. *)
Definition mean4 (h0 h1 h2 h3 : F) : F :=
  fmul (fadd (fadd (fadd h0 h1) h2) h3) f_quarter.

Definition UpdateCenterHeightmap (rect : SRectangle)
    (heightmapSynced centerHeightMap : list F) : option (list F) :=
  forM (range_incl (z1 rect) (z2 rect)) (λ y chm,
    forM (range_incl (x1 rect) (x2 rect)) (λ x chm,
      let idxTL := (y + 0) * mapxp1 mapDims + x + 0 in
      let idxTR := (y + 0) * mapxp1 mapDims + x + 1 in
      let idxBL := (y + 1) * mapxp1 mapDims + x + 0 in
      let idxBR := (y + 1) * mapxp1 mapDims + x + 1 in
      hTL ← rd heightmapSynced idxTL;
      hTR ← rd heightmapSynced idxTR;
      hBL ← rd heightmapSynced idxBL;
      hBR ← rd heightmapSynced idxBR;
      let height := fadd (fadd (fadd hTL hTR) hBL) hBR in
      wr chm (y * mapx mapDims + x) (fmul height f_quarter)) chm)
    centerHeightMap.

(** [mipPointerHeightMaps[i]] *)
Definition mipPointer (centerHeightMap : list F) (mips : list (list F))
    (i : Z) : option (list F) :=
  if decide (i = 0) then Some centerHeightMap else rd mips (i - 1).

(** One level of [UpdateMipHeightmaps]: the two inner loops, reading
    [topMipMap] and writing [subMipMap]. *)
Definition UpdateMipLevel (rect : SRectangle) (i : Z)
    (topMipMap subMipMap : list F) : option (list F) :=
  let hmapx := Z.shiftr (mapx mapDims) i in
  let sx := Z.land (Z.shiftr (x1 rect) i) (Z.lnot 1) in
  let ex := Z.shiftr (x2 rect) i in
  let sy := Z.land (Z.shiftr (z1 rect) i) (Z.lnot 1) in
  let ey := Z.shiftr (z2 rect) i in
  forM (range_step 2 sy ey) (λ y sub,
    forM (range_step 2 sx ex) (λ x sub,
      h0 ← rd topMipMap (x + y * hmapx);
      h1 ← rd topMipMap (x + (y + 1) * hmapx);
      h2 ← rd topMipMap ((x + 1) + y * hmapx);
      h3 ← rd topMipMap ((x + 1) + (y + 1) * hmapx);
      let height := fadd (fadd (fadd h0 h1) h2) h3 in
      wr sub (Z.quot x 2 + Z.quot (Z.quot y 2 * hmapx) 2)
         (fmul height f_quarter)) sub)
    subMipMap.

Definition UpdateMipHeightmaps (rect : SRectangle)
    (centerHeightMap : list F) (mips : list (list F))
    : option (list (list F)) :=
  forM (range_excl 0 (numHeightMipMaps - 1)) (λ i mips,
    topMipMap ← mipPointer centerHeightMap mips i;
    subMipMap ← mipPointer centerHeightMap mips (i + 1);
    sub' ← UpdateMipLevel rect i topMipMap subMipMap;
    wr mips i sub') mips.

Definition UpdateFaceNormals (rect : SRectangle) (initialize : bool)
    (heightmapSynced : list F) (n : Normals F) : option (Normals F) :=
  let z1' := Z.max 0 (z1 rect - 1) in
  let x1' := Z.max 0 (x1 rect - 1) in
  let z2' := Z.min (mapym1 mapDims) (z2 rect + 1) in
  let x2' := Z.min (mapxm1 mapDims) (x2 rect + 1) in
  forM (range_incl z1' z2') (λ y n,
    forM (range_incl x1' x2') (λ x n,
      let idxTL := y * mapxp1 mapDims + x in
      let idxBL := (y + 1) * mapxp1 mapDims + x in
      hTL ← rd heightmapSynced idxTL;
      hTR ← rd heightmapSynced (idxTL + 1);
      hBL ← rd heightmapSynced idxBL;
      hBR ← rd heightmapSynced (idxBL + 1);
      let fnTL := Normalize (mkFloat3 (fneg (fsub hTR hTL))
                                      (f_of_Z SQUARE_SIZE)
                                      (fneg (fsub hBL hTL))) in
      let fnBR := Normalize (mkFloat3 (fsub hBL hBR)
                                      (f_of_Z SQUARE_SIZE)
                                      (fsub hTR hBR)) in
      let sq := y * mapx mapDims + x in
      fS ← wr (nFaceS n) (sq * 2) fnTL;
      fS ← wr fS (sq * 2 + 1) fnBR;
      cS ← wr (nCenterS n) sq (Normalize (float3_add fnTL fnBR));
      c2 ← wr (nCenter2D n) sq (Normalize2D (float3_add fnTL fnBR));
      if USE_UNSYNCED_HEIGHTMAP && initialize then
        a ← rd fS (sq * 2);
        fU ← wr (nFaceU n) (sq * 2) a;
        b ← rd fS (sq * 2 + 1);
        fU ← wr fU (sq * 2 + 1) b;
        c ← rd cS sq;
        cU ← wr (nCenterU n) sq c;
        Some (mkNormals fS cS c2 fU cU)
      else
        Some (mkNormals fS cS c2 (nFaceU n) (nCenterU n))) n) n.

(** The slope of one slope-map cell from the eight [y] components of the
    face normals of its 2x2 squares. *)
Definition slope_of (n0 n1 n2 n3 n4 n5 n6 n7 : F) : F :=
  let avgslope := f_of_Z 0 in
  let avgslope := fadd avgslope n0 in
  let avgslope := fadd avgslope n1 in
  let avgslope := fadd avgslope n2 in
  let avgslope := fadd avgslope n3 in
  let avgslope := fadd avgslope n4 in
  let avgslope := fadd avgslope n5 in
  let avgslope := fadd avgslope n6 in
  let avgslope := fadd avgslope n7 in
  let avgslope := fmul avgslope f_eighth in
  let maxslope := n0 in
  let maxslope := std_min maxslope n1 in
  let maxslope := std_min maxslope n2 in
  let maxslope := std_min maxslope n3 in
  let maxslope := std_min maxslope n4 in
  let maxslope := std_min maxslope n5 in
  let maxslope := std_min maxslope n6 in
  let maxslope := std_min maxslope n7 in
  let lerp := fdiv maxslope avgslope in
  let slope := mix maxslope avgslope lerp in
  fsub (f_of_Z 1) slope.

Definition UpdateSlopemap (rect : SRectangle)
    (faceNormalsSynced : list (float3 F)) (slopeMap : list F)
    : option (list F) :=
  let sx := Z.max 0 (Z.quot (x1 rect) 2 - 1) in
  let ex := Z.min (hmapx mapDims - 1) (Z.quot (x2 rect) 2 + 1) in
  let sy := Z.max 0 (Z.quot (z1 rect) 2 - 1) in
  let ey := Z.min (hmapy mapDims - 1) (Z.quot (z2 rect) 2 + 1) in
  forM (range_incl sy ey) (λ y sm,
    forM (range_incl sx ex) (λ x sm,
      let idx0 := (y * 2) * mapx mapDims + x * 2 in
      let idx1 := (y * 2 + 1) * mapx mapDims + x * 2 in
      n0 ← rd faceNormalsSynced (idx0 * 2);
      n1 ← rd faceNormalsSynced (idx0 * 2 + 1);
      n2 ← rd faceNormalsSynced ((idx0 + 1) * 2);
      n3 ← rd faceNormalsSynced ((idx0 + 1) * 2 + 1);
      n4 ← rd faceNormalsSynced (idx1 * 2);
      n5 ← rd faceNormalsSynced (idx1 * 2 + 1);
      n6 ← rd faceNormalsSynced ((idx1 + 1) * 2);
      n7 ← rd faceNormalsSynced ((idx1 + 1) * 2 + 1);
      wr sm (y * hmapx mapDims + x)
         (slope_of (fy n0) (fy n1) (fy n2) (fy n3)
                   (fy n4) (fy n5) (fy n6) (fy n7))) sm) slopeMap.

(** The rectangle the four derivation steps receive: the input grown by one
    cell and clamped to the inclusive bounds of the center grid. *)
Definition centerRect_of (hgtMapRect : SRectangle) : SRectangle :=
  let minsx := x1 hgtMapRect - 1 in
  let minsy := z1 hgtMapRect - 1 in
  let maxsx := x2 hgtMapRect + 1 in
  let maxsy := z2 hgtMapRect + 1 in
  mkRect (Z.max minsx 0) (Z.max minsy 0)
         (Z.min maxsx (mapxm1 mapDims)) (Z.min maxsy (mapym1 mapDims)).

Definition cornerRect_of (hgtMapRect : SRectangle) : SRectangle :=
  let minsx := x1 hgtMapRect - 1 in
  let minsy := z1 hgtMapRect - 1 in
  let maxsx := x2 hgtMapRect + 1 in
  let maxsy := z2 hgtMapRect + 1 in
  mkRect (Z.max minsx 0) (Z.max minsy 0)
         (Z.min maxsx (mapx mapDims)) (Z.min maxsy (mapy mapDims)).

Definition UpdateHeightMapSynced (hgtMapRect : SRectangle) (s : CReadMap F)
    : option (CReadMap F) :=
  let initialize :=
    SRectangle_eqb hgtMapRect (mkRect 0 0 (mapx mapDims) (mapy mapDims)) in
  let centerRect := centerRect_of hgtMapRect in
  let cornerRect := cornerRect_of hgtMapRect in
  chm ← UpdateCenterHeightmap centerRect (heightMapSynced s) (centerHeightMap s);
  mips ← UpdateMipHeightmaps centerRect chm (mipCenterHeightMaps s);
  n ← UpdateFaceNormals centerRect initialize (heightMapSynced s)
        (mkNormals (faceNormalsSynced s) (centerNormalsSynced s)
                   (centerNormals2D s) (faceNormalsUnsynced s)
                   (centerNormalsUnsynced s));
  sm ← UpdateSlopemap centerRect (nFaceS n) (slopeMap s);
  let queue :=
    if USE_UNSYNCED_HEIGHTMAP then
      if initialize then unsyncedHeightMapUpdates s ++ [cornerRect]
      else HeightMapUpdateLOSCheck cornerRect (unsyncedHeightMapUpdates s)
    else unsyncedHeightMapUpdates s ++ [cornerRect] in
  Some (mkReadMap (heightMapSynced s) (mapFileHeightMap s)
          (originalHeightMap s) chm mips
          (nFaceS n) (nFaceU n) (nCenterS n) (nCenterU n) (nCenter2D n)
          sm queue
          (initHeightBounds s) (tempHeightBounds s) (currHeightBounds s)
          (hmUpdated s) (processingHeightBounds s)).
End Pipeline.

(** ** Height bounds *)

(** [a * b] on 32-bit [int]: a product outside the range of [int] is
    undefined behaviour. *)
Definition INT_MIN : Z := - 2 ^ 31.
Definition INT_MAX : Z := 2 ^ 31 - 1.
Definition int_mul (a b : Z) : option Z :=
  if decide (INT_MIN ≤ a * b ≤ INT_MAX) then Some (a * b) else None.

Section Bounds.
Context {F : Type} `{Scalar F} `{Consts}.
Variable mapDims : MapDimensions.

(** [xsimd::load_unaligned(&buf[i])]: the [simdSize] floats from [buf[i]]
    on. *)
Definition load_unaligned (buf : list F) (i : Z) : option (list F) :=
  if decide (0 ≤ i ∧ i + simdSize ≤ Z.of_nat (length buf))
  then Some (take (Z.to_nat simdSize) (drop (Z.to_nat i) buf)) else None.

(** [xsimd::min] and [xsimd::max] work lane by lane; a lane keeps its first
    operand when that one is the smaller (larger), else takes the second. *)
Definition xsimd_min (a b : list F) : list F :=
  zip_with (λ x y, if fltb x y then x else y) a b.
Definition xsimd_max (a b : list F) : list F :=
  zip_with (λ x y, if fltb y x then x else y) a b.

Definition UpdateTempHeightBoundsSIMD (idxBeg idxEnd : Z)
    (heightMap : list F) (tempHeightBounds : F * F) : option (F * F) :=
  let indCnt := idxEnd - idxBeg in
  let vecSize := indCnt - indCnt `mod` simdSize in
  let smin := replicate (Z.to_nat simdSize) (tempHeightBounds.1) in
  let smax := replicate (Z.to_nat simdSize) (tempHeightBounds.2) in
  (* SIMD vectorized loop *)
  acc ← forM (range_step simdSize 0 vecSize) (λ idxRel acc,
    simdVec ← load_unaligned heightMap (idxBeg + idxRel);
    Some (xsimd_min simdVec (acc.1), xsimd_max simdVec (acc.2)))
    (smin, smax);
  (* Scalar part *)
  temp ← forM (range_excl 0 simdSize) (λ i temp,
    lo ← rd (acc.1) i;
    hi ← rd (acc.2) i;
    Some (std_min lo (temp.1), std_max hi (temp.2))) tempHeightBounds;
  (* Remaining part that cannot be vectorized *)
  forM (range_excl vecSize indCnt) (λ idxRel temp,
    h ← rd heightMap (idxBeg + idxRel);
    Some (std_min h (temp.1), std_max h (temp.2))) temp.

Definition set_bounds (s : CReadMap F) (temp curr : F * F)
    (updated processing : bool) : CReadMap F :=
  mkReadMap (heightMapSynced s) (mapFileHeightMap s) (originalHeightMap s)
    (centerHeightMap s) (mipCenterHeightMaps s)
    (faceNormalsSynced s) (faceNormalsUnsynced s)
    (centerNormalsSynced s) (centerNormalsUnsynced s) (centerNormals2D s)
    (slopeMap s) (unsyncedHeightMapUpdates s)
    (initHeightBounds s) temp curr updated processing.

(** [UpdateHeightBounds(int syncFrame)]: the paced scan, one slice of the
    grid per call.  The slice indices are products of three [int]s,
    evaluated from the left. *)
Definition UpdateHeightBounds_paced (syncFrame : Z) (s : CReadMap F)
    : option (CReadMap F) :=
  let PACING_PERIOD := GAME_SPEED in
  let dataChunk := Z.rem syncFrame PACING_PERIOD in
  let s :=
    if decide (dataChunk = 0) then
      let curr := if processingHeightBounds s
                  then tempHeightBounds s else currHeightBounds s in
      set_bounds s (tempHeightBounds s) curr false (hmUpdated s)
    else s in
  if negb (processingHeightBounds s) then Some s else
  let temp := if decide (dataChunk = 0)
              then (FLT_MAX, FLT_LOWEST) else tempHeightBounds s in
  b ← int_mul (dataChunk + 0) (mapxp1 mapDims);
  b ← int_mul b (mapyp1 mapDims);
  let idxBeg := Z.quot b PACING_PERIOD in
  e ← int_mul (dataChunk + 1) (mapxp1 mapDims);
  e ← int_mul e (mapyp1 mapDims);
  let idxEnd := Z.quot e PACING_PERIOD in
  temp' ← UpdateTempHeightBoundsSIMD idxBeg idxEnd (heightMapSynced s) temp;
  Some (set_bounds s temp' (currHeightBounds s)
          (hmUpdated s) (processingHeightBounds s)).

(** [UpdateHeightBounds()]: the full rescan in one pass. *)
Definition UpdateHeightBounds (s : CReadMap F) : option (CReadMap F) :=
  let temp := (FLT_MAX, FLT_LOWEST) in
  temp' ← UpdateTempHeightBoundsSIMD 0 (mapxp1 mapDims * mapyp1 mapDims)
             (heightMapSynced s) temp;
  Some (set_bounds s temp' temp' (hmUpdated s) (processingHeightBounds s)).
End Bounds.

(** ** XOR-differential serialisation *)

(** [creg::ISerializer], reduced to what [SerializeMapChanges] uses: the
    direction and the stream of 32-bit words (written at the end, read from
    the front). *)
Record ISerializer := mkSerializer { IsWriting : bool; stream : list Z }.

(** [s->Serialize(&height, sizeof(int32_t))]: the serializer and the value
    [height] holds afterwards. *)
Definition Serialize (s : ISerializer) (height : Z) : option (ISerializer * Z) :=
  if IsWriting s then Some (mkSerializer true (stream s ++ [height]), height)
  else match stream s with
       | [] => None
       | w :: rest => Some (mkSerializer false rest, w)
       end.

(** [SerializeMapChanges]; the height maps are seen through their [int32_t]
    views [iochms] (reference) and [ichms] (modified), and [n] is
    [mapxp1 * mapyp1]. *)
Definition SerializeMapChanges (n : Z) (s : ISerializer)
    (iochms ichms : list Z) : option (ISerializer * list Z) :=
  if IsWriting s then
    forM (range_excl 0 n) (λ i st,
      a ← rd (st.2) i;
      b ← rd iochms i;
      r ← Serialize (st.1) (Z.lxor a b);
      Some (r.1, st.2)) (s, ichms)
  else
    forM (range_excl 0 n) (λ i st,
      r ← Serialize (st.1) 0;
      b ← rd iochms i;
      ichms' ← wr (st.2) i (Z.lxor (r.2) b);
      Some (r.1, ichms')) (s, ichms).

(** ** Draining the queue of unsynced updates *)

Section Draw.
(** [W] is the state [UpdateHeightMapUnsynced] (pure virtual in
    [CReadMap]) works on. *)
Context {W : Type}.
(** [CRectangleOverlapHandler::Process], outside the sources. *)
Variable Process : bool → list SRectangle → list SRectangle.
Variable UpdateHeightMapUnsynced : SRectangle → W → W.

Record DrawState := mkDraw {
  dQueue : list SRectangle;   (* unsyncedHeightMapUpdates *)
  dWorld : W;
  dEvents : list SRectangle   (* calls of eventHandler.UnsyncedHeightMapUpdate *)
}.

Definition pop_front (q : list SRectangle) : option (list SRectangle) :=
  match q with [] => None | _ :: q' => Some q' end.

Definition UpdateDraw (firstCall : bool) (st : DrawState) : option DrawState :=
  match dQueue st with
  | [] => Some st
  | _ =>
    let q := Process firstCall (dQueue st) in
    let N := Z.min MAX_UHM_RECTS_PER_FRAME (Z.of_nat (length q)) in
    w ← forM (range_excl 0 N) (λ i w,
           r ← rd q i; Some (UpdateHeightMapUnsynced r w)) (dWorld st);
    ev ← forM (range_excl 0 N) (λ i ev,
           r ← rd q i; Some (ev ++ [r])) (dEvents st);
    q' ← forM (range_excl 0 N) (λ i q, pop_front q) q;
    Some (mkDraw q' w ev)
  end.
End Draw.
Arguments mkDraw {W}.
Arguments dQueue {W} _.
Arguments dWorld {W} _.
Arguments dEvents {W} _.

(** ** Initialisation *)

(** The result of a call: it returns, it throws, or it runs into undefined
    behaviour (an access outside a buffer).  [content_error] is the exception
    of System/Exceptions.h, the only one this translation unit throws itself
    (in [LoadMap], for a map of the retired SM3 format); [length_error] is
    [std::length_error], which [std::vector::resize] throws for a count
    above [max_size()]. *)
Inductive exception := content_error | length_error.
Inductive outcome (A : Type) :=
  | Returned (a : A)
  | Thrown (e : exception)
  | Undefined.
Arguments Returned {A} _.
Arguments Thrown {A} _.
Arguments Undefined {A}.

Definition outcome_of_option {A} (o : option A) : outcome A :=
  match o with Some a => Returned a | None => Undefined end.

Section Init.
Context {F : Type} `{Scalar F} `{Consts}.
Variable mapDims : MapDimensions.

Definition zero3 : float3 F := mkFloat3 (f_of_Z 0) (f_of_Z 0) (f_of_Z 0).

(** The vector after [v.clear(); v.resize(n)], for a count [n ≥ 0]: [n]
    value-initialised elements.  (An [int] count below 0 is converted to
    a [size_t] above [max_size()] and [resize] throws; see
    [resize_throws].) *)
Definition resized {A} (n : Z) (x : A) : list A := replicate (Z.to_nat n) x.

(** Whether [v.resize(n)] throws [std::length_error] for the [int] [n]. *)
Definition resize_throws (n : Z) : bool := n <? 0.

(** The counts [Initialize] passes to [resize], in the order of the
    calls: the two copies of the corner grid, the face normals, the center
    normals, the center heights, the mip levels, the slope map, the type
    map and the vertex normals. *)
Definition resize_counts : list Z :=
  let corners := mapxp1 mapDims * mapyp1 mapDims in
  let squares := mapx mapDims * mapy mapDims in
  [corners; corners; squares * 2; squares * 2;
   squares; squares; squares; squares] ++
  ((λ i, Z.shiftr (mapx mapDims) i * Z.shiftr (mapy mapDims) i)
     <$> range_excl 1 numHeightMipMaps) ++
  [hmapx mapDims * hmapy mapDims; hmapx mapDims * hmapy mapDims; corners].

(** [InitHeightBounds] with [LoadOriginalHeightMapAndChecksum]: the two
    copies of the loaded grid and the initial bounds.  ([mapChecksum] is
    folded with [spring::LiteHash], which is outside the sources, and is
    left out.) *)
Definition InitHeightBounds (s : CReadMap F) : option (CReadMap F) :=
  let heightmap := heightMapSynced s in
  let n := mapxp1 mapDims * mapyp1 mapDims in
  mf ← forM (range_excl 0 n) (λ i mf,
         h ← rd heightmap i; wr mf i h) (mapFileHeightMap s);
  let init := (FLT_MAX, FLT_LOWEST) in
  r ← forM (range_excl 0 n) (λ i r,
        h ← rd heightmap i;
        orig ← wr (r.1) i h;
        Some (orig, (std_min (r.2.1) h, std_max (r.2.2) h)))
        (originalHeightMap s, init);
  Some (mkReadMap heightmap mf (r.1)
          (centerHeightMap s) (mipCenterHeightMaps s)
          (faceNormalsSynced s) (faceNormalsUnsynced s)
          (centerNormalsSynced s) (centerNormalsUnsynced s)
          (centerNormals2D s) (slopeMap s) (unsyncedHeightMapUpdates s)
          (r.2) init (r.2) (hmUpdated s) (processingHeightBounds s)).

(** The object once [Initialize] has resized its buffers, around the
    corner grid the loader has filled in.  [resize] value-initialises the
    elements.  The queue of unsynced updates is as its constructor left
    it, empty.  The two flags are not assigned by [Initialize] and have
    the values they had before.  The three pairs of bounds are assigned by
    [InitHeightBounds] before anything reads them; 0 stands for what they
    held. *)
Definition allocate (heightMap : list F) : CReadMap F :=
  let corners := mapxp1 mapDims * mapyp1 mapDims in
  let squares := mapx mapDims * mapy mapDims in
  mkReadMap heightMap
    (resized corners (f_of_Z 0)) (resized corners (f_of_Z 0))
    (resized squares (f_of_Z 0))
    ((λ i, resized (Z.shiftr (mapx mapDims) i * Z.shiftr (mapy mapDims) i)
                   (f_of_Z 0)) <$> range_excl 1 numHeightMipMaps)
    (resized (squares * 2) zero3) (resized (squares * 2) zero3)
    (resized squares zero3) (resized squares zero3) (resized squares zero3)
    (resized (hmapx mapDims * hmapy mapDims) (f_of_Z 0))
    []
    (f_of_Z 0, f_of_Z 0) (f_of_Z 0, f_of_Z 0) (f_of_Z 0, f_of_Z 0)
    initial_hmUpdated initial_processingHeightBounds.

(** [Initialize]: the buffers are resized, which throws when a count is
    negative; then the snapshots and bounds are taken and the pipeline is
    run over the whole map.  (Running out of memory in [resize] is not
    modelled.) *)
Definition Initialize (heightMap : list F) : outcome (CReadMap F) :=
  if existsb resize_throws resize_counts then Thrown length_error else
  outcome_of_option (
    s ← InitHeightBounds (allocate heightMap);
    UpdateHeightMapSynced mapDims
      (mkRect 0 0 (mapx mapDims) (mapy mapDims)) s).
End Init.

(** ** Two instances of the scalar interface *)

(** Exact arithmetic over the real numbers. *)
Definition Rltb (a b : R) : bool := if Rlt_dec a b then true else false.

Definition R_Normalize2D (v : float3 R) : float3 R :=
  let l := sqrt (fx v * fx v + fz v * fz v)%R in
  mkFloat3 (fx v / l)%R 0%R (fz v / l)%R.

#[export] Instance R_Scalar : Scalar R := {|
  f_of_Z := IZR;
  f_quarter := (/ 4)%R;
  f_eighth := (/ 8)%R;
  FLT_MAX := IZR (2 ^ 128 - 2 ^ 104);
  FLT_LOWEST := IZR (- (2 ^ 128 - 2 ^ 104));
  fadd := Rplus;
  fsub := Rminus;
  fmul := Rmult;
  fdiv := Rdiv;
  fneg := Ropp;
  fsqrt := sqrt;
  fltb := Rltb;
  Normalize2D := R_Normalize2D
|}.

(** IEEE 754 binary32 ([float]): 24 bits of precision, exponents below 128,
    round to nearest even, as specified by [SpecFloat]. *)
Definition b32_of_Z (z : Z) : spec_float := binary_normalize 24 128 z 0 false.

Definition b32_Normalize2D (v : float3 spec_float) : float3 spec_float :=
  let sql := SFadd 24 128 (SFmul 24 128 (fx v) (fx v))
                          (SFmul 24 128 (fz v) (fz v)) in
  let isqrt := SFdiv 24 128 (b32_of_Z 1) (SFsqrt 24 128 sql) in
  mkFloat3 (SFmul 24 128 (fx v) isqrt) (b32_of_Z 0) (SFmul 24 128 (fz v) isqrt).

#[export] Instance b32_Scalar : Scalar spec_float := {|
  f_of_Z := b32_of_Z;
  f_quarter := binary_normalize 24 128 1 (-2) false;
  f_eighth := binary_normalize 24 128 1 (-3) false;
  FLT_MAX := S754_finite false (2 ^ 24 - 1) 104;
  FLT_LOWEST := S754_finite true (2 ^ 24 - 1) 104;
  fadd := SFadd 24 128;
  fsub := SFsub 24 128;
  fmul := SFmul 24 128;
  fdiv := SFdiv 24 128;
  fneg := SFopp;
  fsqrt := SFsqrt 24 128;
  fltb := SFltb;
  Normalize2D := b32_Normalize2D
|}.

(** One setting of the parameters, used for the runs that are evaluated:
    seven mip levels, thirty simulation frames per second, squares of eight
    world units, four lanes (SSE), the unsynced height map in use, both
    flags clear when [Initialize] is called.  For the queue, the
    line-of-sight map is taken to be a single square over the whole map, in
    view and changed: the one strip [HeightMapUpdateLOSCheck] then cuts,
    clamped to the rectangle, is the rectangle itself. *)
#[export] Instance engine_consts : Consts := {|
  numHeightMipMaps := 7;
  GAME_SPEED := 30;
  SQUARE_SIZE := 8;
  simdSize := 4;
  USE_UNSYNCED_HEIGHTMAP := true;
  initial_hmUpdated := false;
  initial_processingHeightBounds := false;
  HeightMapUpdateLOSCheck := λ r q, q ++ [r]
|}.

(** ** Single writes

    Every loop of the pipeline computes, from data it does not write, a
    sequence of single writes and performs them.  The two kinds of state the
    loops work on are one buffer and the group of normal buffers. *)

(** [buf[a.1] = a.2] *)
Definition wr_act {A} (a : Z * A) (buf : list A) : option (list A) :=
  wr buf (a.1) (a.2).

Inductive NBuf := BFaceS | BCenterS | BCenter2D | BFaceU | BCenterU.

#[export] Instance NBuf_eq_dec : EqDecision NBuf.
Proof. solve_decision. Defined.

Definition nget {F} (b : NBuf) (n : Normals F) : list (float3 F) :=
  match b with
  | BFaceS => nFaceS n
  | BCenterS => nCenterS n
  | BCenter2D => nCenter2D n
  | BFaceU => nFaceU n
  | BCenterU => nCenterU n
  end.

Definition nset {F} (b : NBuf) (l : list (float3 F)) (n : Normals F) : Normals F :=
  match b with
  | BFaceS => mkNormals l (nCenterS n) (nCenter2D n) (nFaceU n) (nCenterU n)
  | BCenterS => mkNormals (nFaceS n) l (nCenter2D n) (nFaceU n) (nCenterU n)
  | BCenter2D => mkNormals (nFaceS n) (nCenterS n) l (nFaceU n) (nCenterU n)
  | BFaceU => mkNormals (nFaceS n) (nCenterS n) (nCenter2D n) l (nCenterU n)
  | BCenterU => mkNormals (nFaceS n) (nCenterS n) (nCenter2D n) (nFaceU n) l
  end.

(** [b[i] = v] for one of the normal buffers. *)
Record NAct (F : Type) := mkNAct { aBuf : NBuf; aIdx : Z; aVal : float3 F }.
Arguments mkNAct {F} _ _ _.
Arguments aBuf {F} _.
Arguments aIdx {F} _.
Arguments aVal {F} _.

Definition napp {F} (a : NAct F) (n : Normals F) : option (Normals F) :=
  l ← wr (nget (aBuf a) n) (aIdx a) (aVal a); Some (nset (aBuf a) l n).

(** The cell a write goes to, and reading a cell of the normal buffers. *)
Definition nloc {F} (a : NAct F) : NBuf * Z := (aBuf a, aIdx a).
Definition nrd {F} (n : Normals F) (l : NBuf * Z) : option (float3 F) :=
  rd (nget (l.1) n) (l.2).

(** The writes a loop nest collects: those of the body at row [y] of [ys]
    and column [x] of [xs]. *)
Definition nest_writes {K1 K2 Act} (g : K1 → K2 → option (list Act))
    (ys : list K1) (xs : list K2) (a : Act) : Prop :=
  ∃ y x acts, y ∈ ys ∧ x ∈ xs ∧ g y x = Some acts ∧ a ∈ acts.

(** ** Well-formed dimensions and states *)

(** The map has squares, and every mip level halves the one above it
    exactly. *)
Definition dims_ok `{Consts} (d : MapDimensions) : Prop :=
  1 ≤ numHeightMipMaps ∧ 0 < mapx d ∧ 0 < mapy d ∧
  (2 ^ (numHeightMipMaps - 1) | mapx d) ∧ (2 ^ (numHeightMipMaps - 1) | mapy d).

(** The buffers have the sizes [Initialize] gives them. *)
Definition wf_state {F} `{Consts} (d : MapDimensions) (s : CReadMap F) : Prop :=
  Z.of_nat (length (heightMapSynced s)) = mapxp1 d * mapyp1 d ∧
  Z.of_nat (length (centerHeightMap s)) = mapx d * mapy d ∧
  Z.of_nat (length (mipCenterHeightMaps s)) = numHeightMipMaps - 1 ∧
  (∀ i l, rd (mipCenterHeightMaps s) (i - 1) = Some l →
     Z.of_nat (length l) = Z.shiftr (mapx d) i * Z.shiftr (mapy d) i) ∧
  Z.of_nat (length (faceNormalsSynced s)) = mapx d * mapy d * 2 ∧
  Z.of_nat (length (faceNormalsUnsynced s)) = mapx d * mapy d * 2 ∧
  Z.of_nat (length (centerNormalsSynced s)) = mapx d * mapy d ∧
  Z.of_nat (length (centerNormalsUnsynced s)) = mapx d * mapy d ∧
  Z.of_nat (length (centerNormals2D s)) = mapx d * mapy d ∧
  Z.of_nat (length (slopeMap s)) = hmapx d * hmapy d.

(** The derived buffers of two states agree. *)
Definition same_derived {F} (s s' : CReadMap F) : Prop :=
  centerHeightMap s' = centerHeightMap s ∧
  mipCenterHeightMaps s' = mipCenterHeightMaps s ∧
  faceNormalsSynced s' = faceNormalsSynced s ∧
  faceNormalsUnsynced s' = faceNormalsUnsynced s ∧
  centerNormalsSynced s' = centerNormalsSynced s ∧
  centerNormalsUnsynced s' = centerNormalsUnsynced s ∧
  centerNormals2D s' = centerNormals2D s ∧
  slopeMap s' = slopeMap s.

(** The corner height at [(x, y)]. *)
Definition corner {F} (d : MapDimensions) (s : CReadMap F) (x y : Z) : option F :=
  rd (heightMapSynced s) (y * mapxp1 d + x).

(** ** The writes of one iteration of each loop nest *)

Section WritesOf.
Context {F : Type} `{Scalar F} `{Consts}.
Variable mapDims : MapDimensions.

Definition center_writes (hm : list F) (y x : Z) : option (list (Z * F)) :=
  hTL ← rd hm ((y + 0) * mapxp1 mapDims + x + 0);
  hTR ← rd hm ((y + 0) * mapxp1 mapDims + x + 1);
  hBL ← rd hm ((y + 1) * mapxp1 mapDims + x + 0);
  hBR ← rd hm ((y + 1) * mapxp1 mapDims + x + 1);
  Some [(y * mapx mapDims + x, mean4 hTL hTR hBL hBR)].

Definition mip_writes (i : Z) (top : list F) (y x : Z)
    : option (list (Z * F)) :=
  let hx := Z.shiftr (mapx mapDims) i in
  h0 ← rd top (x + y * hx);
  h1 ← rd top (x + (y + 1) * hx);
  h2 ← rd top ((x + 1) + y * hx);
  h3 ← rd top ((x + 1) + (y + 1) * hx);
  Some [(Z.quot x 2 + Z.quot (Z.quot y 2 * hx) 2, mean4 h0 h1 h2 h3)].

Definition slope_writes (fn : list (float3 F)) (y x : Z)
    : option (list (Z * F)) :=
  let idx0 := (y * 2) * mapx mapDims + x * 2 in
  let idx1 := (y * 2 + 1) * mapx mapDims + x * 2 in
  n0 ← rd fn (idx0 * 2);
  n1 ← rd fn (idx0 * 2 + 1);
  n2 ← rd fn ((idx0 + 1) * 2);
  n3 ← rd fn ((idx0 + 1) * 2 + 1);
  n4 ← rd fn (idx1 * 2);
  n5 ← rd fn (idx1 * 2 + 1);
  n6 ← rd fn ((idx1 + 1) * 2);
  n7 ← rd fn ((idx1 + 1) * 2 + 1);
  Some [(y * hmapx mapDims + x,
         slope_of (fy n0) (fy n1) (fy n2) (fy n3)
                  (fy n4) (fy n5) (fy n6) (fy n7))].

(** The normal of the top-left and of the bottom-right triangle of a
    square, from its corner heights. *)
Definition face_TL (hTL hTR hBL : F) : float3 F :=
  Normalize (mkFloat3 (fneg (fsub hTR hTL)) (f_of_Z SQUARE_SIZE)
                      (fneg (fsub hBL hTL))).
Definition face_BR (hTR hBL hBR : F) : float3 F :=
  Normalize (mkFloat3 (fsub hBL hBR) (f_of_Z SQUARE_SIZE) (fsub hTR hBR)).

Definition face_writes (init : bool) (hm : list F) (y x : Z)
    : option (list (NAct F)) :=
  let idxTL := y * mapxp1 mapDims + x in
  let idxBL := (y + 1) * mapxp1 mapDims + x in
  hTL ← rd hm idxTL;
  hTR ← rd hm (idxTL + 1);
  hBL ← rd hm idxBL;
  hBR ← rd hm (idxBL + 1);
  let fnTL := face_TL hTL hTR hBL in
  let fnBR := face_BR hTR hBL hBR in
  let sq := y * mapx mapDims + x in
  Some ([mkNAct BFaceS (sq * 2) fnTL; mkNAct BFaceS (sq * 2 + 1) fnBR;
         mkNAct BCenterS sq (Normalize (float3_add fnTL fnBR));
         mkNAct BCenter2D sq (Normalize2D (float3_add fnTL fnBR))] ++
        (if USE_UNSYNCED_HEIGHTMAP && init
         then [mkNAct BFaceU (sq * 2) fnTL;
               mkNAct BFaceU (sq * 2 + 1) fnBR;
               mkNAct BCenterU sq (Normalize (float3_add fnTL fnBR))]
         else [])).
End WritesOf.

(** ** Notions used to state the properties *)

(** The smaller of two values for a comparison [ltb]; [std_min] is
    [lesser fltb], [std_max] is [lesser] of the converse comparison. *)
Definition lesser {F} (ltb : F → F → bool) (a b : F) : F :=
  if ltb b a then b else a.

Definition fold_lesser {F} (ltb : F → F → bool) (l : list F) (m : F) : F :=
  foldl (λ m h, lesser ltb h m) m l.

(** [ltb] is a strict total order: what [<] is on floats as long as no NaN
    occurs and the two zeros are not told apart. *)
Definition strict_total {F} (ltb : F → F → bool) : Prop :=
  (∀ a, ltb a a = false) ∧
  (∀ a b c, ltb a b = true → ltb b c = true → ltb a c = true) ∧
  (∀ a b, ltb a b = false → ltb b a = false → a = b).

(** [ltb] is a strict total order on the values that satisfy [P]. *)
Definition strict_total_on {F} (ltb : F → F → bool) (P : F → Prop) : Prop :=
  (∀ a, P a → ltb a a = false) ∧
  (∀ a b c, P a → P b → P c →
     ltb a b = true → ltb b c = true → ltb a c = true) ∧
  (∀ a b, P a → P b → ltb a b = false → ltb b a = false → a = b).

(** [<] is a strict total order on the heights [hm] together with the two
    values every scan starts from.  For [float] this holds when no height is
    a NaN and the heights do not hold both [+0] and [-0]. *)
Definition ordered_heights {F} `{Scalar F} (hm : list F) : Prop :=
  strict_total_on fltb (λ h, h ∈ FLT_MAX :: FLT_LOWEST :: hm).

(** The products in the slice indices of the paced scan fit in [int]. *)
Definition slices_fit `{Consts} (d : MapDimensions) : Prop :=
  0 ≤ mapx d ∧ 0 ≤ mapy d ∧
  GAME_SPEED * (mapxp1 d * mapyp1 d) ≤ INT_MAX.

(** The plain scalar scan: minimum and maximum of the heights [l], starting
    from the bounds [b]. *)
Definition bounds_of {F} `{Scalar F} (l : list F) (b : F * F) : F * F :=
  foldl (λ b h, (std_min h (b.1), std_max h (b.2))) b l.

(** The [q] vectors the SIMD loop loads from offset [o] on. *)
Definition simd_chunks {F} `{Consts} (hm : list F) (o q : Z) : list (list F) :=
  (λ k, take (Z.to_nat simdSize) (drop (Z.to_nat (o + simdSize * k)) hm))
    <$> range_excl 0 q.

(** The state after the simulation has written new corner heights. *)
Definition with_heights {F} (s : CReadMap F) (hm : list F) (updated : bool)
    : CReadMap F :=
  mkReadMap hm (mapFileHeightMap s) (originalHeightMap s)
    (centerHeightMap s) (mipCenterHeightMaps s)
    (faceNormalsSynced s) (faceNormalsUnsynced s)
    (centerNormalsSynced s) (centerNormalsUnsynced s) (centerNormals2D s)
    (slopeMap s) (unsyncedHeightMapUpdates s)
    (initHeightBounds s) (tempHeightBounds s) (currHeightBounds s)
    updated (processingHeightBounds s).

(** The states the engine can be in: the one [Initialize] returns, and from
    there any number of rounds in which the simulation overwrites corner
    heights and calls the pipeline on some rectangle. *)
Inductive reachable {F} `{Scalar F} `{Consts} (d : MapDimensions)
    : CReadMap F → Prop :=
  | reach_init hm s :
      Initialize d hm = Returned s → reachable d s
  | reach_update s hm rect updated s' :
      reachable d s →
      length hm = length (heightMapSynced s) →
      UpdateHeightMapSynced d rect (with_heights s hm updated) = Some s' →
      reachable d s'.

(** ** Reading the mip pyramid, and the mip invariant at one cell *)

(** Level [i] at [(x, y)]; level 0 is the center grid. *)
Definition mip_at {F} (d : MapDimensions) (s : CReadMap F) (i x y : Z)
    : option F :=
  l ← mipPointer (centerHeightMap s) (mipCenterHeightMaps s) i;
  rd l (x + y * Z.shiftr (mapx d) i).

(** Cell [(x, y)] of level [i + 1] is the average of its 2x2 block of level
    [i], summed in the order [UpdateMipHeightmaps] sums it. *)
Definition mip_cell_ok {F} `{Scalar F} (d : MapDimensions) (s : CReadMap F)
    (i x y : Z) : Prop :=
  ∃ h0 h1 h2 h3,
    mip_at d s i (2 * x) (2 * y) = Some h0 ∧
    mip_at d s i (2 * x) (2 * y + 1) = Some h1 ∧
    mip_at d s i (2 * x + 1) (2 * y) = Some h2 ∧
    mip_at d s i (2 * x + 1) (2 * y + 1) = Some h3 ∧
    mip_at d s (i + 1) x y = Some (mean4 h0 h1 h2 h3).

(** ** Concrete maps *)

Definition state_of {A} (o : outcome A) (dflt : A) : A :=
  match o with Returned a => a | _ => dflt end.


(** Maps of 64x64, 8x8 and 6x6 squares. *)
Definition d64 : MapDimensions := {| mapx := 64; mapy := 64 |}.
Definition d8 : MapDimensions := {| mapx := 8; mapy := 8 |}.

(** The flat corner grid at height [h], in binary32 and over the reals. *)
Definition flat_b32 (d : MapDimensions) (h : Z) : list spec_float :=
  replicate (Z.to_nat (mapxp1 d * mapyp1 d)) (b32_of_Z h).
Definition flat_R (d : MapDimensions) (h : R) : list R :=
  replicate (Z.to_nat (mapxp1 d * mapyp1 d)) h.

(** Over the reals: the flat 64x64 grid with corner (4, 4) raised to a cliff
    of height 1000. *)
Definition cliff_R : list R :=
  <[Z.to_nat (4 * mapxp1 d64 + 4) := 1000%R]> (flat_R d64 0).

(** A build with a pyramid of three levels, the center grid and two mip
    levels, for which maps of 4x4 squares and their multiples are valid;
    the other constants are the engine's.  The runs evaluated below are
    those of this build, in binary32. *)
Definition three_levels : Consts := {|
  numHeightMipMaps := 3;
  GAME_SPEED := 30;
  SQUARE_SIZE := 8;
  simdSize := 4;
  USE_UNSYNCED_HEIGHTMAP := true;
  initial_hmUpdated := false;
  initial_processingHeightBounds := false;
  HeightMapUpdateLOSCheck := λ r q, q ++ [r]
|}.

Section ThreeLevels.
Local Existing Instance three_levels | 0.

(** The 8x8 map initialised flat at height 0. *)
Definition init8 : CReadMap spec_float :=
  Eval vm_compute in
    state_of (Initialize d8 (flat_b32 d8 0)) (allocate d8 []).

(** The flat grid with corner (4, 4) raised to height 16, and the state of
    the map once the simulation has written that grid. *)
Definition edited8 : list spec_float :=
  <[Z.to_nat (4 * mapxp1 d8 + 4) := b32_of_Z 16]> (flat_b32 d8 0).
Definition edited_state8 : CReadMap spec_float :=
  with_heights init8 edited8 true.

(** That state after the pipeline has run on the rectangle of the edit. *)
Definition after_edit8 : CReadMap spec_float :=
  Eval vm_compute in
    default edited_state8
      (UpdateHeightMapSynced d8 (mkRect 4 4 4 4) edited_state8).
End ThreeLevels.

(** ** Saving and loading the terrain *)

(** [SerializeTypeMap]: the type map, one byte per slope-map cell, is saved
    as its XOR with the type map of the map file.  [iotm] is what
    [GetInfoMap("type", &tbi)] returns, the bytes of the map file's type map
    or a null pointer; [itm] is [typeMap.data()]; [n] is
    [hmapx * hmapy].  The operands of [^] are [uint8_t], so is the result. *)
Definition SerializeTypeMap (n : Z) (s : ISerializer)
    (iotm : option (list Z)) (itm : list Z) : option (ISerializer * list Z) :=
  match iotm with
  | None => Some (s, itm)
  | Some iotm =>
    if IsWriting s then
      forM (range_excl 0 n) (λ i st,
        a ← rd (st.2) i;
        b ← rd iotm i;
        r ← Serialize (st.1) (Z.lxor a b);
        Some (r.1, st.2)) (s, itm)
    else
      forM (range_excl 0 n) (λ i st,
        r ← Serialize (st.1) 0;
        b ← rd iotm i;
        itm' ← wr (st.2) i (Z.lxor (r.2) b);
        Some (r.1, itm')) (s, itm)
  end.

(** What [CReadMap::Serialize] reads and writes: the [int32_t] views of the
    height map of the map file, of the height map at the start of the match
    and of the current synced height map, and the type map. *)
Record SavedTerrain := mkSaved {
  svMapFile : list Z;
  svOriginal : list Z;
  svSynced : list Z;
  svTypeMap : list Z
}.

Section Serialization.
Variable mapDims : MapDimensions.

(** The start-of-match height map against the one of the map file. *)
Definition SerializeMapChangesBeforeMatch (s : ISerializer)
    (t : SavedTerrain) : option (ISerializer * SavedTerrain) :=
  r ← SerializeMapChanges (mapxp1 mapDims * mapyp1 mapDims) s
        (svMapFile t) (svOriginal t);
  Some (r.1, mkSaved (svMapFile t) (r.2) (svSynced t) (svTypeMap t)).

(** The current height map against the one at the start of the match. *)
Definition SerializeMapChangesDuringMatch (s : ISerializer)
    (t : SavedTerrain) : option (ISerializer * SavedTerrain) :=
  r ← SerializeMapChanges (mapxp1 mapDims * mapyp1 mapDims) s
        (svOriginal t) (svSynced t);
  Some (r.1, mkSaved (svMapFile t) (svOriginal t) (r.2) (svTypeMap t)).

(** [CReadMap::Serialize] *)
Definition CReadMap_Serialize (iotm : option (list Z)) (s : ISerializer)
    (t : SavedTerrain) : option (ISerializer * SavedTerrain) :=
  r ← SerializeMapChangesBeforeMatch s t;
  r ← SerializeMapChangesDuringMatch (r.1) (r.2);
  q ← SerializeTypeMap (hmapx mapDims * hmapy mapDims) (r.1) iotm
        (svTypeMap (r.2));
  Some (q.1, mkSaved (svMapFile (r.2)) (svOriginal (r.2)) (svSynced (r.2))
                     (q.2)).
End Serialization.

(** A value of type [int32_t], of type [uint8_t]. *)
Definition is_int32 (z : Z) : Prop := - 2 ^ 31 ≤ z < 2 ^ 31.
Definition is_uint8 (z : Z) : Prop := 0 ≤ z < 2 ^ 8.

(** ** Digests of the height map per line-of-sight square *)

Record DigestVectors := mkDigests {
  syncedHeightMapDigests : list Z;
  unsyncedHeightMapDigests : list Z
}.

Section Digests.
(** Whether [USE_HEIGHTMAP_DIGESTS] and [USE_UNSYNCED_HEIGHTMAP] are both
    defined, and [losHandler->los.size]. *)
Variable USE_HEIGHTMAP_DIGESTS : bool.
Variable los_size : Z * Z.

Definition InitHeightMapDigestVectors (losMapSize : Z * Z)
    (dg : DigestVectors) : DigestVectors :=
  if USE_HEIGHTMAP_DIGESTS then
    let xsize := losMapSize.1 + 1 in
    let ysize := losMapSize.2 + 1 in
    mkDigests (resized (xsize * ysize) 0) (resized (xsize * ysize) 0)
  else dg.

(** [HasHeightMapViewChanged]: the answer and the digests afterwards. *)
Definition HasHeightMapViewChanged (losMapPos : Z * Z) (dg : DigestVectors)
    : option (bool * DigestVectors) :=
  if USE_HEIGHTMAP_DIGESTS then
    let losMapIdx := losMapPos.1 + losMapPos.2 * (los_size.1 + 1) in
    u ← rd (unsyncedHeightMapDigests dg) losMapIdx;
    s ← rd (syncedHeightMapDigests dg) losMapIdx;
    if decide (u ≠ s) then
      un ← wr (unsyncedHeightMapDigests dg) losMapIdx s;
      Some (true, mkDigests (syncedHeightMapDigests dg) un)
    else Some (false, dg)
  else Some (true, dg).

(** The block of [UpdateHeightMapSynced] compiled under
    [USE_HEIGHTMAP_DIGESTS]: the digest of every line-of-sight square of
    [losMapRect], the center rectangle in line-of-sight map space, is
    incremented, as a byte (the overflow is intended). *)
Definition IncrementDigests (losMapRect : SRectangle) (dg : DigestVectors)
    : option DigestVectors :=
  sd ← forM (range_incl (z1 losMapRect) (z2 losMapRect)) (λ lmz sd,
    forM (range_incl (x1 losMapRect) (x2 losMapRect)) (λ lmx sd,
      let losMapIdx := lmx + lmz * (los_size.1 + 1) in
      v ← rd sd losMapIdx;
      wr sd losMapIdx ((v + 1) `mod` 256)) sd)
    (syncedHeightMapDigests dg);
  Some (mkDigests sd (unsyncedHeightMapDigests dg)).
End Digests.

(** ** Consistency of the derived buffers with the corner grid *)

(** The square a cell of one of the normal buffers belongs to: the face
    buffers hold two normals per square. *)
Definition loc_square (b : NBuf) (i : Z) : Z :=
  match b with
  | BFaceS | BFaceU => i `div` 2
  | BCenterS | BCenter2D | BCenterU => i
  end.

Section Consistency.
Context {F : Type} `{Scalar F} `{Consts}.
Variable d : MapDimensions.

(** The center height of square [(x, y)] is the mean of its corners. *)
Definition center_cell_ok (s : CReadMap F) (x y : Z) : Prop :=
  ∃ hTL hTR hBL hBR,
    corner d s x y = Some hTL ∧ corner d s (x + 1) y = Some hTR ∧
    corner d s x (y + 1) = Some hBL ∧
    corner d s (x + 1) (y + 1) = Some hBR ∧
    rd (centerHeightMap s) (y * mapx d + x)
      = Some (mean4 hTL hTR hBL hBR).

(** Square [(x, y)] has the face normals of its two triangles, and its
    center normals are those of their sum. *)
Definition normals_cell_ok (s : CReadMap F) (x y : Z) : Prop :=
  ∃ hTL hTR hBL hBR,
    corner d s x y = Some hTL ∧ corner d s (x + 1) y = Some hTR ∧
    corner d s x (y + 1) = Some hBL ∧
    corner d s (x + 1) (y + 1) = Some hBR ∧
    rd (faceNormalsSynced s) ((y * mapx d + x) * 2)
      = Some (face_TL hTL hTR hBL) ∧
    rd (faceNormalsSynced s) ((y * mapx d + x) * 2 + 1)
      = Some (face_BR hTR hBL hBR) ∧
    rd (centerNormalsSynced s) (y * mapx d + x)
      = Some (Normalize (float3_add (face_TL hTL hTR hBL)
                                    (face_BR hTR hBL hBR))) ∧
    rd (centerNormals2D s) (y * mapx d + x)
      = Some (Normalize2D (float3_add (face_TL hTL hTR hBL)
                                      (face_BR hTR hBL hBR))).

(** The slope of cell [(x, y)] is the one the loop body of
    [UpdateSlopemap] computes from the eight face normals of the cell as
    they are now. *)
Definition slope_cell_ok (s : CReadMap F) (x y : Z) : Prop :=
  ∃ v, slope_writes d (faceNormalsSynced s) y x
         = Some [(y * hmapx d + x, v)] ∧
       rd (slopeMap s) (y * hmapx d + x) = Some v.

Definition center_ok (s : CReadMap F) : Prop :=
  ∀ x y, 0 ≤ x < mapx d → 0 ≤ y < mapy d → center_cell_ok s x y.
Definition normals_ok (s : CReadMap F) : Prop :=
  ∀ x y, 0 ≤ x < mapx d → 0 ≤ y < mapy d → normals_cell_ok s x y.
Definition slopes_ok (s : CReadMap F) : Prop :=
  ∀ x y, 0 ≤ x < hmapx d → 0 ≤ y < hmapy d → slope_cell_ok s x y.

(** Every cell of every mip level is the mean of its block one level up. *)
Definition mips_ok (s : CReadMap F) : Prop :=
  ∀ i x y, 0 ≤ i < numHeightMipMaps - 1 →
    0 ≤ x < Z.shiftr (mapx d) (i + 1) →
    0 ≤ y < Z.shiftr (mapy d) (i + 1) →
    mip_cell_ok d s i x y.

(** The corner grid [hm'] differs from [hm] inside [rect] only. *)
Definition edited_within (rect : SRectangle) (hm hm' : list F) : Prop :=
  length hm' = length hm ∧
  ∀ x y, 0 ≤ x ≤ mapx d → 0 ≤ y ≤ mapy d →
    ¬ (x1 rect ≤ x ≤ x2 rect ∧ z1 rect ≤ y ≤ z2 rect) →
    rd hm' (y * mapxp1 d + x) = rd hm (y * mapxp1 d + x).

(** The states reached when every change of the corner grid is followed
    by the pipeline on a rectangle that covers the change. *)
Inductive reachable_by_edits : CReadMap F → Prop :=
  | edits_init hm s :
      Initialize d hm = Returned s → reachable_by_edits s
  | edits_update s hm rect updated s' :
      reachable_by_edits s →
      edited_within rect (heightMapSynced s) hm →
      UpdateHeightMapSynced d rect (with_heights s hm updated) = Some s' →
      reachable_by_edits s'.
End Consistency.

(** ** Small inputs *)


(** A map of 2x2 squares (nine corners, one type-map cell): a saved game
    whose height map changed before and during the match, and a terrain
    freshly initialised from the same map file. *)
Definition d2 : MapDimensions := {| mapx := 2; mapy := 2 |}.
Definition saved2 : SavedTerrain :=
  mkSaved (replicate 9 0)
          (<[4%nat := 7]> (replicate 9 0))
          (<[5%nat := 12]> (<[4%nat := 7]> (replicate 9 0)))
          [3].
Definition fresh2 : SavedTerrain :=
  mkSaved (replicate 9 0) (replicate 9 0) (replicate 9 0) [0].

(** Digests of a line-of-sight map of 2x2 squares in which the square
    (1, 0) has changed since it was last seen. *)
Definition digests2 : DigestVectors := mkDigests [0; 5; 0; 0] [0; 3; 0; 0].

Section ThreeLevelsMore.
Local Existing Instance three_levels | 0.

(** The 8x8 map after a second run of the pipeline over the whole map. *)
Definition init8_again : CReadMap spec_float :=
  Eval vm_compute in
    default init8 (UpdateHeightMapSynced d8 (mkRect 0 0 8 8) init8).
End ThreeLevelsMore.

(** The [int32_t] a binary32 value is read as through
    [reinterpret_cast<int32_t*>]: sign bit, biased exponent and fraction;
    the quiet NaN stands for every NaN. *)
Definition b32_bits (f : spec_float) : Z :=
  let sign (s : bool) := if s then 2 ^ 31 else 0 in
  let u :=
    match f with
    | S754_zero s => sign s
    | S754_infinity s => sign s + 255 * 2 ^ 23
    | S754_nan => 255 * 2 ^ 23 + 2 ^ 22
    | S754_finite s m e =>
        if Z.pos m <? 2 ^ 23 then sign s + Z.pos m
        else sign s + (e + 150) * 2 ^ 23 + (Z.pos m - 2 ^ 23)
    end in
  if u <? 2 ^ 31 then u else u - 2 ^ 32.

(** ** Binary32 values and the order of [<] *)

Definition b32_is_nan (f : spec_float) : bool :=
  match f with S754_nan => true | _ => false end.

(** The zero of sign [s]. *)
Definition b32_is_zero (s : bool) (f : spec_float) : bool :=
  match f with S754_zero s' => Bool.eqb s s' | _ => false end.

(** Neither a NaN nor an infinity. *)
Definition b32_is_finite (f : spec_float) : bool :=
  match f with S754_zero _ | S754_finite _ _ _ => true | _ => false end.

(** No NaN among the values, and zeros of one sign only. *)
Definition b32_ordered (l : list spec_float) : bool :=
  forallb (λ f, negb (b32_is_nan f)) l &&
  (forallb (λ f, negb (b32_is_zero false f)) l ||
   forallb (λ f, negb (b32_is_zero true f)) l).

(** ** Maps of 3x3 and of 4x4 squares *)

Definition d3 : MapDimensions := {| mapx := 3; mapy := 3 |}.
Definition d4 : MapDimensions := {| mapx := 4; mapy := 4 |}.

(** The corner grid of the 4x4 map with ridges of height [2^64] along the
    corner columns 1 and 3, the other columns at height 0: every square has
    a cliff of height [2^64] between its left and its right corners. *)
Definition ridges4 : list spec_float :=
  mjoin (replicate 5 [b32_of_Z 0; b32_of_Z (2 ^ 64); b32_of_Z 0;
                      b32_of_Z (2 ^ 64); b32_of_Z 0]).

Section ThreeLevelsRidges.
Local Existing Instance three_levels | 0.

(** The 4x4 map initialised with the ridges. *)
Definition ridges_state4 : CReadMap spec_float :=
  Eval vm_compute in
    state_of (Initialize d4 ridges4) (allocate d4 []).
End ThreeLevelsRidges.

(** * Reasoning about the loops *)

Section LoopLemmas.
Context {K S : Type}.
Implicit Types (ks : list K) (body : K → S → option S).

Lemma forM_app ks1 ks2 body s :
  forM (ks1 ++ ks2) body s = forM ks1 body s ≫= forM ks2 body.
Proof.
  revert s; induction ks1 as [|k ks1 IH]; intros s; simpl; [done|].
  destruct (body k s); simpl; auto.
Qed.

Lemma forM_snoc ks k body s :
  forM (ks ++ [k]) body s = forM ks body s ≫= body k.
Proof.
  rewrite forM_app. destruct (forM ks body s) as [s1|]; simpl; [|done].
  by destruct (body k s1).
Qed.

Lemma forM_ext ks body1 body2 s :
  (∀ k s, k ∈ ks → body1 k s = body2 k s) →
  forM ks body1 s = forM ks body2 s.
Proof.
  revert s; induction ks as [|k ks IH]; intros s Hb; simpl; [done|].
  rewrite Hb by left. destruct (body2 k s); simpl; [|done].
  apply IH. intros; apply Hb; by right.
Qed.

(** The invariant rule for a loop that is to run to its end: the invariant
    may mention the iterations already made. *)
Lemma forM_inv (I : list K → S → Prop) ks body s :
  I [] s →
  (∀ done k rest s, ks = done ++ k :: rest → I done s →
     ∃ s', body k s = Some s' ∧ I (done ++ [k]) s') →
  ∃ s', forM ks body s = Some s' ∧ I ks s'.
Proof.
  intros H0 Hstep.
  assert (G : ∀ rest done s, ks = done ++ rest → I done s →
              ∃ s', forM rest body s = Some s' ∧ I ks s').
  { induction rest as [|k rest IH]; intros done s0 Hks HI; simpl.
    - exists s0. rewrite app_nil_r in Hks. by subst.
    - destruct (Hstep done k rest s0 Hks HI) as (s1 & Hb & HI1).
      rewrite Hb; simpl. apply (IH (done ++ [k])); [|done].
      by rewrite <- app_assoc. }
  by apply (G ks []).
Qed.

Lemma forM_inv_simple (I : S → Prop) ks body s :
  I s →
  (∀ k s, k ∈ ks → I s → ∃ s', body k s = Some s' ∧ I s') →
  ∃ s', forM ks body s = Some s' ∧ I s'.
Proof.
  intros H0 Hstep.
  apply (forM_inv (λ _, I)); [done|].
  intros done k rest s0 -> HI. apply Hstep; [|done].
  apply elem_of_app; right; left.
Qed.

(** The invariant rule for a loop known to have run to its end. *)
Lemma forM_preserves (I : S → Prop) ks body s s' :
  forM ks body s = Some s' →
  I s →
  (∀ k s s1, k ∈ ks → I s → body k s = Some s1 → I s1) →
  I s'.
Proof.
  revert s; induction ks as [|k ks IH]; intros s Hrun HI Hstep; simpl in Hrun.
  - by simplify_eq.
  - destruct (body k s) as [s1|] eqn:Hb; simpl in Hrun; [|done].
    apply (IH s1); [done| |].
    + apply (Hstep k s); [left|done|done].
    + intros k' s2 s3 Hin. apply Hstep. by right.
Qed.

Lemma forM_fixed ks body s :
  (∀ k, k ∈ ks → body k s = Some s) → forM ks body s = Some s.
Proof.
  induction ks as [|k ks IH]; intros Hb; simpl; [done|].
  rewrite Hb by left. simpl. apply IH. intros; apply Hb; by right.
Qed.
End LoopLemmas.

Lemma forM_fmap {J K S} (f : J → K) (js : list J) (body : K → S → option S) s :
  forM (f <$> js) body s = forM js (λ j, body (f j)) s.
Proof.
  revert s; induction js as [|j js IH]; intros s; simpl; [done|].
  destruct (body (f j) s); simpl; auto.
Qed.

(** ** Ranges *)

Lemma elem_of_range_incl a b i : i ∈ range_incl a b ↔ a ≤ i ≤ b.
Proof. unfold range_incl. rewrite elem_of_seqZ. lia. Qed.

Lemma elem_of_range_excl a b i : i ∈ range_excl a b ↔ a ≤ i < b.
Proof. unfold range_excl. rewrite elem_of_seqZ. lia. Qed.

Lemma elem_of_range_step w a b i :
  0 < w →
  i ∈ range_step w a b ↔ ∃ k, i = a + w * k ∧ 0 ≤ k ∧ a + w * k < b.
Proof.
  intros Hw. unfold range_step. rewrite list_elem_of_fmap.
  split.
  - intros (k & -> & Hk). apply elem_of_seqZ in Hk. exists k.
    split; [done|]. split; [lia|].
    assert (k + 1 ≤ (b - a + w - 1) `div` w) as Hle by lia.
    assert (w * ((b - a + w - 1) `div` w) ≤ b - a + w - 1)
      by (apply Z.mul_div_le; lia).
    nia.
  - intros (k & -> & Hk0 & Hlt). exists k. split; [done|].
    apply elem_of_seqZ. split; [lia|].
    assert (k + 1 ≤ (b - a + w - 1) `div` w); [|lia].
    apply Z.div_le_lower_bound; lia.
Qed.

Lemma range_excl_split a b c :
  a ≤ b ≤ c → range_excl a c = range_excl a b ++ range_excl b c.
Proof.
  intros Habc. unfold range_excl.
  replace (c - a) with ((b - a) + (c - b)) by lia.
  rewrite seqZ_app by lia. f_equal. f_equal. lia.
Qed.

Lemma range_excl_nil a b : b ≤ a → range_excl a b = [].
Proof.
  intros Hle. unfold range_excl, seqZ.
  replace (Z.to_nat (b - a)) with 0%nat by lia. done.
Qed.

Lemma range_excl_cons a b : a < b → range_excl a b = a :: range_excl (a + 1) b.
Proof.
  intros Hlt. unfold range_excl.
  rewrite (seqZ_cons a (b - a)) by lia. do 2 f_equal; lia.
Qed.

Lemma range_excl_snoc a b :
  a ≤ b → range_excl a (b + 1) = range_excl a b ++ [b].
Proof.
  intros Hle. rewrite (range_excl_split a b (b + 1)) by lia.
  f_equal. rewrite range_excl_cons by lia. by rewrite range_excl_nil by lia.
Qed.

(** ** Reads and writes *)

Lemma rd_Some {A} (buf : list A) i v :
  rd buf i = Some v ↔ 0 ≤ i ∧ buf !! Z.to_nat i = Some v.
Proof.
  unfold rd. case_decide; split; try done.
  - by intros [_ ?].
  - intros [? _]; lia.
Qed.

Lemma rd_in_range {A} (buf : list A) i :
  0 ≤ i < Z.of_nat (length buf) → ∃ v, rd buf i = Some v.
Proof.
  intros Hi. unfold rd. rewrite decide_True by lia.
  destruct (lookup_lt_is_Some_2 buf (Z.to_nat i)) as [v Hv]; [lia|eauto].
Qed.

Lemma rd_lt {A} (buf : list A) i v :
  rd buf i = Some v → 0 ≤ i < Z.of_nat (length buf).
Proof.
  intros [H0 Hl]%rd_Some. apply lookup_lt_Some in Hl. lia.
Qed.

Lemma wr_Some {A} (buf buf' : list A) i v :
  wr buf i v = Some buf' ↔
  0 ≤ i < Z.of_nat (length buf) ∧ buf' = <[Z.to_nat i := v]> buf.
Proof.
  unfold wr. case_decide; split.
  - intros [= <-]. done.
  - by intros [_ ->].
  - done.
  - intros [? _]; lia.
Qed.

Lemma wr_in_range {A} (buf : list A) i v :
  0 ≤ i < Z.of_nat (length buf) → wr buf i v = Some (<[Z.to_nat i := v]> buf).
Proof. intros Hi. unfold wr. by rewrite decide_True. Qed.

Lemma wr_length {A} (buf buf' : list A) i v :
  wr buf i v = Some buf' → length buf' = length buf.
Proof. intros [_ ->]%wr_Some. apply length_insert. Qed.

Lemma rd_wr_eq {A} (buf buf' : list A) i v :
  wr buf i v = Some buf' → rd buf' i = Some v.
Proof.
  intros [Hi ->]%wr_Some. apply rd_Some. split; [lia|].
  apply list_lookup_insert_eq. lia.
Qed.

Lemma rd_wr_ne {A} (buf buf' : list A) i j v :
  wr buf i v = Some buf' → i ≠ j → rd buf' j = rd buf j.
Proof.
  intros [Hi ->]%wr_Some Hne. unfold rd. case_decide; [|done].
  apply list_lookup_insert_ne. lia.
Qed.

Lemma wr_same {A} (buf : list A) i v :
  rd buf i = Some v → wr buf i v = Some buf.
Proof.
  intros Hr. pose proof (rd_lt _ _ _ Hr). apply rd_Some in Hr as [_ Hr].
  rewrite wr_in_range by done. f_equal. by apply list_insert_id.
Qed.

Lemma wr_Forall {A} (P : A → Prop) (buf buf' : list A) i v :
  wr buf i v = Some buf' → P v → Forall P buf → Forall P buf'.
Proof.
  intros [Hi ->]%wr_Some Hv HP. apply Forall_insert; done.
Qed.

Lemma rd_Forall {A} (P : A → Prop) (buf : list A) i v :
  rd buf i = Some v → Forall P buf → P v.
Proof.
  intros [_ Hl]%rd_Some HP. by eapply Forall_lookup_1.
Qed.

(** ** Loops made of single writes run twice *)

Section Writes.
Context {S Act : Type} (app : Act → S → option S).
Hypothesis app_again : ∀ a s s', app a s = Some s' → app a s' = Some s'.
Hypothesis app_pair : ∀ a b,
  (∀ s, app a s ≫= app b = app b s ≫= app a) ∨
  (∀ s, app a s ≫= app b = app b s).

(** A write made before a run and again after it may be dropped before. *)
Lemma run_absorbs acts a s :
  (app a s ≫= forM acts app) ≫= app a = forM acts app s ≫= app a.
Proof.
  revert s; induction acts as [|b acts IH]; intros s; simpl.
  - destruct (app a s) as [s1|] eqn:Ha; simpl; [|done].
    by apply (app_again a s).
  - destruct (app_pair a b) as [Hc|Hd].
    + transitivity (((app b s ≫= app a) ≫= forM acts app) ≫= app a).
      { rewrite <- Hc. by destruct (app a s). }
      destruct (app b s) as [s1|]; simpl; [|done].
      rewrite <- IH. by destruct (app a s1).
    + rewrite <- Hd. by destruct (app a s).
Qed.

Lemma run_again acts s s' :
  forM acts app s = Some s' → forM acts app s' = Some s'.
Proof.
  revert s'; induction acts as [|a acts IH] using rev_ind; intros s' Hrun.
  - done.
  - rewrite forM_snoc in Hrun |- *.
    destruct (forM acts app s) as [s1|] eqn:H1; simpl in Hrun; [|done].
    pose proof (run_absorbs acts a s1) as Habs.
    rewrite Hrun in Habs; simpl in Habs. rewrite Habs.
    rewrite (IH s1 eq_refl). done.
Qed.

(** A loop whose body collects writes and performs them is the run of all
    the writes collected. *)
Lemma forM_collect {K} (g : K → option (list Act))
    (body : K → S → option S) ks s :
  (∀ k s, body k s = acts ← g k; forM acts app s) →
  forM ks body s = ass ← mapM g ks; forM (mjoin ass) app s.
Proof.
  intros Hb. revert s; induction ks as [|k ks IH]; intros s; simpl; [done|].
  rewrite Hb. destruct (g k) as [acts|]; simpl; [|done].
  destruct (mapM g ks) as [ass|] eqn:Hm; simpl.
  - rewrite forM_app. destruct (forM acts app s) as [s1|]; simpl; [|done].
    rewrite IH. done.
  - destruct (forM acts app s) as [s1|]; simpl; [|done].
    rewrite IH. done.
Qed.

Lemma forM_collect_again {K} (g : K → option (list Act))
    (body : K → S → option S) ks s s' :
  (∀ k s, body k s = acts ← g k; forM acts app s) →
  forM ks body s = Some s' → forM ks body s' = Some s'.
Proof.
  intros Hb. rewrite !(forM_collect g) by done.
  destruct (mapM g ks) as [ass|]; simpl; [|done].
  apply run_again.
Qed.

(** The same for a loop nest, rows outside and columns inside. *)
Lemma forM2_collect_again {K1 K2} (g : K1 → K2 → option (list Act))
    (body : K1 → K2 → S → option S) ys xs s s' :
  (∀ y x s, body y x s = acts ← g y x; forM acts app s) →
  forM ys (λ y s, forM xs (body y) s) s = Some s' →
  forM ys (λ y s, forM xs (body y) s) s' = Some s'.
Proof.
  intros Hb.
  apply (forM_collect_again (λ y, ass ← mapM (g y) xs; Some (mjoin ass))).
  intros y s0. rewrite (forM_collect (g y)) by (intros; apply Hb).
  by destruct (mapM (g y) xs).
Qed.
End Writes.

(** The two kinds of writes satisfy the hypotheses. *)

Lemma wr_act_again {A} (a : Z * A) (t t' : list A) :
  wr_act a t = Some t' → wr_act a t' = Some t'.
Proof.
  unfold wr_act. intros Hw. apply wr_same. by eapply rd_wr_eq.
Qed.

Lemma wr_act_pair {A} (a b : Z * A) :
  (∀ t, wr_act a t ≫= wr_act b = wr_act b t ≫= wr_act a) ∨
  (∀ t, wr_act a t ≫= wr_act b = wr_act b t).
Proof.
  destruct a as [i v], b as [j w]. unfold wr_act; simpl.
  destruct (decide (i = j)) as [->|Hne]; [right|left]; intros t.
  - unfold wr. case_decide as Hr; simpl; [|done].
    rewrite length_insert. rewrite decide_True by done.
    by rewrite list_insert_insert_eq.
  - unfold wr. destruct (decide (0 ≤ i < Z.of_nat (length t))) as [Hi|Hi];
      destruct (decide (0 ≤ j < Z.of_nat (length t))) as [Hj|Hj]; simpl;
      rewrite ?length_insert, ?decide_True, ?decide_False by done; try done.
    f_equal. apply list_insert_insert_ne. lia.
Qed.

Lemma nget_nset_eq {F} b l (n : Normals F) : nget b (nset b l n) = l.
Proof. by destruct b. Qed.

Lemma nget_nset_ne {F} b b' l (n : Normals F) :
  b ≠ b' → nget b' (nset b l n) = nget b' n.
Proof. by destruct b, b'. Qed.

Lemma nset_nset_eq {F} b l l' (n : Normals F) :
  nset b l (nset b l' n) = nset b l n.
Proof. by destruct b. Qed.

Lemma nset_nset_ne {F} b b' l l' (n : Normals F) :
  b ≠ b' → nset b l (nset b' l' n) = nset b' l' (nset b l n).
Proof. by destruct b, b'. Qed.

Lemma nset_nget {F} b (n : Normals F) : nset b (nget b n) n = n.
Proof. by destruct b, n. Qed.

Lemma napp_again {F} (a : NAct F) n n' :
  napp a n = Some n' → napp a n' = Some n'.
Proof.
  unfold napp. intros Hw.
  destruct (wr (nget (aBuf a) n) (aIdx a) (aVal a)) as [l|] eqn:E;
    simpl in Hw; [|done].
  injection Hw as <-. rewrite nget_nset_eq.
  rewrite (wr_same l _ _ (rd_wr_eq _ _ _ _ E)). simpl.
  by rewrite nset_nset_eq.
Qed.

Lemma napp_pair {F} (a b : NAct F) :
  (∀ n, napp a n ≫= napp b = napp b n ≫= napp a) ∨
  (∀ n, napp a n ≫= napp b = napp b n).
Proof.
  destruct a as [ba i v], b as [bb j w]. unfold napp; simpl.
  destruct (decide (ba = bb)) as [<-|Hne].
  - destruct (wr_act_pair (i, v) (j, w)) as [Hc|Hd]; [left|right];
      intros n; unfold wr_act in *; simpl in *.
    + specialize (Hc (nget ba n)).
      destruct (wr (nget ba n) i v) as [l1|], (wr (nget ba n) j w) as [l2|];
        simpl in *; rewrite ?nget_nset_eq;
        try (destruct (wr l1 j w); simpl in *);
        try (destruct (wr l2 i v); simpl in *);
        simplify_eq; rewrite ?nset_nset_eq; done.
    + specialize (Hd (nget ba n)).
      destruct (wr (nget ba n) i v) as [l1|], (wr (nget ba n) j w) as [l2|];
        simpl in *; rewrite ?nget_nset_eq;
        try (destruct (wr l1 j w); simpl in *);
        simplify_eq; rewrite ?nset_nset_eq; done.
  - left. intros n.
    destruct (wr (nget ba n) i v) as [l1|] eqn:E1,
             (wr (nget bb n) j w) as [l2|] eqn:E2; simpl;
      rewrite ?nget_nset_ne by done; rewrite ?E1, ?E2; simpl; try done.
    f_equal. by apply nset_nset_ne.
Qed.

(** ** The loop bodies collect their writes *)

Ltac split_reads :=
  repeat match goal with
         | |- context [rd ?b ?i] => destruct (rd b i); simpl; [|done]
         end.

Section Collects.
Context {F : Type} `{Scalar F} `{Consts}.
Variable mapDims : MapDimensions.

Lemma center_collects hm y x (s : list F) :
  (let idxTL := (y + 0) * mapxp1 mapDims + x + 0 in
   let idxTR := (y + 0) * mapxp1 mapDims + x + 1 in
   let idxBL := (y + 1) * mapxp1 mapDims + x + 0 in
   let idxBR := (y + 1) * mapxp1 mapDims + x + 1 in
   hTL ← rd hm idxTL;
   hTR ← rd hm idxTR;
   hBL ← rd hm idxBL;
   hBR ← rd hm idxBR;
   let height := fadd (fadd (fadd hTL hTR) hBL) hBR in
   wr s (y * mapx mapDims + x) (fmul height f_quarter)) =
  acts ← center_writes mapDims hm y x; forM acts wr_act s.
Proof.
  unfold center_writes. simpl. split_reads.
  unfold wr_act, mean4; simpl. by destruct (wr s _ _).
Qed.

Lemma mip_collects i top y x (s : list F) :
  (let hmapx := Z.shiftr (mapx mapDims) i in
   h0 ← rd top (x + y * hmapx);
   h1 ← rd top (x + (y + 1) * hmapx);
   h2 ← rd top ((x + 1) + y * hmapx);
   h3 ← rd top ((x + 1) + (y + 1) * hmapx);
   let height := fadd (fadd (fadd h0 h1) h2) h3 in
   wr s (Z.quot x 2 + Z.quot (Z.quot y 2 * hmapx) 2)
      (fmul height f_quarter)) =
  acts ← mip_writes mapDims i top y x; forM acts wr_act s.
Proof.
  unfold mip_writes. simpl. split_reads.
  unfold wr_act, mean4; simpl. by destruct (wr s _ _).
Qed.

Lemma slope_collects fn y x (s : list F) :
  (let idx0 := (y * 2) * mapx mapDims + x * 2 in
   let idx1 := (y * 2 + 1) * mapx mapDims + x * 2 in
   n0 ← rd fn (idx0 * 2);
   n1 ← rd fn (idx0 * 2 + 1);
   n2 ← rd fn ((idx0 + 1) * 2);
   n3 ← rd fn ((idx0 + 1) * 2 + 1);
   n4 ← rd fn (idx1 * 2);
   n5 ← rd fn (idx1 * 2 + 1);
   n6 ← rd fn ((idx1 + 1) * 2);
   n7 ← rd fn ((idx1 + 1) * 2 + 1);
   wr s (y * hmapx mapDims + x)
      (slope_of (fy n0) (fy n1) (fy n2) (fy n3)
                (fy n4) (fy n5) (fy n6) (fy n7))) =
  acts ← slope_writes mapDims fn y x; forM acts wr_act s.
Proof.
  unfold slope_writes. simpl. split_reads.
  unfold wr_act; simpl. by destruct (wr s _ _).
Qed.

Lemma face_collects init hm y x (n : Normals F) :
  (let idxTL := y * mapxp1 mapDims + x in
   let idxBL := (y + 1) * mapxp1 mapDims + x in
   hTL ← rd hm idxTL;
   hTR ← rd hm (idxTL + 1);
   hBL ← rd hm idxBL;
   hBR ← rd hm (idxBL + 1);
   let fnTL := Normalize (mkFloat3 (fneg (fsub hTR hTL))
                                   (f_of_Z SQUARE_SIZE)
                                   (fneg (fsub hBL hTL))) in
   let fnBR := Normalize (mkFloat3 (fsub hBL hBR)
                                   (f_of_Z SQUARE_SIZE)
                                   (fsub hTR hBR)) in
   let sq := y * mapx mapDims + x in
   fS ← wr (nFaceS n) (sq * 2) fnTL;
   fS ← wr fS (sq * 2 + 1) fnBR;
   cS ← wr (nCenterS n) sq (Normalize (float3_add fnTL fnBR));
   c2 ← wr (nCenter2D n) sq (Normalize2D (float3_add fnTL fnBR));
   if USE_UNSYNCED_HEIGHTMAP && init then
     a ← rd fS (sq * 2);
     fU ← wr (nFaceU n) (sq * 2) a;
     b ← rd fS (sq * 2 + 1);
     fU ← wr fU (sq * 2 + 1) b;
     c ← rd cS sq;
     cU ← wr (nCenterU n) sq c;
     Some (mkNormals fS cS c2 fU cU)
   else
     Some (mkNormals fS cS c2 (nFaceU n) (nCenterU n))) =
  acts ← face_writes mapDims init hm y x; forM acts napp n.
Proof.
  destruct n as [b1 b2 b3 b4 b5].
  unfold face_writes, face_TL, face_BR. simpl. split_reads.
  unfold napp; simpl.
  destruct (wr b1 _ _) as [l1|] eqn:E1; simpl; [|done].
  destruct (wr l1 _ _) as [l2|] eqn:E2; simpl; [|done].
  destruct (wr b2 _ _) as [l3|] eqn:E3; simpl; [|done].
  destruct (wr b3 _ _) as [l4|] eqn:E4; simpl; [|done].
  destruct (USE_UNSYNCED_HEIGHTMAP && init); simpl; [|done].
  rewrite (rd_wr_ne l1 l2 _ ((y * mapx mapDims + x) * 2) _ E2) by lia.
  rewrite (rd_wr_eq _ _ _ _ E1); simpl.
  destruct (wr b4 _ _) as [l5|] eqn:E5; simpl; [|done].
  rewrite (rd_wr_eq _ _ _ _ E2); simpl.
  destruct (wr l5 _ _) as [l6|] eqn:E6; simpl; [|done].
  rewrite (rd_wr_eq _ _ _ _ E3); simpl.
  by destruct (wr b5 _ _).
Qed.
End Collects.

(** ** Each derivation step run twice *)

Section StepsAgain.
Context {F : Type} `{Scalar F} `{Consts}.
Variable mapDims : MapDimensions.

Lemma UpdateCenterHeightmap_again rect hm c c' :
  UpdateCenterHeightmap mapDims rect hm c = Some c' →
  UpdateCenterHeightmap mapDims rect hm c' = Some c'.
Proof.
  apply (forM2_collect_again wr_act (@wr_act_again F) (@wr_act_pair F)
           (center_writes mapDims hm)).
  intros. apply center_collects.
Qed.

Lemma UpdateMipLevel_again rect i top sub sub' :
  UpdateMipLevel mapDims rect i top sub = Some sub' →
  UpdateMipLevel mapDims rect i top sub' = Some sub'.
Proof.
  apply (forM2_collect_again wr_act (@wr_act_again F) (@wr_act_pair F)
           (mip_writes mapDims i top)).
  intros. apply mip_collects.
Qed.

Lemma UpdateSlopemap_again rect fn sm sm' :
  UpdateSlopemap mapDims rect fn sm = Some sm' →
  UpdateSlopemap mapDims rect fn sm' = Some sm'.
Proof.
  apply (forM2_collect_again wr_act (@wr_act_again F) (@wr_act_pair F)
           (slope_writes mapDims fn)).
  intros. apply slope_collects.
Qed.

Lemma UpdateFaceNormals_again rect init hm n n' :
  UpdateFaceNormals mapDims rect init hm n = Some n' →
  UpdateFaceNormals mapDims rect init hm n' = Some n'.
Proof.
  apply (forM2_collect_again napp (@napp_again F) (@napp_pair F)
           (face_writes mapDims init hm)).
  intros. apply face_collects.
Qed.

(** A mip level reads the level above it and writes itself only. *)
Lemma mip_level_fixed_frame rect c (m m' : list (list F)) i j v :
  i ≠ j → i - 1 ≠ j →
  (top ← mipPointer c m i; sub ← mipPointer c m (i + 1);
   sub' ← UpdateMipLevel mapDims rect i top sub; wr m i sub') = Some m →
  wr m j v = Some m' →
  (top ← mipPointer c m' i; sub ← mipPointer c m' (i + 1);
   sub' ← UpdateMipLevel mapDims rect i top sub; wr m' i sub') = Some m'.
Proof.
  intros Hij Hij' Hfix Hw.
  assert (Htop : mipPointer c m' i = mipPointer c m i).
  { unfold mipPointer. case_decide; [done|]. by apply (rd_wr_ne _ _ _ _ _ Hw). }
  assert (Hsub : mipPointer c m' (i + 1) = mipPointer c m (i + 1)).
  { unfold mipPointer. case_decide; [done|].
    apply (rd_wr_ne _ _ _ _ _ Hw). lia. }
  rewrite Htop, Hsub.
  destruct (mipPointer c m i) as [top|]; simpl in *; [|done].
  destruct (mipPointer c m (i + 1)) as [sub|]; simpl in *; [|done].
  destruct (UpdateMipLevel mapDims rect i top sub) as [sub'|]; simpl in *; [|done].
  apply wr_same. rewrite (rd_wr_ne _ _ _ _ _ Hw) by done.
  by apply (rd_wr_eq _ _ _ _ Hfix).
Qed.

Lemma mip_levels_fixed rect c n (m m' : list (list F)) :
  0 ≤ n →
  forM (range_excl 0 n) (λ i mips,
    topMipMap ← mipPointer c mips i;
    subMipMap ← mipPointer c mips (i + 1);
    sub' ← UpdateMipLevel mapDims rect i topMipMap subMipMap;
    wr mips i sub') m = Some m' →
  ∀ i, 0 ≤ i < n →
    (top ← mipPointer c m' i; sub ← mipPointer c m' (i + 1);
     sub' ← UpdateMipLevel mapDims rect i top sub; wr m' i sub') = Some m'.
Proof.
  intros Hn. revert m'. pattern n. apply natlike_ind; [| |done].
  - intros; lia.
  - clear n Hn. intros n Hn IH m' Hrun i Hi.
    unfold Z.succ in Hrun. rewrite range_excl_snoc, forM_snoc in Hrun by done.
    destruct (forM (range_excl 0 n) _ m) as [m1|] eqn:H1; simpl in Hrun; [|done].
    specialize (IH m1 eq_refl).
    destruct (mipPointer c m1 n) as [top|] eqn:Et; simpl in Hrun; [|done].
    destruct (mipPointer c m1 (n + 1)) as [sub|] eqn:Es; simpl in Hrun; [|done].
    destruct (UpdateMipLevel mapDims rect n top sub) as [sub'|] eqn:Eu;
      simpl in Hrun; [|done].
    destruct (decide (i = n)) as [->|Hne].
    + assert (Htop : mipPointer c m' n = Some top).
      { rewrite <- Et. unfold mipPointer. case_decide; [done|].
        apply (rd_wr_ne _ _ _ _ _ Hrun). lia. }
      assert (Hsub : mipPointer c m' (n + 1) = Some sub').
      { unfold mipPointer. rewrite decide_False by lia.
        replace (n + 1 - 1) with n by lia. by apply (rd_wr_eq _ _ _ _ Hrun). }
      rewrite Htop, Hsub; simpl.
      rewrite (UpdateMipLevel_again _ _ _ _ _ Eu); simpl.
      apply wr_same. by apply (rd_wr_eq _ _ _ _ Hrun).
    + apply (mip_level_fixed_frame rect c m1 m' i n sub'); [done|lia| |done].
      apply IH. lia.
Qed.

Lemma UpdateMipHeightmaps_again rect c m m' :
  UpdateMipHeightmaps mapDims rect c m = Some m' →
  UpdateMipHeightmaps mapDims rect c m' = Some m'.
Proof.
  unfold UpdateMipHeightmaps. intros Hrun.
  destruct (decide (0 ≤ numHeightMipMaps - 1)) as [Hn|Hn].
  - apply forM_fixed. intros i Hi%elem_of_range_excl.
    by apply (mip_levels_fixed rect c _ m m' Hn Hrun).
  - rewrite range_excl_nil in Hrun |- * by lia. simpl in *. done.
Qed.

(** The whole pipeline run a second time on the same rectangle. *)
Lemma pipeline_again rect (s s1 : CReadMap F) :
  UpdateHeightMapSynced mapDims rect s = Some s1 →
  ∃ s2, UpdateHeightMapSynced mapDims rect s1 = Some s2 ∧ same_derived s1 s2.
Proof.
  unfold UpdateHeightMapSynced. intros Hrun.
  destruct (UpdateCenterHeightmap _ _ _ _) as [c|] eqn:Ec; simpl in Hrun; [|done].
  destruct (UpdateMipHeightmaps _ _ _ _) as [m|] eqn:Em; simpl in Hrun; [|done].
  destruct (UpdateFaceNormals _ _ _ _ _) as [n|] eqn:En; simpl in Hrun; [|done].
  destruct (UpdateSlopemap _ _ _ _) as [sm|] eqn:Es; simpl in Hrun; [|done].
  injection Hrun as <-. simpl.
  rewrite (UpdateCenterHeightmap_again _ _ _ _ Ec); simpl.
  rewrite (UpdateMipHeightmaps_again _ _ _ _ Em); simpl.
  replace (mkNormals (nFaceS n) (nCenterS n) (nCenter2D n) (nFaceU n) (nCenterU n))
    with n by (by destruct n).
  rewrite (UpdateFaceNormals_again _ _ _ _ _ En); simpl.
  rewrite (UpdateSlopemap_again _ _ _ _ Es); simpl.
  eexists; split; [done|]. by repeat split.
Qed.
End StepsAgain.

(** ** What a run of single writes leaves in the cells *)

Section Locs.
Context {S Act L V : Type} `{EqDecision L}.
Context (app : Act → S → option S) (get : S → L → option V).
Context (loc : Act → L) (val : Act → V).
Hypothesis app_set : ∀ a s s', app a s = Some s' → get s' (loc a) = Some (val a).
Hypothesis app_frame : ∀ a s s' l,
  app a s = Some s' → l ≠ loc a → get s' l = get s l.
Hypothesis app_defined : ∀ a s, is_Some (get s (loc a)) → is_Some (app a s).
Hypothesis app_dom : ∀ a s s', app a s = Some s' → is_Some (get s (loc a)).

Lemma app_keeps_dom a s s' l :
  app a s = Some s' → is_Some (get s' l) ↔ is_Some (get s l).
Proof.
  intros Ha. destruct (decide (l = loc a)) as [->|Hne].
  - rewrite (app_set _ _ _ Ha). split; [|by eauto]. intros _. by eapply app_dom.
  - by rewrite (app_frame _ _ _ _ Ha Hne).
Qed.

Lemma run_keeps_dom acts s s' l :
  forM acts app s = Some s' → is_Some (get s' l) ↔ is_Some (get s l).
Proof.
  revert s; induction acts as [|a acts IH]; intros s Hrun; simpl in Hrun.
  - by simplify_eq.
  - destruct (app a s) as [s1|] eqn:Ha; simpl in Hrun; [|done].
    rewrite (IH _ Hrun). by apply (app_keeps_dom a).
Qed.

Lemma run_total acts s :
  (∀ a, a ∈ acts → is_Some (get s (loc a))) →
  ∃ s', forM acts app s = Some s'.
Proof.
  revert s; induction acts as [|a acts IH]; intros s Hdom; simpl; [eauto|].
  destruct (app_defined a s) as [s1 Ha]; [apply Hdom; left|].
  rewrite Ha; simpl. apply IH. intros b Hb.
  apply (app_keeps_dom _ _ _ _ Ha). apply Hdom. by right.
Qed.

(** A cell written with one value only holds that value in the end. *)
Lemma run_written acts s s' a :
  forM acts app s = Some s' →
  a ∈ acts →
  (∀ b, b ∈ acts → loc b = loc a → val b = val a) →
  get s' (loc a) = Some (val a).
Proof.
  revert s'; induction acts as [|b acts IH] using rev_ind;
    intros s' Hrun Hin Huniq.
  - by apply elem_of_nil in Hin.
  - rewrite forM_snoc in Hrun.
    destruct (forM acts app s) as [s1|] eqn:H1; simpl in Hrun; [|done].
    destruct (decide (loc a = loc b)) as [Heq|Hne].
    + rewrite Heq, (app_set _ _ _ Hrun). f_equal.
      apply Huniq; [|done]. apply elem_of_app; right; left.
    + rewrite (app_frame _ _ _ _ Hrun Hne).
      apply IH; [done| |].
      * apply elem_of_app in Hin as [Hin|Hin]; [done|].
        apply list_elem_of_singleton in Hin. by subst.
      * intros c Hc. apply Huniq. apply elem_of_app; by left.
Qed.

(** Every cell holds what it held before or a value written to it. *)
Lemma run_provenance acts s s' l u :
  forM acts app s = Some s' →
  get s' l = Some u →
  (∃ a, a ∈ acts ∧ loc a = l ∧ val a = u) ∨
  (get s l = Some u ∧ ∀ a, a ∈ acts → loc a ≠ l).
Proof.
  revert s' u; induction acts as [|b acts IH] using rev_ind;
    intros s' u Hrun Hget.
  - simpl in Hrun. simplify_eq. right. split; [done|].
    intros a Ha. by apply elem_of_nil in Ha.
  - rewrite forM_snoc in Hrun.
    destruct (forM acts app s) as [s1|] eqn:H1; simpl in Hrun; [|done].
    destruct (decide (l = loc b)) as [->|Hne].
    + rewrite (app_set _ _ _ Hrun) in Hget. simplify_eq.
      left. exists b. split; [|done]. apply elem_of_app; right; left.
    + rewrite (app_frame _ _ _ _ Hrun Hne) in Hget.
      destruct (IH s1 u eq_refl Hget) as [(a & Ha & Hl & Hv)|[Hs Hno]].
      * left. exists a. split; [|done]. apply elem_of_app; by left.
      * right. split; [done|]. intros a [Ha|Ha]%elem_of_app; [by apply Hno|].
        apply list_elem_of_singleton in Ha. by subst.
Qed.

(** The same facts for a loop nest whose body collects its writes. *)
Section Nest.
Context {K1 K2 : Type}.
Variable g : K1 → K2 → option (list Act).
Variable body : K1 → K2 → S → option S.
Variables (ys : list K1) (xs : list K2).
Hypothesis body_collects :
  ∀ y x s, body y x s = acts ← g y x; forM acts app s.

Lemma nest_as_run s :
  forM ys (λ y s, forM xs (body y) s) s =
  ass ← mapM (λ y, ass ← mapM (g y) xs; Some (mjoin ass)) ys;
  forM (mjoin ass) app s.
Proof.
  apply forM_collect. intros y s0.
  rewrite (forM_collect app (g y)) by (intros; apply body_collects).
  by destruct (mapM (g y) xs).
Qed.

Lemma nest_writes_concat (ass : list (list Act)) a :
  mapM (λ y, row ← mapM (g y) xs; Some (mjoin (row : list (list Act)))) ys
    = Some ass →
  a ∈ mjoin ass ↔ nest_writes g ys xs a.
Proof.
  intros Hm. apply mapM_Some in Hm.
  unfold nest_writes. split.
  - intros (acts & Ha & Hacts)%list_elem_of_join.
    apply list_elem_of_lookup in Hacts as [i Hi].
    destruct (Forall2_lookup_r _ _ _ _ _ Hm Hi) as (y & Hy & Hgy).
    destruct (mapM (g y) xs) as [ass'|] eqn:Hm'; simpl in Hgy; [|done].
    simplify_eq. apply mapM_Some in Hm'.
    apply list_elem_of_join in Ha as (acts' & Ha & Hacts').
    apply list_elem_of_lookup in Hacts' as [j Hj].
    destruct (Forall2_lookup_r _ _ _ _ _ Hm' Hj) as (x & Hx & Hgx).
    exists y, x, acts'. repeat split; try done.
    + apply list_elem_of_lookup; eauto.
    + apply list_elem_of_lookup; eauto.
  - intros (y & x & acts & Hy & Hx & Hg & Ha).
    apply list_elem_of_lookup in Hy as [i Hi].
    destruct (Forall2_lookup_l _ _ _ _ _ Hm Hi) as (row & Hrow & Hgy).
    destruct (mapM (g y) xs) as [ass'|] eqn:Hm'; simpl in Hgy; [|done].
    simplify_eq. apply mapM_Some in Hm'.
    apply list_elem_of_lookup in Hx as [j Hj].
    destruct (Forall2_lookup_l _ _ _ _ _ Hm' Hj) as (acts' & Hacts' & Hgx).
    simplify_eq.
    apply list_elem_of_join. exists (mjoin ass'). split.
    + apply list_elem_of_join. exists acts. split; [done|].
      apply list_elem_of_lookup; eauto.
    + apply list_elem_of_lookup; eauto.
Qed.

Lemma nest_total s :
  (∀ y x, y ∈ ys → x ∈ xs →
     ∃ acts, g y x = Some acts ∧
             ∀ a, a ∈ acts → is_Some (get s (loc a))) →
  ∃ s', forM ys (λ y s, forM xs (body y) s) s = Some s'.
Proof.
  intros Hok. rewrite nest_as_run.
  destruct (mapM (λ y, ass ← mapM (g y) xs; Some (mjoin ass)) ys)
    as [ass|] eqn:Hm; simpl.
  - apply run_total. intros a Ha.
    apply (nest_writes_concat _ _ Hm) in Ha
      as (y & x & acts & Hy & Hx & Hg & Ha).
    destruct (Hok y x Hy Hx) as (acts' & Hg' & Hdom). simplify_eq. eauto.
  - exfalso. apply mapM_None in Hm.
    apply Exists_exists in Hm as (y & Hy & Hnone).
    destruct (mapM (g y) xs) as [ass'|] eqn:Hm'; simpl in Hnone; [done|].
    apply mapM_None in Hm'.
    apply Exists_exists in Hm' as (x & Hx & Hnone').
    destruct (Hok y x Hy Hx) as (acts & Hg & _). congruence.
Qed.

Lemma nest_reads s s' y x :
  forM ys (λ y s, forM xs (body y) s) s = Some s' →
  y ∈ ys → x ∈ xs → is_Some (g y x).
Proof.
  rewrite nest_as_run. intros Hrun Hy Hx.
  destruct (mapM (λ y, ass ← mapM (g y) xs; Some (mjoin ass)) ys)
    as [ass|] eqn:Hm; simpl in Hrun; [|done].
  apply mapM_Some in Hm.
  apply list_elem_of_lookup in Hy as [i Hi].
  destruct (Forall2_lookup_l _ _ _ _ _ Hm Hi) as (row & Hrow & Hgy).
  destruct (mapM (g y) xs) as [ass'|] eqn:Hm'; simpl in Hgy; [|done].
  apply mapM_Some in Hm'.
  apply list_elem_of_lookup in Hx as [j Hj].
  destruct (Forall2_lookup_l _ _ _ _ _ Hm' Hj) as (acts' & Hacts' & Hgx).
  eauto.
Qed.

Lemma nest_written s s' a :
  forM ys (λ y s, forM xs (body y) s) s = Some s' →
  nest_writes g ys xs a →
  (∀ b, nest_writes g ys xs b → loc b = loc a → val b = val a) →
  get s' (loc a) = Some (val a).
Proof.
  rewrite nest_as_run. intros Hrun Ha Huniq.
  destruct (mapM (λ y, ass ← mapM (g y) xs; Some (mjoin ass)) ys)
    as [ass|] eqn:Hm; simpl in Hrun; [|done].
  apply (run_written _ _ _ _ Hrun).
  - by apply (nest_writes_concat _ _ Hm).
  - intros b Hb. apply Huniq. by apply (nest_writes_concat _ _ Hm).
Qed.

Lemma nest_provenance s s' l u :
  forM ys (λ y s, forM xs (body y) s) s = Some s' →
  get s' l = Some u →
  (∃ a, nest_writes g ys xs a ∧ loc a = l ∧ val a = u) ∨
  (get s l = Some u ∧ ∀ a, nest_writes g ys xs a → loc a ≠ l).
Proof.
  rewrite nest_as_run. intros Hrun Hget.
  destruct (mapM (λ y, ass ← mapM (g y) xs; Some (mjoin ass)) ys)
    as [ass|] eqn:Hm; simpl in Hrun; [|done].
  destruct (run_provenance _ _ _ _ _ Hrun Hget) as [(a & Ha & Hl)|[Hs Hno]].
  - left. exists a. split; [|done]. by apply (nest_writes_concat _ _ Hm).
  - right. split; [done|]. intros a Ha. apply Hno.
    by apply (nest_writes_concat _ _ Hm).
Qed.

Lemma nest_keeps_dom s s' l :
  forM ys (λ y s, forM xs (body y) s) s = Some s' →
  is_Some (get s' l) ↔ is_Some (get s l).
Proof.
  rewrite nest_as_run. intros Hrun.
  destruct (mapM (λ y, ass ← mapM (g y) xs; Some (mjoin ass)) ys)
    as [ass|] eqn:Hm; simpl in Hrun; [|done].
  by apply (run_keeps_dom _ _ _ _ Hrun).
Qed.
End Nest.
End Locs.

(** ** The two kinds of writes, cell by cell *)

Lemma wr_act_set {A} (a : Z * A) t t' :
  wr_act a t = Some t' → rd t' (a.1) = Some (a.2).
Proof. apply rd_wr_eq. Qed.

Lemma wr_act_frame {A} (a : Z * A) t t' l :
  wr_act a t = Some t' → l ≠ a.1 → rd t' l = rd t l.
Proof. intros Hw Hne. by apply (rd_wr_ne _ _ _ _ _ Hw). Qed.

Lemma wr_act_defined {A} (a : Z * A) t :
  is_Some (rd t (a.1)) → is_Some (wr_act a t).
Proof.
  intros [v Hv]. unfold wr_act. rewrite wr_in_range; [eauto|].
  by eapply rd_lt.
Qed.

Lemma wr_act_dom {A} (a : Z * A) t t' :
  wr_act a t = Some t' → is_Some (rd t (a.1)).
Proof. intros [Hi _]%wr_Some. by apply rd_in_range. Qed.

Lemma napp_set {F} (a : NAct F) n n' :
  napp a n = Some n' → nrd n' (nloc a) = Some (aVal a).
Proof.
  unfold napp, nrd, nloc; simpl. intros Hw.
  destruct (wr _ _ _) as [l|] eqn:E; simpl in Hw; [|done].
  injection Hw as <-. rewrite nget_nset_eq. by apply (rd_wr_eq _ _ _ _ E).
Qed.

Lemma napp_frame {F} (a : NAct F) n n' l :
  napp a n = Some n' → l ≠ nloc a → nrd n' l = nrd n l.
Proof.
  unfold napp, nrd, nloc; simpl. intros Hw Hne.
  destruct (wr _ _ _) as [b|] eqn:E; simpl in Hw; [|done].
  injection Hw as <-. destruct l as [lb li]; simpl.
  destruct (decide (aBuf a = lb)) as [<-|Hb].
  - rewrite nget_nset_eq. apply (rd_wr_ne _ _ _ _ _ E). congruence.
  - by rewrite nget_nset_ne.
Qed.

Lemma napp_defined {F} (a : NAct F) n :
  is_Some (nrd n (nloc a)) → is_Some (napp a n).
Proof.
  unfold napp, nrd, nloc; simpl. intros [v Hv].
  rewrite wr_in_range by (by eapply rd_lt). simpl. eauto.
Qed.

Lemma napp_dom {F} (a : NAct F) n n' :
  napp a n = Some n' → is_Some (nrd n (nloc a)).
Proof.
  unfold napp, nrd, nloc; simpl. intros Hw.
  destruct (wr _ _ _) as [b|] eqn:E; simpl in Hw; [|done].
  apply wr_Some in E as [Hi _]. by apply rd_in_range.
Qed.

Lemma rd_dom_length {A B} (t : list A) (t' : list B) :
  (∀ i, is_Some (rd t' i) ↔ is_Some (rd t i)) → length t' = length t.
Proof.
  intros Hdom.
  destruct (decide (length t' = length t)) as [|Hne]; [done|exfalso].
  destruct (decide (length t < length t')%nat).
  - destruct (rd_in_range t' (Z.of_nat (length t))) as [v Hv]; [lia|].
    destruct (proj1 (Hdom _) (ex_intro _ v Hv)) as [w Hw%rd_lt]. lia.
  - destruct (rd_in_range t (Z.of_nat (length t'))) as [v Hv]; [lia|].
    destruct (proj2 (Hdom _) (ex_intro _ v Hv)) as [w Hw%rd_lt]. lia.
Qed.

(** Loop nests over one buffer. *)
Section BufNest.
Context {A K1 K2 : Type}.
Variable g : K1 → K2 → option (list (Z * A)).
Variable body : K1 → K2 → list A → option (list A).
Variables (ys : list K1) (xs : list K2).
Hypothesis body_collects :
  ∀ y x s, body y x s = acts ← g y x; forM acts wr_act s.

Lemma buf_nest_length t t' :
  forM ys (λ y s, forM xs (body y) s) t = Some t' → length t' = length t.
Proof.
  intros Hrun. apply rd_dom_length. intros i.
  apply (nest_keeps_dom wr_act rd fst snd (@wr_act_set A) (@wr_act_frame A)
           (@wr_act_dom A) g body ys xs body_collects t t' i Hrun).
Qed.

Lemma buf_nest_total t :
  (∀ y x, y ∈ ys → x ∈ xs →
     ∃ acts, g y x = Some acts ∧
             ∀ a, a ∈ acts → 0 ≤ a.1 < Z.of_nat (length t)) →
  ∃ t', forM ys (λ y s, forM xs (body y) s) t = Some t' ∧
        length t' = length t.
Proof.
  intros Hok.
  destruct (nest_total wr_act rd fst snd (@wr_act_set A) (@wr_act_frame A)
              (@wr_act_defined A) (@wr_act_dom A) g body ys xs
              body_collects t) as [t' Ht'].
  - intros y x Hy Hx. destruct (Hok y x Hy Hx) as (acts & Hg & Hr).
    exists acts. split; [done|]. intros a Ha.
    destruct (rd_in_range t (a.1) (Hr a Ha)); eauto.
  - exists t'. split; [done|]. by apply buf_nest_length.
Qed.

Lemma buf_nest_reads t t' y x :
  forM ys (λ y s, forM xs (body y) s) t = Some t' →
  y ∈ ys → x ∈ xs → is_Some (g y x).
Proof. intros Hrun. by eapply nest_reads. Qed.

Lemma buf_nest_written t t' i v :
  forM ys (λ y s, forM xs (body y) s) t = Some t' →
  nest_writes g ys xs (i, v) →
  (∀ v', nest_writes g ys xs (i, v') → v' = v) →
  rd t' i = Some v.
Proof.
  intros Hrun Hw Huniq.
  apply (nest_written wr_act rd fst snd (@wr_act_set A) (@wr_act_frame A)
           g body ys xs body_collects t t' (i, v) Hrun Hw).
  intros [j v'] Hb Hj; simpl in *. subst. by apply Huniq.
Qed.

Lemma buf_nest_provenance t t' i u :
  forM ys (λ y s, forM xs (body y) s) t = Some t' →
  rd t' i = Some u →
  nest_writes g ys xs (i, u) ∨
  (rd t i = Some u ∧ ∀ v, ¬ nest_writes g ys xs (i, v)).
Proof.
  intros Hrun Hget.
  destruct (nest_provenance wr_act rd fst snd (@wr_act_set A)
              (@wr_act_frame A) g body ys xs body_collects t t' i u
              Hrun Hget) as [([j v] & Hw & Hl & Hv)|[Hs Hno]]; simpl in *.
  - left. by subst.
  - right. split; [done|]. intros v Hw. by apply (Hno (i, v)).
Qed.

Lemma buf_nest_Forall (P : A → Prop) t t' :
  forM ys (λ y s, forM xs (body y) s) t = Some t' →
  (∀ i v, nest_writes g ys xs (i, v) → P v) →
  (Forall P t ∨
   ∀ i, 0 ≤ i < Z.of_nat (length t) → ∃ v, nest_writes g ys xs (i, v)) →
  Forall P t'.
Proof.
  intros Hrun HP Hold. apply Forall_lookup. intros k u Hk.
  assert (Hrd : rd t' (Z.of_nat k) = Some u).
  { apply rd_Some. split; [lia|]. by rewrite Nat2Z.id. }
  destruct (buf_nest_provenance _ _ _ _ Hrun Hrd) as [Hw|[Hs Hno]].
  - by eapply HP.
  - destruct Hold as [Hall|Hcover].
    + by eapply rd_Forall.
    + destruct (Hcover (Z.of_nat k)) as [v Hv]; [by eapply rd_lt|].
      by destruct (Hno v).
Qed.
End BufNest.

(** Loop nests over the normal buffers. *)
Section NormNest.
Context {F K1 K2 : Type}.
Variable g : K1 → K2 → option (list (NAct F)).
Variable body : K1 → K2 → Normals F → option (Normals F).
Variables (ys : list K1) (xs : list K2).
Hypothesis body_collects :
  ∀ y x s, body y x s = acts ← g y x; forM acts napp s.

Lemma norm_nest_length n n' b :
  forM ys (λ y s, forM xs (body y) s) n = Some n' →
  length (nget b n') = length (nget b n).
Proof.
  intros Hrun. apply rd_dom_length. intros i.
  apply (nest_keeps_dom napp nrd nloc aVal (@napp_set F) (@napp_frame F)
           (@napp_dom F) g body ys xs body_collects n n' (b, i) Hrun).
Qed.

Lemma norm_nest_total n :
  (∀ y x, y ∈ ys → x ∈ xs →
     ∃ acts, g y x = Some acts ∧
             ∀ a, a ∈ acts →
               0 ≤ aIdx a < Z.of_nat (length (nget (aBuf a) n))) →
  ∃ n', forM ys (λ y s, forM xs (body y) s) n = Some n' ∧
        ∀ b, length (nget b n') = length (nget b n).
Proof.
  intros Hok.
  destruct (nest_total napp nrd nloc aVal (@napp_set F) (@napp_frame F)
              (@napp_defined F) (@napp_dom F) g body ys xs
              body_collects n) as [n' Hn'].
  - intros y x Hy Hx. destruct (Hok y x Hy Hx) as (acts & Hg & Hr).
    exists acts. split; [done|]. intros a Ha. unfold nrd, nloc; simpl.
    destruct (rd_in_range _ _ (Hr a Ha)); eauto.
  - exists n'. split; [done|]. intros b. by apply norm_nest_length.
Qed.

Lemma norm_nest_provenance n n' b i u :
  forM ys (λ y s, forM xs (body y) s) n = Some n' →
  rd (nget b n') i = Some u →
  nest_writes g ys xs (mkNAct b i u) ∨
  (rd (nget b n) i = Some u ∧ ∀ v, ¬ nest_writes g ys xs (mkNAct b i v)).
Proof.
  intros Hrun Hget.
  destruct (nest_provenance napp nrd nloc aVal (@napp_set F)
              (@napp_frame F) g body ys xs body_collects n n' (b, i) u
              Hrun Hget) as [([b' j v] & Hw & Hl & Hv)|[Hs Hno]];
    unfold nloc in *; simpl in *.
  - left. by simplify_eq.
  - right. split; [done|]. intros v Hw. by apply (Hno (mkNAct b i v)).
Qed.

Lemma norm_nest_Forall (P : float3 F → Prop) b n n' :
  forM ys (λ y s, forM xs (body y) s) n = Some n' →
  (∀ i v, nest_writes g ys xs (mkNAct b i v) → P v) →
  (Forall P (nget b n) ∨
   ∀ i, 0 ≤ i < Z.of_nat (length (nget b n)) →
        ∃ v, nest_writes g ys xs (mkNAct b i v)) →
  Forall P (nget b n').
Proof.
  intros Hrun HP Hold. apply Forall_lookup. intros k u Hk.
  assert (Hrd : rd (nget b n') (Z.of_nat k) = Some u).
  { apply rd_Some. split; [lia|]. by rewrite Nat2Z.id. }
  destruct (norm_nest_provenance _ _ _ _ _ Hrun Hrd) as [Hw|[Hs Hno]].
  - by eapply HP.
  - destruct Hold as [Hall|Hcover].
    + by eapply rd_Forall.
    + destruct (Hcover (Z.of_nat k)) as [v Hv]; [by eapply rd_lt|].
      by destruct (Hno v).
Qed.
End NormNest.

(** ** Index arithmetic *)

Lemma land_lnot_1 z : Z.land z (Z.lnot 1) = 2 * (z `div` 2).
Proof.
  rewrite <- Z.ldiff_land. change 1 with (Z.ones 1) at 1.
  rewrite Z.ldiff_ones_r by lia.
  rewrite Z.shiftr_div_pow2, Z.shiftl_mul_pow2 by lia.
  change (2 ^ 1) with 2. lia.
Qed.

Lemma shiftr_pred_of_multiple m i :
  0 ≤ i → 0 < m → (2 ^ i | m) → Z.shiftr (m - 1) i = Z.shiftr m i - 1.
Proof.
  intros Hi Hm [q ->]. rewrite !Z.shiftr_div_pow2 by lia.
  assert (0 < 2 ^ i) by (apply Z.pow_pos_nonneg; lia).
  rewrite Z.div_mul by lia.
  replace (q * 2 ^ i - 1) with ((2 ^ i - 1) + (q - 1) * 2 ^ i) by lia.
  rewrite Z.div_add by lia. rewrite Z.div_small by lia. lia.
Qed.

Lemma shiftr_succ_half m i :
  0 ≤ i → (2 ^ (i + 1) | m) → Z.shiftr m i = 2 * Z.shiftr m (i + 1).
Proof.
  intros Hi [q ->]. rewrite !Z.shiftr_div_pow2 by lia.
  assert (0 < 2 ^ i) by (apply Z.pow_pos_nonneg; lia).
  rewrite Z.pow_add_r by lia. change (2 ^ 1) with 2.
  rewrite Z.div_mul by lia.
  replace (q * (2 ^ i * 2)) with (q * 2 * 2 ^ i) by lia.
  rewrite Z.div_mul by lia. lia.
Qed.

Lemma shiftr_mono_le a b i : 0 ≤ i → a ≤ b → Z.shiftr a i ≤ Z.shiftr b i.
Proof.
  intros Hi Hab. rewrite !Z.shiftr_div_pow2 by lia.
  apply Z.div_le_mono; [|done]. apply Z.pow_pos_nonneg; lia.
Qed.

Lemma shiftr_nonneg' a i : 0 ≤ a → 0 ≤ Z.shiftr a i.
Proof. intros. by apply Z.shiftr_nonneg. Qed.

Lemma divide_pow2_le (m : Z) i j :
  0 ≤ i ≤ j → (2 ^ j | m) → (2 ^ i | m).
Proof.
  intros Hij [q ->]. exists (q * 2 ^ (j - i)).
  rewrite <- Z.mul_assoc, <- Z.pow_add_r by lia. do 2 f_equal. lia.
Qed.

Lemma rowmajor_inj w y x y' x' :
  0 ≤ x < w → 0 ≤ x' < w → y * w + x = y' * w + x' → y = y' ∧ x = x'.
Proof.
  intros Hx Hx' Heq.
  assert (y = y'); [|lia].
  assert ((y * w + x) `div` w = (y' * w + x') `div` w) as Hd by congruence.
  rewrite !Z.div_add_l, !Z.div_small in Hd by lia. lia.
Qed.

(** ** The derivation steps stay inside their buffers *)

Section StepsTotal.
Context {F : Type} `{Scalar F} `{Consts}.
Variable mapDims : MapDimensions.

Lemma UpdateCenterHeightmap_total rect (hm c : list F) :
  0 ≤ x1 rect → 0 ≤ z1 rect →
  x2 rect ≤ mapxm1 mapDims → z2 rect ≤ mapym1 mapDims →
  Z.of_nat (length hm) = mapxp1 mapDims * mapyp1 mapDims →
  Z.of_nat (length c) = mapx mapDims * mapy mapDims →
  ∃ c', UpdateCenterHeightmap mapDims rect hm c = Some c' ∧
        length c' = length c.
Proof.
  unfold mapxm1, mapym1, mapxp1, mapyp1. intros Hx1 Hz1 Hx2 Hz2 Hhm Hc.
  apply (buf_nest_total (center_writes mapDims hm));
    [intros; apply center_collects|].
  intros y x Hy%elem_of_range_incl Hx%elem_of_range_incl.
  unfold center_writes, mapxp1.
  destruct (rd_in_range hm ((y + 0) * (mapx mapDims + 1) + x + 0)) as [a ->]; [nia|].
  destruct (rd_in_range hm ((y + 0) * (mapx mapDims + 1) + x + 1)) as [b ->]; [nia|].
  destruct (rd_in_range hm ((y + 1) * (mapx mapDims + 1) + x + 0)) as [e ->]; [nia|].
  destruct (rd_in_range hm ((y + 1) * (mapx mapDims + 1) + x + 1)) as [f ->]; [nia|].
  simpl. eexists; split; [done|].
  intros a0 ->%list_elem_of_singleton; simpl. nia.
Qed.

Lemma UpdateMipLevel_total rect i (top sub : list F) :
  0 ≤ i → 0 < mapx mapDims → 0 < mapy mapDims →
  (2 ^ (i + 1) | mapx mapDims) → (2 ^ (i + 1) | mapy mapDims) →
  0 ≤ x1 rect → 0 ≤ z1 rect →
  x2 rect ≤ mapxm1 mapDims → z2 rect ≤ mapym1 mapDims →
  Z.of_nat (length top) =
    Z.shiftr (mapx mapDims) i * Z.shiftr (mapy mapDims) i →
  Z.of_nat (length sub) =
    Z.shiftr (mapx mapDims) (i + 1) * Z.shiftr (mapy mapDims) (i + 1) →
  ∃ sub', UpdateMipLevel mapDims rect i top sub = Some sub' ∧
          length sub' = length sub.
Proof.
  unfold mapxm1, mapym1.
  intros Hi Hmx Hmy Hdx Hdy Hx1 Hz1 Hx2 Hz2 Htop Hsub.
  apply (buf_nest_total (mip_writes mapDims i top));
    [intros; apply mip_collects|].
  intros y x Hy Hx.
  apply elem_of_range_step in Hy as (ky & -> & Hky & Hylt); [|lia].
  apply elem_of_range_step in Hx as (kx & -> & Hkx & Hxlt); [|lia].
  rewrite !land_lnot_1 in *.
  pose proof (shiftr_succ_half _ i Hi Hdx) as Hhx.
  pose proof (shiftr_succ_half _ i Hi Hdy) as Hhy.
  pose proof (shiftr_mono_le _ _ i Hi Hx2) as Hex.
  pose proof (shiftr_mono_le _ _ i Hi Hz2) as Hey.
  rewrite shiftr_pred_of_multiple in Hex, Hey
    by first [lia | (eapply divide_pow2_le; [|eassumption]; lia)].
  pose proof (shiftr_nonneg' (x1 rect) i Hx1) as Hsx.
  pose proof (shiftr_nonneg' (z1 rect) i Hz1) as Hsy.
  pose proof (Z.div_pos _ 2 Hsx ltac:(lia)) as Hsx2.
  pose proof (Z.div_pos _ 2 Hsy ltac:(lia)) as Hsy2.
  set (hx' := Z.shiftr (mapx mapDims) (i + 1)) in *.
  set (hy' := Z.shiftr (mapy mapDims) (i + 1)) in *.
  set (ax := Z.shiftr (x1 rect) i `div` 2) in *.
  set (ay := Z.shiftr (z1 rect) i `div` 2) in *.
  unfold mip_writes. rewrite Hhx.
  destruct (rd_in_range top (2 * ax + 2 * kx + (2 * ay + 2 * ky) * (2 * hx')))
    as [a ->]; [nia|].
  destruct (rd_in_range top (2 * ax + 2 * kx + (2 * ay + 2 * ky + 1) * (2 * hx')))
    as [b ->]; [nia|].
  destruct (rd_in_range top (2 * ax + 2 * kx + 1 + (2 * ay + 2 * ky) * (2 * hx')))
    as [e ->]; [nia|].
  destruct (rd_in_range top (2 * ax + 2 * kx + 1 + (2 * ay + 2 * ky + 1) * (2 * hx')))
    as [f ->]; [nia|].
  simpl. eexists; split; [done|].
  intros a0 ->%list_elem_of_singleton; simpl.
  replace (2 * ax + 2 * kx) with ((ax + kx) * 2) by lia.
  replace (2 * ay + 2 * ky) with ((ay + ky) * 2) by lia.
  rewrite !Z.quot_mul by lia.
  replace ((ay + ky) * (2 * hx')) with ((ay + ky) * hx' * 2) by lia.
  rewrite Z.quot_mul by lia. nia.
Qed.
End StepsTotal.

Section StepsTotal2.
Context {F : Type} `{Scalar F} `{Consts}.
Variable mapDims : MapDimensions.

Lemma UpdateMipHeightmaps_total rect (c : list F) (mips : list (list F)) :
  dims_ok mapDims →
  0 ≤ x1 rect → 0 ≤ z1 rect →
  x2 rect ≤ mapxm1 mapDims → z2 rect ≤ mapym1 mapDims →
  Z.of_nat (length c) = mapx mapDims * mapy mapDims →
  Z.of_nat (length mips) = numHeightMipMaps - 1 →
  (∀ i l, rd mips (i - 1) = Some l →
     Z.of_nat (length l) =
       Z.shiftr (mapx mapDims) i * Z.shiftr (mapy mapDims) i) →
  ∃ mips', UpdateMipHeightmaps mapDims rect c mips = Some mips' ∧
    Z.of_nat (length mips') = numHeightMipMaps - 1 ∧
    (∀ i l, rd mips' (i - 1) = Some l →
       Z.of_nat (length l) =
         Z.shiftr (mapx mapDims) i * Z.shiftr (mapy mapDims) i).
Proof.
  intros (HL & Hmx & Hmy & Hdx & Hdy) Hx1 Hz1 Hx2 Hz2 Hc Hlen Hsz.
  unfold UpdateMipHeightmaps.
  apply (forM_inv_simple (λ m : list (list F),
           Z.of_nat (length m) = numHeightMipMaps - 1 ∧
           ∀ i l, rd m (i - 1) = Some l →
             Z.of_nat (length l) =
               Z.shiftr (mapx mapDims) i * Z.shiftr (mapy mapDims) i));
    [done|].
  intros i m Hi%elem_of_range_excl [Hm Hmsz].
  assert (∃ top, mipPointer c m i = Some top ∧
            Z.of_nat (length top) =
              Z.shiftr (mapx mapDims) i * Z.shiftr (mapy mapDims) i)
    as (top & -> & Htop).
  { unfold mipPointer. case_decide as Hi0.
    - subst i. exists c. by rewrite !Z.shiftr_0_r.
    - destruct (rd_in_range m (i - 1)) as [top Ht]; [lia|]. eauto. }
  assert (∃ sub, mipPointer c m (i + 1) = Some sub ∧
            Z.of_nat (length sub) =
              Z.shiftr (mapx mapDims) (i + 1) * Z.shiftr (mapy mapDims) (i + 1))
    as (sub & -> & Hsub).
  { unfold mipPointer. rewrite decide_False by lia.
    destruct (rd_in_range m (i + 1 - 1)) as [sub Hs]; [lia|]. eauto. }
  simpl.
  destruct (UpdateMipLevel_total mapDims rect i top sub) as (sub' & -> & Hsub');
    try done; try lia.
  { eapply divide_pow2_le; [|exact Hdx]. lia. }
  { eapply divide_pow2_le; [|exact Hdy]. lia. }
  simpl. rewrite wr_in_range by lia. eexists; split; [done|].
  split; [by rewrite length_insert|].
  intros j l Hj. destruct (decide (j - 1 = i)) as [Hji|Hji].
  - rewrite Hji in Hj.
    rewrite (rd_wr_eq m _ i sub') in Hj by (by apply wr_in_range; lia).
    injection Hj as <-. replace j with (i + 1) by lia. lia.
  - rewrite (rd_wr_ne m _ i (j - 1) sub') in Hj
      by first [by apply wr_in_range; lia | lia].
    by apply Hmsz.
Qed.

Lemma UpdateFaceNormals_total rect init (hm : list F) (n : Normals F) :
  Z.of_nat (length hm) = mapxp1 mapDims * mapyp1 mapDims →
  Z.of_nat (length (nFaceS n)) = mapx mapDims * mapy mapDims * 2 →
  Z.of_nat (length (nFaceU n)) = mapx mapDims * mapy mapDims * 2 →
  Z.of_nat (length (nCenterS n)) = mapx mapDims * mapy mapDims →
  Z.of_nat (length (nCenterU n)) = mapx mapDims * mapy mapDims →
  Z.of_nat (length (nCenter2D n)) = mapx mapDims * mapy mapDims →
  ∃ n', UpdateFaceNormals mapDims rect init hm n = Some n' ∧
        ∀ b, length (nget b n') = length (nget b n).
Proof.
  unfold mapxp1, mapyp1. intros Hhm HfS HfU HcS HcU Hc2.
  apply (norm_nest_total (face_writes mapDims init hm));
    [intros; apply face_collects|].
  intros y x Hy%elem_of_range_incl Hx%elem_of_range_incl.
  unfold mapxm1, mapym1 in *.
  unfold face_writes, mapxp1.
  destruct (rd_in_range hm (y * (mapx mapDims + 1) + x)) as [a ->]; [nia|].
  destruct (rd_in_range hm (y * (mapx mapDims + 1) + x + 1)) as [b ->]; [nia|].
  destruct (rd_in_range hm ((y + 1) * (mapx mapDims + 1) + x)) as [e ->]; [nia|].
  destruct (rd_in_range hm ((y + 1) * (mapx mapDims + 1) + x + 1)) as [f ->]; [nia|].
  simpl. eexists; split; [done|].
  intros a0 Ha0.
  destruct (USE_UNSYNCED_HEIGHTMAP && init); simpl in Ha0;
    repeat (apply elem_of_cons in Ha0 as [->|Ha0]);
    try (by apply elem_of_nil in Ha0); simpl; nia.
Qed.

Lemma UpdateSlopemap_total rect (fn : list (float3 F)) (sm : list F) :
  Z.of_nat (length fn) = mapx mapDims * mapy mapDims * 2 →
  Z.of_nat (length sm) = hmapx mapDims * hmapy mapDims →
  ∃ sm', UpdateSlopemap mapDims rect fn sm = Some sm' ∧
         length sm' = length sm.
Proof.
  unfold hmapx, hmapy. intros Hfn Hsm.
  apply (buf_nest_total (slope_writes mapDims fn));
    [intros; apply slope_collects|].
  intros y x Hy%elem_of_range_incl Hx%elem_of_range_incl.
  unfold hmapx, hmapy in *. rewrite !Z.shiftr_div_pow2 in * by lia.
  change (2 ^ 1) with 2 in *.
  pose proof (Z.mul_div_le (mapx mapDims) 2 ltac:(lia)).
  pose proof (Z.mul_div_le (mapy mapDims) 2 ltac:(lia)).
  set (hx := mapx mapDims `div` 2) in *.
  set (hy := mapy mapDims `div` 2) in *.
  unfold slope_writes, hmapx.
  destruct (rd_in_range fn ((y * 2 * mapx mapDims + x * 2) * 2)) as [n0 ->]; [nia|].
  destruct (rd_in_range fn ((y * 2 * mapx mapDims + x * 2) * 2 + 1)) as [n1 ->]; [nia|].
  destruct (rd_in_range fn ((y * 2 * mapx mapDims + x * 2 + 1) * 2)) as [n2 ->]; [nia|].
  destruct (rd_in_range fn ((y * 2 * mapx mapDims + x * 2 + 1) * 2 + 1)) as [n3 ->]; [nia|].
  destruct (rd_in_range fn (((y * 2 + 1) * mapx mapDims + x * 2) * 2)) as [n4 ->]; [nia|].
  destruct (rd_in_range fn (((y * 2 + 1) * mapx mapDims + x * 2) * 2 + 1)) as [n5 ->]; [nia|].
  destruct (rd_in_range fn (((y * 2 + 1) * mapx mapDims + x * 2 + 1) * 2)) as [n6 ->]; [nia|].
  destruct (rd_in_range fn (((y * 2 + 1) * mapx mapDims + x * 2 + 1) * 2 + 1)) as [n7 ->]; [nia|].
  simpl. eexists; split; [done|].
  intros a0 ->%list_elem_of_singleton; simpl.
  rewrite Z.shiftr_div_pow2 by lia. change (2 ^ 1) with 2. fold hx. nia.
Qed.

Lemma centerRect_clamped rect :
  0 ≤ x1 (centerRect_of mapDims rect) ∧ 0 ≤ z1 (centerRect_of mapDims rect) ∧
  x2 (centerRect_of mapDims rect) ≤ mapxm1 mapDims ∧
  z2 (centerRect_of mapDims rect) ≤ mapym1 mapDims.
Proof. unfold centerRect_of; simpl. lia. Qed.

(** For every rectangle the pipeline runs to its end on a well-formed
    state, and leaves a well-formed state with the same corner grid. *)
Lemma pipeline_total rect (s : CReadMap F) :
  dims_ok mapDims → wf_state mapDims s →
  ∃ s', UpdateHeightMapSynced mapDims rect s = Some s' ∧
        wf_state mapDims s' ∧ heightMapSynced s' = heightMapSynced s.
Proof.
  intros Hd (Hhm & Hc & Hm & Hmsz & HfS & HfU & HcS & HcU & Hc2 & Hsm).
  destruct (centerRect_clamped rect) as (Hx1 & Hz1 & Hx2 & Hz2).
  unfold UpdateHeightMapSynced.
  destruct (UpdateCenterHeightmap_total mapDims _ _ _ Hx1 Hz1 Hx2 Hz2 Hhm Hc)
    as (c' & -> & Hc'). simpl.
  destruct (UpdateMipHeightmaps_total (centerRect_of mapDims rect) c'
              (mipCenterHeightMaps s)) as (m' & -> & Hm' & Hmsz');
    try done; [lia|]. simpl.
  match goal with
  | |- context [UpdateFaceNormals _ ?r ?i ?h ?n] =>
      destruct (UpdateFaceNormals_total r i h n) as (n' & -> & Hn'); try done
  end. simpl.
  pose proof (Hn' BFaceS) as HnFS. pose proof (Hn' BFaceU) as HnFU.
  pose proof (Hn' BCenterS) as HnCS. pose proof (Hn' BCenterU) as HnCU.
  pose proof (Hn' BCenter2D) as HnC2. simpl in *.
  destruct (UpdateSlopemap_total (centerRect_of mapDims rect) (nFaceS n')
              (slopeMap s)) as (sm' & -> & Hsm'); [lia|done|]. simpl.
  eexists; split; [done|]. split; [|done].
  repeat split; simpl; try done; lia.
Qed.
End StepsTotal2.

(** ** What the pipeline leaves in the buffers *)

Section PipelineFacts.
Context {F : Type} `{Scalar F} `{Consts}.
Variable mapDims : MapDimensions.

Lemma pipeline_inv rect (s s' : CReadMap F) :
  UpdateHeightMapSynced mapDims rect s = Some s' →
  let cr := centerRect_of mapDims rect in
  let init :=
    SRectangle_eqb rect (mkRect 0 0 (mapx mapDims) (mapy mapDims)) in
  heightMapSynced s' = heightMapSynced s ∧
  UpdateCenterHeightmap mapDims cr (heightMapSynced s) (centerHeightMap s)
    = Some (centerHeightMap s') ∧
  UpdateMipHeightmaps mapDims cr (centerHeightMap s') (mipCenterHeightMaps s)
    = Some (mipCenterHeightMaps s') ∧
  UpdateFaceNormals mapDims cr init (heightMapSynced s)
    (mkNormals (faceNormalsSynced s) (centerNormalsSynced s)
       (centerNormals2D s) (faceNormalsUnsynced s) (centerNormalsUnsynced s))
    = Some (mkNormals (faceNormalsSynced s') (centerNormalsSynced s')
              (centerNormals2D s') (faceNormalsUnsynced s')
              (centerNormalsUnsynced s')) ∧
  UpdateSlopemap mapDims cr (faceNormalsSynced s') (slopeMap s)
    = Some (slopeMap s').
Proof.
  unfold UpdateHeightMapSynced. intros Hrun.
  destruct (UpdateCenterHeightmap _ _ _ _) as [c|] eqn:Ec; simpl in Hrun; [|done].
  destruct (UpdateMipHeightmaps _ _ _ _) as [m|] eqn:Em; simpl in Hrun; [|done].
  destruct (UpdateFaceNormals _ _ _ _ _) as [n|] eqn:En; simpl in Hrun; [|done].
  destruct (UpdateSlopemap _ _ _ _) as [sm|] eqn:Es; simpl in Hrun; [|done].
  injection Hrun as <-. simpl. by destruct n.
Qed.

Lemma UpdateCenterHeightmap_values rect (hm c c' : list F) x y :
  UpdateCenterHeightmap mapDims rect hm c = Some c' →
  0 ≤ x1 rect → x2 rect ≤ mapxm1 mapDims →
  x1 rect ≤ x ≤ x2 rect → z1 rect ≤ y ≤ z2 rect →
  ∃ hTL hTR hBL hBR,
    rd hm (y * mapxp1 mapDims + x) = Some hTL ∧
    rd hm (y * mapxp1 mapDims + (x + 1)) = Some hTR ∧
    rd hm ((y + 1) * mapxp1 mapDims + x) = Some hBL ∧
    rd hm ((y + 1) * mapxp1 mapDims + (x + 1)) = Some hBR ∧
    rd c' (y * mapx mapDims + x) = Some (mean4 hTL hTR hBL hBR).
Proof.
  unfold mapxm1. intros Hrun Hx1 Hx2 Hx Hy.
  pose proof (center_collects mapDims hm) as Hcol.
  assert (Hyin : y ∈ range_incl (z1 rect) (z2 rect))
    by by apply elem_of_range_incl.
  assert (Hxin : x ∈ range_incl (x1 rect) (x2 rect))
    by by apply elem_of_range_incl.
  destruct (buf_nest_reads (center_writes mapDims hm) _ _ _ Hcol
              _ _ y x Hrun Hyin Hxin) as [acts Hacts].
  pose proof Hacts as Hacts0. unfold center_writes in Hacts.
  replace ((y + 0) * mapxp1 mapDims + x + 0)
    with (y * mapxp1 mapDims + x) in Hacts by lia.
  replace ((y + 0) * mapxp1 mapDims + x + 1)
    with (y * mapxp1 mapDims + (x + 1)) in Hacts by lia.
  replace ((y + 1) * mapxp1 mapDims + x + 0)
    with ((y + 1) * mapxp1 mapDims + x) in Hacts by lia.
  replace ((y + 1) * mapxp1 mapDims + x + 1)
    with ((y + 1) * mapxp1 mapDims + (x + 1)) in Hacts by lia.
  destruct (rd hm (y * mapxp1 mapDims + x)) as [hTL|]; simpl in Hacts; [|done].
  destruct (rd hm (y * mapxp1 mapDims + (x + 1))) as [hTR|]; simpl in Hacts; [|done].
  destruct (rd hm ((y + 1) * mapxp1 mapDims + x)) as [hBL|]; simpl in Hacts; [|done].
  destruct (rd hm ((y + 1) * mapxp1 mapDims + (x + 1))) as [hBR|]; simpl in Hacts; [|done].
  injection Hacts as <-.
  exists hTL, hTR, hBL, hBR. repeat split; try done.
  apply (buf_nest_written (center_writes mapDims hm) _ _ _ Hcol _ _ _ _ Hrun).
  - exists y, x, [(y * mapx mapDims + x, mean4 hTL hTR hBL hBR)].
    repeat split; try done. apply list_elem_of_singleton. done.
  - intros v' (y' & x' & acts' & Hy' & Hx' & Hg' & Hin).
    apply elem_of_range_incl in Hy', Hx'.
    assert (Hg'' := Hg'). unfold center_writes in Hg'.
    destruct (rd hm ((y' + 0) * mapxp1 mapDims + x' + 0)) as [a|];
      simpl in Hg'; [|done].
    destruct (rd hm ((y' + 0) * mapxp1 mapDims + x' + 1)) as [b|];
      simpl in Hg'; [|done].
    destruct (rd hm ((y' + 1) * mapxp1 mapDims + x' + 0)) as [e|];
      simpl in Hg'; [|done].
    destruct (rd hm ((y' + 1) * mapxp1 mapDims + x' + 1)) as [f|];
      simpl in Hg'; [|done].
    injection Hg' as <-. apply list_elem_of_singleton in Hin.
    injection Hin as Hidx ->.
    assert (y' = y ∧ x' = x) as [-> ->]
      by (apply (rowmajor_inj (mapx mapDims)); lia).
    rewrite Hacts0 in Hg''. by injection Hg''.
Qed.
End PipelineFacts.


(** C7: running the derivation pipeline a second time on the same rectangle,
    with no change to the corner grid in between, runs to its end and leaves
    every derived buffer (center heights, mip levels, face and center
    normals, slope map) as the first run left it. *)
Theorem pipeline_twice_same_buffers
    {F : Type} `{Scalar F} `{Consts} (d : MapDimensions)
    (rect : SRectangle) (s s1 : CReadMap F) :
  UpdateHeightMapSynced d rect s = Some s1 →
  ∃ s2, UpdateHeightMapSynced d rect s1 = Some s2 ∧ same_derived s1 s2.
Proof. apply pipeline_again. Qed.

(** C10, as the code has it: on a map whose sides are positive multiples
    of [2^(L-1)], with buffers of the sizes [Initialize] gives them, for
    every input rectangle, also one reaching past the map border, the
    rectangle the derivation steps receive is clamped to the center grid,
    and the center-height, mip, face-normal and slope updates make no
    access outside a buffer: the pipeline runs to its end and the buffers
    keep their sizes. *)
Theorem pipeline_stays_in_bounds
    {F : Type} `{Scalar F} `{Consts} (d : MapDimensions)
    (s : CReadMap F) (rect : SRectangle) :
  dims_ok d → wf_state d s →
  (0 ≤ x1 (centerRect_of d rect) ∧ 0 ≤ z1 (centerRect_of d rect) ∧
   x2 (centerRect_of d rect) ≤ mapxm1 d ∧
   z2 (centerRect_of d rect) ≤ mapym1 d) ∧
  ∃ s', UpdateHeightMapSynced d rect s = Some s' ∧ wf_state d s'.
Proof.
  intros Hd Hwf. split; [apply centerRect_clamped|].
  destruct (pipeline_total d rect s Hd Hwf) as (s' & Hrun & Hwf' & _).
  eauto.
Qed.

(** ** The XOR-differential stream *)

Lemma lxor_twice a b : Z.lxor (Z.lxor a b) b = a.
Proof. by rewrite Z.lxor_assoc, Z.lxor_nilpotent, Z.lxor_0_r. Qed.

Lemma insert_take_drop {A} (cur junk : list A) k a :
  cur !! k = Some a → (k < length junk)%nat →
  <[k := a]> (take k cur ++ drop k junk) = take (S k) cur ++ drop (S k) junk.
Proof.
  intros Hk Hj. pose proof (lookup_lt_Some _ _ _ Hk) as Hlt.
  destruct (lookup_lt_is_Some_2 junk k Hj) as [j Hjk].
  rewrite insert_app_r_alt by (rewrite length_take; lia).
  rewrite length_take, Nat.min_l, Nat.sub_diag by lia.
  rewrite (drop_S junk j k Hjk). simpl.
  rewrite (take_S_r cur k a Hk). by rewrite <- app_assoc.
Qed.

Lemma serialize_write_prefix (ref cur pre : list Z) k :
  0 ≤ k → k ≤ Z.of_nat (length cur) → k ≤ Z.of_nat (length ref) →
  forM (range_excl 0 k) (λ i st,
      a ← rd (st.2) i;
      b ← rd ref i;
      r ← Serialize (st.1) (Z.lxor a b);
      Some (r.1, st.2)) (mkSerializer true pre, cur)
  = Some (mkSerializer true
            (pre ++ zip_with Z.lxor (take (Z.to_nat k) cur) (take (Z.to_nat k) ref)),
          cur).
Proof.
  intros Hk. pattern k. apply natlike_ind; [| |done]; clear k Hk.
  - intros _ _. simpl. by rewrite app_nil_r.
  - intros k Hk IH Hc Hr. unfold Z.succ.
    rewrite range_excl_snoc, forM_snoc by done.
    rewrite IH by lia. simpl.
    destruct (rd_in_range cur k) as [a Ha]; [lia|].
    destruct (rd_in_range ref k) as [b Hb]; [lia|].
    rewrite Ha, Hb. simpl. unfold Serialize; simpl.
    apply rd_Some in Ha as [_ Ha]. apply rd_Some in Hb as [_ Hb].
    replace (Z.to_nat (k + 1)) with (S (Z.to_nat k)) by lia.
    rewrite (take_S_r cur _ a Ha), (take_S_r ref _ b Hb).
    rewrite zip_with_app by (rewrite !length_take; lia).
    simpl. by rewrite <- app_assoc.
Qed.

Lemma serialize_read_prefix (ref cur junk rest : list Z) k :
  0 ≤ k → k ≤ Z.of_nat (length cur) →
  length ref = length cur → length junk = length cur →
  forM (range_excl 0 k) (λ i st,
      r ← Serialize (st.1) 0;
      b ← rd ref i;
      ichms' ← wr (st.2) i (Z.lxor (r.2) b);
      Some (r.1, ichms'))
    (mkSerializer false (zip_with Z.lxor cur ref ++ rest), junk)
  = Some (mkSerializer false
            (drop (Z.to_nat k) (zip_with Z.lxor cur ref) ++ rest),
          take (Z.to_nat k) cur ++ drop (Z.to_nat k) junk).
Proof.
  intros Hk. pattern k. apply natlike_ind; [| |done]; clear k Hk.
  - intros _ _ _. done.
  - intros k Hk IH Hc Hr Hj. unfold Z.succ.
    rewrite range_excl_snoc, forM_snoc by done.
    rewrite IH by (done || lia). simpl.
    destruct (rd_in_range cur k) as [a Ha]; [lia|].
    destruct (rd_in_range ref k) as [b Hb]; [lia|].
    apply rd_Some in Ha as [_ Ha]. pose proof Hb as Hb'.
    apply rd_Some in Hb' as [_ Hb'].
    assert (Hz : zip_with Z.lxor cur ref !! Z.to_nat k = Some (Z.lxor a b)).
    { rewrite lookup_zip_with, Ha; simpl. by rewrite Hb'. }
    unfold Serialize; simpl.
    rewrite (drop_S _ _ _ Hz). simpl. rewrite Hb. simpl.
    rewrite lxor_twice.
    rewrite wr_in_range
      by (rewrite length_app, length_take, length_drop; lia).
    simpl.
    replace (Z.to_nat (k + 1)) with (S (Z.to_nat k)) by lia.
    do 2 f_equal. apply insert_take_drop; [done|lia].
Qed.

(** C6: the XOR-differential serialisation round-trips.  Writing a modified
    grid against a reference grid appends the words [current xor reference]
    in index order to the stream; reading that stream back against the same
    reference rebuilds the modified grid, whatever the grid read into held
    before, and consumes exactly the words written. *)
Theorem xor_delta_roundtrip (n : Z) (ref cur junk pre rest : list Z) :
  Z.of_nat (length ref) = n → Z.of_nat (length cur) = n →
  Z.of_nat (length junk) = n →
  ∃ delta,
    delta = zip_with Z.lxor cur ref ∧
    SerializeMapChanges n (mkSerializer true pre) ref cur
      = Some (mkSerializer true (pre ++ delta), cur) ∧
    SerializeMapChanges n (mkSerializer false (delta ++ rest)) ref junk
      = Some (mkSerializer false rest, cur).
Proof.
  intros Hr Hc Hj. eexists; split; [done|].
  unfold SerializeMapChanges; simpl. split.
  - rewrite serialize_write_prefix by lia.
    rewrite !firstn_all2 by lia. done.
  - rewrite serialize_read_prefix by lia.
    rewrite firstn_all2 by lia.
    rewrite !drop_ge by (rewrite ?length_zip_with; lia).
    by rewrite app_nil_r.
Qed.

(** ** The per-frame drain *)

Lemma drain_loop {W} (f : SRectangle → W → W) (q : list SRectangle) w N :
  0 ≤ N → N ≤ Z.of_nat (length q) →
  forM (range_excl 0 N) (λ i w, r ← rd q i; Some (f r w)) w
  = Some (foldl (λ w r, f r w) w (take (Z.to_nat N) q)).
Proof.
  intros HN. pattern N. apply natlike_ind; [| |done]; clear N HN.
  - done.
  - intros N HN IH Hle. unfold Z.succ.
    rewrite range_excl_snoc, forM_snoc by done.
    rewrite IH by lia. simpl.
    destruct (rd_in_range q N) as [r Hr]; [lia|]. rewrite Hr. simpl.
    apply rd_Some in Hr as [_ Hr].
    replace (Z.to_nat (N + 1)) with (S (Z.to_nat N)) by lia.
    rewrite (take_S_r q _ r Hr), foldl_app. done.
Qed.

Lemma foldl_snoc_all {A} (l ev : list A) :
  foldl (λ ev r, ev ++ [r]) ev l = ev ++ l.
Proof.
  revert ev; induction l as [|r l IH]; intros ev; simpl.
  - by rewrite app_nil_r.
  - rewrite IH. by rewrite <- app_assoc.
Qed.

Lemma pop_loop (q : list SRectangle) N :
  0 ≤ N → N ≤ Z.of_nat (length q) →
  forM (range_excl 0 N) (λ _ q, pop_front q) q = Some (drop (Z.to_nat N) q).
Proof.
  intros HN. pattern N. apply natlike_ind; [| |done]; clear N HN.
  - done.
  - intros N HN IH Hle. unfold Z.succ.
    rewrite range_excl_snoc, forM_snoc by done.
    rewrite IH by lia. simpl.
    destruct (lookup_lt_is_Some_2 q (Z.to_nat N)) as [r Hr]; [lia|].
    rewrite (drop_S q r _ Hr). simpl.
    by replace (Z.to_nat (N + 1)) with (S (Z.to_nat N)) by lia.
Qed.

(** C8: one call of [UpdateDraw] copies, announces and removes the first
    rectangles of the queue as [Process] has laid it out, at most
    [MAX_UHM_RECTS_PER_FRAME] = 128 of them, each announced once and in
    queue order; every rectangle behind them is still in the queue after
    the call, in the same order. *)
Theorem UpdateDraw_caps_and_keeps {W : Type}
    (Process : bool → list SRectangle → list SRectangle)
    (UpdateHeightMapUnsynced : SRectangle → W → W)
    (firstCall : bool) (st : DrawState (W:=W)) :
  ∃ st' handled,
    UpdateDraw Process UpdateHeightMapUnsynced firstCall st = Some st' ∧
    Z.of_nat (length handled) ≤ MAX_UHM_RECTS_PER_FRAME ∧
    MAX_UHM_RECTS_PER_FRAME = 128 ∧
    handled ++ dQueue st' =
      match dQueue st with
      | [] => []
      | _ => Process firstCall (dQueue st)
      end ∧
    (dQueue st' ≠ [] → Z.of_nat (length handled) = MAX_UHM_RECTS_PER_FRAME) ∧
    dEvents st' = dEvents st ++ handled ∧
    dWorld st' =
      foldl (λ w r, UpdateHeightMapUnsynced r w) (dWorld st) handled.
Proof.
  unfold UpdateDraw. destruct (dQueue st) as [|r0 q0] eqn:Hq.
  - exists st, []. rewrite Hq, app_nil_r. simpl.
    split; [done|]. split; [unfold MAX_UHM_RECTS_PER_FRAME; lia|].
    split; [done|]. split; [done|]. split; [by intros []|].
    by rewrite app_nil_r.
  - set (q := Process firstCall (r0 :: q0)).
    set (N := Z.min MAX_UHM_RECTS_PER_FRAME (Z.of_nat (length q))).
    assert (0 ≤ N ≤ Z.of_nat (length q)) as [HN0 HN]
      by (unfold N, MAX_UHM_RECTS_PER_FRAME; lia).
    rewrite (drain_loop UpdateHeightMapUnsynced q _ N HN0 HN). simpl.
    rewrite (drain_loop (λ r ev, ev ++ [r]) q _ N HN0 HN). simpl.
    rewrite (pop_loop q N HN0 HN). simpl.
    eexists _, (take (Z.to_nat N) q). split; [done|]. simpl.
    repeat split.
    + rewrite length_take. unfold N. lia.
    + by rewrite take_drop.
    + intros Hne. rewrite length_take.
      assert (Z.to_nat N < length q)%nat.
      { destruct (decide (Z.to_nat N < length q)%nat); [done|].
        rewrite drop_ge in Hne by lia. done. }
      unfold N in *. lia.
    + apply foldl_snoc_all.
Qed.

(** ** Minimum and maximum under an order that is total on the values met *)

Lemma strict_total_on_all {F} (ltb : F → F → bool) (P : F → Prop) :
  strict_total ltb → strict_total_on ltb P.
Proof.
  intros (Hirr & Htr & Htot). repeat split.
  - intros a _. apply Hirr.
  - intros a b c _ _ _. apply Htr.
  - intros a b _ _. apply Htot.
Qed.

Section Lesser.
Context {F : Type} (ltb : F → F → bool) (P : F → Prop).
Hypothesis Hord : strict_total_on ltb P.

Lemma ltb_asym a b : P a → P b → ltb a b = true → ltb b a = false.
Proof.
  destruct Hord as (Hirr & Htr & _). intros Pa Pb Hab.
  destruct (ltb b a) eqn:Hba; [|done].
  by rewrite <- (Hirr a Pa), (Htr a b a Pa Pb Pa Hab Hba).
Qed.

Lemma strict_total_flip : strict_total_on (λ a b, ltb b a) P.
Proof.
  destruct Hord as (Hirr & Htr & Htot). repeat split.
  - done.
  - intros a b c Pa Pb Pc Hab Hbc. by apply (Htr c b a).
  - intros a b Pa Pb Hab Hba. by apply Htot.
Qed.

Lemma lesser_idem a : lesser ltb a a = a.
Proof. unfold lesser. by destruct (ltb a a). Qed.

Lemma lesser_in a b : P a → P b → P (lesser ltb a b).
Proof. intros Pa Pb. unfold lesser. by destruct (ltb b a). Qed.

Lemma lesser_comm a b : P a → P b → lesser ltb a b = lesser ltb b a.
Proof.
  destruct Hord as (Hirr & Htr & Htot). intros Pa Pb. unfold lesser.
  destruct (ltb b a) eqn:Hba, (ltb a b) eqn:Hab; try done.
  - by rewrite (ltb_asym _ _ Pb Pa Hba) in Hab.
  - by apply Htot.
Qed.

Lemma lesser_assoc a b c :
  P a → P b → P c →
  lesser ltb a (lesser ltb b c) = lesser ltb (lesser ltb a b) c.
Proof.
  destruct Hord as (Hirr & Htr & Htot). intros Pa Pb Pc. unfold lesser.
  destruct (ltb c b) eqn:Hcb, (ltb b a) eqn:Hba; rewrite ?Hcb, ?Hba;
    try done.
  - by rewrite (Htr c b a Pc Pb Pa Hcb Hba).
  - destruct (ltb c a) eqn:Hca; [|done]. exfalso.
    destruct (ltb a b) eqn:Hab.
    + by rewrite (Htr c a b Pc Pa Pb Hca Hab) in Hcb.
    + rewrite (Htot a b Pa Pb Hab Hba) in Hca. congruence.
Qed.

Lemma lesser_lane a b :
  P a → P b → (if ltb a b then a else b) = lesser ltb a b.
Proof.
  destruct Hord as (Hirr & Htr & Htot). intros Pa Pb. unfold lesser.
  destruct (ltb a b) eqn:Hab, (ltb b a) eqn:Hba; try done.
  - by rewrite (ltb_asym _ _ Pa Pb Hab) in Hba.
  - symmetry. by apply Htot.
Qed.

Lemma fold_lesser_in l m : Forall P l → P m → P (fold_lesser ltb l m).
Proof.
  unfold fold_lesser. intros Hl. revert m.
  induction Hl as [|h l Ph Hl IH]; intros m Pm; simpl; [done|].
  apply IH. by apply lesser_in.
Qed.

Lemma fold_lesser_out l a m :
  Forall P l → P a → P m →
  fold_lesser ltb l (lesser ltb a m) = lesser ltb a (fold_lesser ltb l m).
Proof.
  unfold fold_lesser. intros Hl Pa. revert m.
  induction Hl as [|h l Ph Hl IH]; intros m Pm; simpl; [done|].
  rewrite <- IH by by apply lesser_in. f_equal.
  rewrite !lesser_assoc by done. f_equal. by apply lesser_comm.
Qed.

Lemma fold_lesser_cons h l m :
  fold_lesser ltb (h :: l) m = fold_lesser ltb l (lesser ltb h m).
Proof. done. Qed.

Lemma fold_lesser_app l1 l2 m :
  fold_lesser ltb (l1 ++ l2) m = fold_lesser ltb l2 (fold_lesser ltb l1 m).
Proof. unfold fold_lesser. by rewrite foldl_app. Qed.

Lemma zip_lane_in (v a : list F) :
  Forall P v → Forall P a →
  Forall P (zip_with (λ x y, if ltb x y then x else y) v a).
Proof.
  intros Hv. revert a. induction Hv as [|x v Px Hv IH];
    intros [|y a] Ha; cbn [zip_with]; try done.
  apply Forall_cons in Ha as [Py Ha]. constructor; [|by apply IH].
  by destruct (ltb x y).
Qed.

Lemma fold_lesser_zip (v a : list F) m :
  length v = length a → Forall P v → Forall P a → P m →
  fold_lesser ltb (zip_with (λ x y, if ltb x y then x else y) v a) m
  = fold_lesser ltb v (fold_lesser ltb a m).
Proof.
  intros Hlen Hv. revert a m Hlen.
  induction Hv as [|x v Px Hv IH]; intros [|y a] m Hlen Ha Pm;
    simpl in Hlen; try done.
  apply Forall_cons in Ha as [Py Ha].
  assert (Forall P (zip_with (λ x y, if ltb x y then x else y) v a))
    as Hz by by apply zip_lane_in.
  assert (P (fold_lesser ltb a m)) as Pf by by apply fold_lesser_in.
  assert (P (fold_lesser ltb v (fold_lesser ltb a m))) as Pff
    by by apply fold_lesser_in.
  cbn [zip_with]. rewrite !fold_lesser_cons.
  rewrite lesser_lane by done.
  rewrite (fold_lesser_out _ (lesser ltb x y) m Hz)
    by (done || by apply lesser_in).
  rewrite IH by (done || lia).
  rewrite (fold_lesser_out a y m) by done.
  rewrite (fold_lesser_out v x) by (done || by apply lesser_in).
  rewrite (fold_lesser_out v y) by done.
  by rewrite lesser_assoc.
Qed.

Lemma fold_lesser_replicate n m : fold_lesser ltb (replicate n m) m = m.
Proof.
  induction n as [|n IH]; [done|].
  cbn [replicate]. by rewrite fold_lesser_cons, lesser_idem.
Qed.

(** The lanes of the vector loop, folded, give the plain scan of the
    chunks it has loaded. *)
Lemma fold_lesser_lanes (chunks : list (list F)) w m :
  Forall (λ c, length c = w) chunks →
  Forall (Forall P) chunks → P m →
  let lanes :=
    foldl (λ a v, zip_with (λ x y, if ltb x y then x else y) v a)
          (replicate w m) chunks in
  length lanes = w ∧ Forall P lanes ∧
  fold_lesser ltb lanes m = fold_lesser ltb (mjoin chunks) m.
Proof.
  induction chunks as [|v chunks IH] using rev_ind; intros Hall HP Pm; simpl.
  - split; [apply length_replicate|]. split; [by apply Forall_replicate|].
    apply fold_lesser_replicate.
  - apply Forall_app in Hall as [Hall Hv].
    apply (proj1 (Forall_singleton _ _)) in Hv. simpl in Hv.
    apply Forall_app in HP as [HP Pv].
    apply (proj1 (Forall_singleton _ _)) in Pv.
    destruct (IH Hall HP Pm) as (Hlen & Hin & Hfold).
    rewrite foldl_app. simpl. split; [|split].
    + rewrite length_zip_with. lia.
    + by apply zip_lane_in.
    + rewrite fold_lesser_zip by (done || lia). rewrite Hfold.
      rewrite join_app, fold_lesser_app. simpl. by rewrite app_nil_r.
Qed.
End Lesser.

(** ** The SIMD scan is the plain scan *)

Section Scan.
Context {F : Type} `{Scalar F} `{Consts}.
Variable P : F → Prop.
Hypothesis Hord : strict_total_on fltb P.
Hypothesis Hsimd : 0 < simdSize.

Lemma bounds_of_pair (l : list F) m M :
  bounds_of l (m, M) =
  (fold_lesser fltb l m, fold_lesser (λ a b, fltb b a) l M).
Proof.
  unfold bounds_of, fold_lesser.
  revert m M; induction l as [|h l IH]; intros m M; simpl; [done|].
  apply IH.
Qed.

Lemma bounds_of_in (l : list F) b :
  Forall P l → P (b.1) → P (b.2) →
  P ((bounds_of l b).1) ∧ P ((bounds_of l b).2).
Proof.
  intros Hl P1 P2. destruct b as [m M]. rewrite bounds_of_pair. simpl.
  split; by apply fold_lesser_in.
Qed.

Lemma bounds_of_app (l1 l2 : list F) b :
  bounds_of (l1 ++ l2) b = bounds_of l2 (bounds_of l1 b).
Proof. unfold bounds_of. by rewrite foldl_app. Qed.

Lemma scan_loop (hm : list F) o k t :
  0 ≤ o → 0 ≤ k → o + k ≤ Z.of_nat (length hm) →
  forM (range_excl 0 k) (λ r t,
    h ← rd hm (o + r); Some (std_min h (t.1), std_max h (t.2))) t
  = Some (bounds_of (take (Z.to_nat k) (drop (Z.to_nat o) hm)) t).
Proof.
  intros Ho Hk. pattern k. apply natlike_ind; [| |done]; clear k Hk.
  - done.
  - intros k Hk IH Hle. unfold Z.succ.
    rewrite range_excl_snoc, forM_snoc by done.
    rewrite IH by lia. simpl.
    destruct (rd_in_range hm (o + k)) as [h Hh]; [lia|]. rewrite Hh. simpl.
    apply rd_Some in Hh as [_ Hh].
    replace (Z.to_nat (k + 1)) with (S (Z.to_nat k)) by lia.
    rewrite (take_S_r _ _ h), bounds_of_app; [done|].
    rewrite lookup_drop. rewrite <- Hh. f_equal. lia.
Qed.

Lemma lane_loop (a1 a2 : list F) t k :
  0 ≤ k → k ≤ Z.of_nat (length a1) → k ≤ Z.of_nat (length a2) →
  forM (range_excl 0 k) (λ i t,
    lo ← rd a1 i; hi ← rd a2 i;
    Some (std_min lo (t.1), std_max hi (t.2))) t
  = Some (fold_lesser fltb (take (Z.to_nat k) a1) (t.1),
          fold_lesser (λ a b, fltb b a) (take (Z.to_nat k) a2) (t.2)).
Proof.
  intros Hk. pattern k. apply natlike_ind; [| |done]; clear k Hk.
  - by destruct t.
  - intros k Hk IH H1 H2. unfold Z.succ.
    rewrite range_excl_snoc, forM_snoc by done.
    rewrite IH by lia. simpl.
    destruct (rd_in_range a1 k) as [lo Hlo]; [lia|].
    destruct (rd_in_range a2 k) as [hi Hhi]; [lia|].
    rewrite Hlo, Hhi. simpl.
    apply rd_Some in Hlo as [_ Hlo]. apply rd_Some in Hhi as [_ Hhi].
    replace (Z.to_nat (k + 1)) with (S (Z.to_nat k)) by lia.
    rewrite (take_S_r _ _ _ Hlo), (take_S_r _ _ _ Hhi).
    by rewrite !fold_lesser_app.
Qed.

Lemma simd_chunks_snoc (hm : list F) o q :
  0 ≤ q →
  simd_chunks hm o (q + 1) =
  simd_chunks hm o q ++
    [take (Z.to_nat simdSize) (drop (Z.to_nat (o + simdSize * q)) hm)].
Proof.
  intros Hq. unfold simd_chunks.
  by rewrite range_excl_snoc, fmap_app by done.
Qed.

Lemma simd_chunks_spec (hm : list F) o q :
  0 ≤ o → 0 ≤ q → o + simdSize * q ≤ Z.of_nat (length hm) →
  Forall (λ c, length c = Z.to_nat simdSize) (simd_chunks hm o q) ∧
  mjoin (simd_chunks hm o q) =
    take (Z.to_nat (simdSize * q)) (drop (Z.to_nat o) hm).
Proof.
  intros Ho Hq. pattern q. apply natlike_ind; [| |done]; clear q Hq.
  - intros _. rewrite Z.mul_0_r. by split.
  - intros q Hq IH Hle. unfold Z.succ.
    destruct IH as [IHall IHjoin]; [lia|].
    rewrite simd_chunks_snoc by done. split.
    + apply Forall_app. split; [done|]. apply Forall_singleton.
      rewrite length_take, length_drop. lia.
    + rewrite join_app, IHjoin. simpl. rewrite app_nil_r.
      replace (Z.to_nat (simdSize * (q + 1)))
        with (Z.to_nat (simdSize * q) + Z.to_nat simdSize)%nat by lia.
      rewrite <- take_take_drop, drop_drop. do 3 f_equal. lia.
Qed.

Lemma simd_chunks_in (hm : list F) o q :
  Forall P hm → Forall (Forall P) (simd_chunks hm o q).
Proof.
  intros Hhm. unfold simd_chunks. apply Forall_fmap, Forall_true.
  intros k. simpl. by apply Forall_take, Forall_drop.
Qed.

Lemma vector_loop (hm : list F) o q (acc : list F * list F) :
  0 ≤ o → 0 ≤ q → o + simdSize * q ≤ Z.of_nat (length hm) →
  forM (range_excl 0 q) (λ k acc,
    simdVec ← load_unaligned hm (o + (0 + simdSize * k));
    Some (xsimd_min simdVec (acc.1), xsimd_max simdVec (acc.2))) acc
  = Some (foldl (λ a v, xsimd_min v a) (acc.1) (simd_chunks hm o q),
          foldl (λ a v, xsimd_max v a) (acc.2) (simd_chunks hm o q)).
Proof.
  intros Ho Hq. pattern q. apply natlike_ind; [| |done]; clear q Hq.
  - intros _. by destruct acc.
  - intros q Hq IH Hle. unfold Z.succ.
    rewrite range_excl_snoc, forM_snoc by done.
    rewrite IH by lia. simpl.
    unfold load_unaligned. rewrite decide_True by lia. simpl.
    rewrite simd_chunks_snoc by done. rewrite !foldl_app. simpl.
    by replace (o + simdSize * q) with (o + (0 + simdSize * q)) by lia.
Qed.

Lemma range_step_from_0 w n :
  0 < w → 0 ≤ n →
  range_step w 0 (w * n) = (λ k, 0 + w * k) <$> range_excl 0 n.
Proof.
  intros Hw Hn. unfold range_step, range_excl. do 2 f_equal.
  replace (w * n - 0 + w - 1) with ((w - 1) + n * w) by lia.
  rewrite Z.div_add, Z.div_small by lia. lia.
Qed.

Lemma range_excl_shift a b :
  range_excl a b = Z.add a <$> range_excl 0 (b - a).
Proof.
  unfold range_excl. rewrite fmap_add_seqZ. f_equal; lia.
Qed.

Lemma lanes_length (f : F → F → F) (chunks : list (list F)) w m :
  Forall (λ c, length c = w) chunks →
  length (foldl (λ a v, zip_with f v a) (replicate w m) chunks) = w.
Proof.
  induction chunks as [|v chunks IH] using rev_ind; intros Hall; simpl.
  - apply length_replicate.
  - apply Forall_app in Hall as [Hall Hv].
    apply (proj1 (Forall_singleton _ _)) in Hv. simpl in Hv.
    rewrite foldl_app. simpl. rewrite length_zip_with, IH by done. lia.
Qed.

(** The vectorised scan of a slice inside the grid returns, whatever the
    values are. *)
Lemma UpdateTempHeightBoundsSIMD_total (hm : list F) idxBeg idxEnd temp :
  0 ≤ idxBeg → idxBeg ≤ idxEnd → idxEnd ≤ Z.of_nat (length hm) →
  is_Some (UpdateTempHeightBoundsSIMD idxBeg idxEnd hm temp).
Proof.
  intros Hb Hbe He. unfold UpdateTempHeightBoundsSIMD.
  set (indCnt := idxEnd - idxBeg).
  set (q := indCnt `div` simdSize).
  assert (Hvec : indCnt - indCnt `mod` simdSize = simdSize * q).
  { unfold q. pose proof (Z.div_mod indCnt simdSize). lia. }
  assert (Hq : 0 ≤ q) by (apply Z.div_pos; lia).
  assert (Hmod : 0 ≤ indCnt `mod` simdSize < simdSize)
    by (apply Z.mod_pos_bound; lia).
  rewrite Hvec. rewrite range_step_from_0 by lia. rewrite forM_fmap.
  rewrite (vector_loop hm idxBeg q) by lia. simpl.
  destruct (simd_chunks_spec hm idxBeg q) as [Hall Hjoin]; [lia..|].
  unfold xsimd_min, xsimd_max.
  rewrite lane_loop
    by (rewrite ?(lanes_length _ _ (Z.to_nat simdSize)) by done; lia).
  simpl.
  rewrite range_excl_shift, forM_fmap.
  rewrite (forM_ext _ _ (λ r t,
             h ← rd hm ((idxBeg + simdSize * q) + r);
             Some (std_min h (t.1), std_max h (t.2))))
    by (intros; by rewrite Z.add_assoc).
  rewrite scan_loop by lia. done.
Qed.

(** The vectorised scan of a slice computes what the plain scan of the
    slice computes. *)
Lemma UpdateTempHeightBoundsSIMD_scan (hm : list F) idxBeg idxEnd temp :
  Forall P hm → P (temp.1) → P (temp.2) →
  0 ≤ idxBeg → idxBeg ≤ idxEnd → idxEnd ≤ Z.of_nat (length hm) →
  UpdateTempHeightBoundsSIMD idxBeg idxEnd hm temp =
  Some (bounds_of (take (Z.to_nat (idxEnd - idxBeg))
                        (drop (Z.to_nat idxBeg) hm)) temp).
Proof.
  intros Hhm Pt1 Pt2 Hb Hbe He. unfold UpdateTempHeightBoundsSIMD.
  set (indCnt := idxEnd - idxBeg).
  set (q := indCnt `div` simdSize).
  assert (Hvec : indCnt - indCnt `mod` simdSize = simdSize * q).
  { unfold q. pose proof (Z.div_mod indCnt simdSize). lia. }
  assert (Hq : 0 ≤ q) by (apply Z.div_pos; lia).
  assert (Hmod : 0 ≤ indCnt `mod` simdSize < simdSize)
    by (apply Z.mod_pos_bound; lia).
  rewrite Hvec. rewrite range_step_from_0 by lia. rewrite forM_fmap.
  rewrite (vector_loop hm idxBeg q) by lia. simpl.
  destruct (simd_chunks_spec hm idxBeg q) as [Hall Hjoin]; [lia..|].
  pose proof (simd_chunks_in hm idxBeg q Hhm) as Hin.
  destruct (fold_lesser_lanes fltb P Hord _ _ (temp.1) Hall Hin Pt1)
    as (Hl1 & _ & Hf1).
  destruct (fold_lesser_lanes (λ a b, fltb b a) P
              (strict_total_flip fltb P Hord) _ _ (temp.2) Hall Hin Pt2)
    as (Hl2 & _ & Hf2).
  unfold xsimd_min, xsimd_max.
  rewrite lane_loop by lia. simpl.
  rewrite !firstn_all2 by lia.
  rewrite Hf1, Hf2, Hjoin.
  rewrite range_excl_shift, forM_fmap.
  rewrite (forM_ext _ _ (λ r t,
             h ← rd hm ((idxBeg + simdSize * q) + r);
             Some (std_min h (t.1), std_max h (t.2))))
    by (intros; by rewrite Z.add_assoc).
  rewrite scan_loop by lia.
  rewrite <- bounds_of_pair. rewrite <- bounds_of_app.
  replace (Z.to_nat (idxBeg + simdSize * q))
    with (Z.to_nat idxBeg + Z.to_nat (simdSize * q))%nat by lia.
  rewrite <- drop_drop, take_take_drop. do 2 f_equal; [|by destruct temp].
  f_equal. lia.
Qed.
End Scan.

(** ** The paced scan over a pacing cycle *)

Section Paced.
Context {F : Type} `{Scalar F} `{Consts}.
Variable P : F → Prop.
Hypothesis Hord : strict_total_on fltb P.
Hypothesis Hsimd : 0 < simdSize.
Hypothesis Hpace : 0 < GAME_SPEED.
Variable mapDims : MapDimensions.

Lemma int_mul_x k :
  slices_fit mapDims → 0 ≤ k ≤ GAME_SPEED →
  int_mul k (mapxp1 mapDims) = Some (k * mapxp1 mapDims).
Proof.
  unfold slices_fit, int_mul, INT_MIN, mapxp1, mapyp1.
  intros (Hx & Hy & Hfit) Hk. rewrite decide_True; [done|].
  split; [nia|].
  apply Z.le_trans with (GAME_SPEED * ((mapx mapDims + 1) * (mapy mapDims + 1)));
    [nia|done].
Qed.

Lemma int_mul_xy k :
  slices_fit mapDims → 0 ≤ k ≤ GAME_SPEED →
  int_mul (k * mapxp1 mapDims) (mapyp1 mapDims)
  = Some (k * mapxp1 mapDims * mapyp1 mapDims).
Proof.
  unfold slices_fit, int_mul, INT_MIN, mapxp1, mapyp1.
  intros (Hx & Hy & Hfit) Hk. rewrite decide_True; [done|].
  split; [nia|].
  apply Z.le_trans with (GAME_SPEED * ((mapx mapDims + 1) * (mapy mapDims + 1)));
    [nia|done].
Qed.

Lemma slice_bounds (n k : Z) :
  0 ≤ n → 0 ≤ k →
  0 ≤ Z.quot (k * n) GAME_SPEED ≤ Z.quot ((k + 1) * n) GAME_SPEED.
Proof.
  intros Hn Hk. rewrite !Z.quot_div_nonneg by nia. split.
  - apply Z.div_pos; nia.
  - apply Z.div_le_mono; nia.
Qed.

Lemma slice_last (n : Z) : Z.quot (GAME_SPEED * n) GAME_SPEED = n.
Proof. rewrite Z.mul_comm. apply Z.quot_mul. lia. Qed.

Lemma slice_le (n k : Z) :
  0 ≤ n → 0 ≤ k ≤ GAME_SPEED → Z.quot (k * n) GAME_SPEED ≤ n.
Proof.
  intros Hn Hk. rewrite Z.quot_div_nonneg by nia.
  apply Z.div_le_upper_bound; nia.
Qed.

Lemma rem_in_cycle f j :
  0 ≤ f → Z.rem f GAME_SPEED = 0 → 0 ≤ j < GAME_SPEED →
  Z.rem (f + j) GAME_SPEED = j.
Proof.
  intros Hf Hrem Hj. rewrite Z.rem_mod_nonneg in * by lia.
  apply Z.mod_divide in Hrem as [t ->]; [|lia].
  rewrite Z.add_comm, Z.mod_add by lia. apply Z.mod_small. lia.
Qed.

Lemma UpdateHeightBounds_full (s : CReadMap F) :
  Forall P (heightMapSynced s) → P FLT_MAX → P FLT_LOWEST →
  Z.of_nat (length (heightMapSynced s)) = mapxp1 mapDims * mapyp1 mapDims →
  UpdateHeightBounds mapDims s =
  Some (set_bounds s
          (bounds_of (heightMapSynced s) (FLT_MAX, FLT_LOWEST))
          (bounds_of (heightMapSynced s) (FLT_MAX, FLT_LOWEST))
          (hmUpdated s) (processingHeightBounds s)).
Proof.
  intros Hhm Pmax Plow Hlen. unfold UpdateHeightBounds.
  rewrite (UpdateTempHeightBoundsSIMD_scan P) by (done || lia).
  rewrite Z.sub_0_r. change (Z.to_nat 0) with 0%nat.
  rewrite drop_0, firstn_all2 by lia. done.
Qed.

(** The first [j] calls of a cycle that starts with [hmUpdated] set: the
    provisional bounds cover the slices scanned so far, the current bounds
    hold what the first call committed. *)
Lemma paced_prefix (s : CReadMap F) f j :
  Forall P (heightMapSynced s) → P FLT_MAX → P FLT_LOWEST →
  slices_fit mapDims →
  Z.of_nat (length (heightMapSynced s)) = mapxp1 mapDims * mapyp1 mapDims →
  hmUpdated s = true →
  0 ≤ f → Z.rem f GAME_SPEED = 0 → 1 ≤ j ≤ GAME_SPEED →
  forM (range_excl f (f + j)) (UpdateHeightBounds_paced mapDims) s =
  Some (set_bounds s
          (bounds_of
             (take (Z.to_nat (Z.quot (j * mapxp1 mapDims * mapyp1 mapDims)
                                     GAME_SPEED))
                   (heightMapSynced s))
             (FLT_MAX, FLT_LOWEST))
          (if processingHeightBounds s
           then tempHeightBounds s else currHeightBounds s)
          false true).
Proof.
  intros Hhm Pmax Plow Hfit Hlen Hup Hf Hrem [Hj1 HjP].
  pose proof (λ k, int_mul_x k Hfit) as Ex.
  pose proof (λ k, int_mul_xy k Hfit) as Exy.
  set (n := mapxp1 mapDims * mapyp1 mapDims) in *.
  assert (Hn : 0 ≤ n) by lia.
  assert (Hidx : ∀ k, k * mapxp1 mapDims * mapyp1 mapDims = k * n)
    by (intros; unfold n; lia).
  revert HjP. pattern j. apply (Zlt_lower_bound_ind _ 1); [|done].
  clear j Hj1. intros j IH Hj1 HjP.
  destruct (decide (j = 1)) as [->|Hne].
  - rewrite range_excl_cons, range_excl_nil by lia. simpl.
    unfold UpdateHeightBounds_paced.
    rewrite Hrem.
    rewrite !decide_True by done. simpl. rewrite Hup. simpl.
    rewrite !Ex by lia. simpl. rewrite !Exy by lia. simpl.
    rewrite !Hidx.
    pose proof (slice_bounds n 0 Hn ltac:(lia)) as Hs.
    pose proof (slice_le n 1 Hn ltac:(lia)) as Hs1.
    change ((0 + 0) * n) with 0 in *. change (0 + 1) with 1 in *.
    rewrite Z.quot_0_l in * by lia.
    rewrite (UpdateTempHeightBoundsSIMD_scan P) by (done || lia).
    simpl. by rewrite Z.sub_0_r.
  - replace (f + j) with ((f + (j - 1)) + 1) by lia.
    rewrite range_excl_snoc, forM_snoc by lia.
    rewrite IH by lia. simpl.
    unfold UpdateHeightBounds_paced.
    rewrite rem_in_cycle by lia.
    rewrite !decide_False by lia. simpl.
    rewrite (Ex (j - 1 + 0)) by lia. simpl.
    rewrite (Exy (j - 1 + 0)) by lia. simpl.
    rewrite (Ex (j - 1 + 1)) by lia. simpl.
    rewrite (Exy (j - 1 + 1)) by lia. simpl.
    rewrite !Hidx.
    replace (j - 1 + 0) with (j - 1) by lia.
    replace (j - 1 + 1) with j by lia.
    pose proof (slice_bounds n (j - 1) Hn ltac:(lia)) as Hs.
    pose proof (slice_le n j Hn ltac:(lia)) as Hsj.
    replace (j - 1 + 1) with j in Hs by lia.
    destruct (bounds_of_in P
                (take (Z.to_nat (Z.quot ((j - 1) * n) GAME_SPEED))
                      (heightMapSynced s)) (FLT_MAX, FLT_LOWEST))
      as [Pb1 Pb2]; [by apply Forall_take|done|done|].
    rewrite (UpdateTempHeightBoundsSIMD_scan P) by (done || lia).
    simpl. unfold set_bounds; simpl. do 2 f_equal.
    rewrite <- bounds_of_app. f_equal.
    rewrite take_take_drop. f_equal. lia.
Qed.
End Paced.

(** * Exact arithmetic: the numbers the pipeline computes *)

Local Open Scope R_scope.

Lemma Rltb_true a b : Rltb a b = true ↔ a < b.
Proof. unfold Rltb. destruct (Rlt_dec a b); split; (done || lra). Qed.

Lemma Rltb_false a b : Rltb a b = false ↔ b <= a.
Proof. unfold Rltb. destruct (Rlt_dec a b); split; (done || lra). Qed.

Lemma Rltb_strict_total : strict_total Rltb.
Proof.
  repeat split.
  - intros a. apply Rltb_false. lra.
  - intros a b c Hab%Rltb_true Hbc%Rltb_true. apply Rltb_true. lra.
  - intros a b Hab%Rltb_false Hba%Rltb_false. lra.
Qed.

Lemma R_std_min_spec (a b : R) :
  std_min a b <= a ∧ std_min a b <= b ∧ (std_min a b = a ∨ std_min a b = b).
Proof.
  unfold std_min; simpl. destruct (Rltb b a) eqn:E.
  - apply Rltb_true in E. repeat split; (lra || auto).
  - apply Rltb_false in E. repeat split; (lra || auto).
Qed.

(** The [y] component of a normalised vector whose [y] component is the
    positive square size lies in (0, 1]. *)
Lemma R_unit_y (x z S : R) :
  0 < S → 0 < S * (1 / sqrt (x * x + S * S + z * z)) <= 1.
Proof.
  intros HS.
  assert (Hle : S <= sqrt (x * x + S * S + z * z)).
  { rewrite <- (sqrt_square S) at 1 by lra. apply sqrt_le_1_alt. nra. }
  assert (Hpos : 0 < sqrt (x * x + S * S + z * z)) by lra.
  split.
  - apply Rmult_lt_0_compat; [done|]. apply Rdiv_lt_0_compat; lra.
  - unfold Rdiv. rewrite Rmult_1_l.
    apply (Rmult_le_reg_r (sqrt (x * x + S * S + z * z))); [done|].
    rewrite Rmult_assoc, Rinv_l by lra. lra.
Qed.

Lemma R_slope_of_unit (n0 n1 n2 n3 n4 n5 n6 n7 : R) :
  0 < n0 <= 1 → 0 < n1 <= 1 → 0 < n2 <= 1 → 0 < n3 <= 1 →
  0 < n4 <= 1 → 0 < n5 <= 1 → 0 < n6 <= 1 → 0 < n7 <= 1 →
  0 <= slope_of n0 n1 n2 n3 n4 n5 n6 n7 <= 1.
Proof.
  intros H0 H1 H2 H3 H4 H5 H6 H7. unfold slope_of, mix. cbn [fadd fsub fmul fdiv f_of_Z f_eighth R_Scalar].
  pose proof (R_std_min_spec n0 n1) as (? & ? & ?).
  set (m1 := std_min n0 n1) in *.
  pose proof (R_std_min_spec m1 n2) as (? & ? & ?).
  set (m2 := std_min m1 n2) in *.
  pose proof (R_std_min_spec m2 n3) as (? & ? & ?).
  set (m3 := std_min m2 n3) in *.
  pose proof (R_std_min_spec m3 n4) as (? & ? & ?).
  set (m4 := std_min m3 n4) in *.
  pose proof (R_std_min_spec m4 n5) as (? & ? & ?).
  set (m5 := std_min m4 n5) in *.
  pose proof (R_std_min_spec m5 n6) as (? & ? & ?).
  set (m6 := std_min m5 n6) in *.
  pose proof (R_std_min_spec m6 n7) as (? & ? & ?).
  set (m := std_min m6 n7) in *.
  set (avg := (0 + n0 + n1 + n2 + n3 + n4 + n5 + n6 + n7) * / 8).
  assert (Hm : 0 < m <= 1) by lra.
  assert (Hma : m <= avg) by (unfold avg; lra).
  assert (Ha1 : avg <= 1) by (unfold avg; lra).
  assert (Ht : m / avg * avg = m) by (field; lra).
  assert (Ht1 : 0 < m / avg <= 1).
  { split; [apply Rdiv_lt_0_compat; lra|].
    apply (Rmult_le_reg_r avg); [lra|]. rewrite Ht. lra. }
  set (t := m / avg) in *. nra.
Qed.

Lemma R_std_min_idem (a : R) : std_min a a = a.
Proof. unfold std_min. by destruct (fltb a a). Qed.

Lemma R_slope_of_flat : slope_of 1 1 1 1 1 1 1 1 = 0.
Proof.
  unfold slope_of, mix. rewrite !R_std_min_idem.
  cbn [fadd fsub fmul fdiv f_of_Z f_eighth R_Scalar]. field.
Qed.

Section RealFaces.
Context `{Consts}.
Hypothesis HS : (0 < SQUARE_SIZE)%Z.

Lemma R_face_TL_unit (hTL hTR hBL : R) : 0 < fy (face_TL hTL hTR hBL) <= 1.
Proof.
  unfold face_TL, Normalize, SqLength.
  cbn [fx fy fz fadd fsub fmul fdiv fneg fsqrt f_of_Z R_Scalar].
  apply R_unit_y. by apply IZR_lt.
Qed.

Lemma R_face_BR_unit (hTR hBL hBR : R) : 0 < fy (face_BR hTR hBL hBR) <= 1.
Proof.
  unfold face_BR, Normalize, SqLength.
  cbn [fx fy fz fadd fsub fmul fdiv fneg fsqrt f_of_Z R_Scalar].
  apply R_unit_y. by apply IZR_lt.
Qed.

Lemma R_face_TL_flat (h : R) : fy (face_TL h h h) = 1.
Proof.
  unfold face_TL, Normalize, SqLength.
  cbn [fx fy fz fadd fsub fmul fdiv fneg fsqrt f_of_Z R_Scalar].
  assert (0 < IZR SQUARE_SIZE) by by apply IZR_lt.
  replace (- (h - h) * - (h - h) + IZR SQUARE_SIZE * IZR SQUARE_SIZE +
           - (h - h) * - (h - h))
    with (IZR SQUARE_SIZE * IZR SQUARE_SIZE) by ring.
  rewrite sqrt_square by lra. field. lra.
Qed.

Lemma R_face_BR_flat (h : R) : fy (face_BR h h h) = 1.
Proof.
  unfold face_BR, Normalize, SqLength.
  cbn [fx fy fz fadd fsub fmul fdiv fneg fsqrt f_of_Z R_Scalar].
  assert (0 < IZR SQUARE_SIZE) by by apply IZR_lt.
  replace ((h - h) * (h - h) + IZR SQUARE_SIZE * IZR SQUARE_SIZE +
           (h - h) * (h - h))
    with (IZR SQUARE_SIZE * IZR SQUARE_SIZE) by ring.
  rewrite sqrt_square by lra. field. lra.
Qed.
End RealFaces.

Local Close Scope R_scope.

(** ** What the face-normal and slope steps write *)

Section WrittenValues.
Context {F : Type} `{Scalar F} `{Consts}.
Variable mapDims : MapDimensions.

Lemma face_writes_FaceS init (hm : list F) ys xs i v :
  nest_writes (face_writes mapDims init hm) ys xs (mkNAct BFaceS i v) →
  ∃ a b c, a ∈ hm ∧ b ∈ hm ∧ c ∈ hm ∧
           (v = face_TL a b c ∨ v = face_BR a b c).
Proof.
  intros (y & x & acts & _ & _ & Hg & Hin). unfold face_writes in Hg.
  destruct (rd hm (y * mapxp1 mapDims + x)) as [hTL|] eqn:E1;
    simpl in Hg; [|done].
  destruct (rd hm (y * mapxp1 mapDims + x + 1)) as [hTR|] eqn:E2;
    simpl in Hg; [|done].
  destruct (rd hm ((y + 1) * mapxp1 mapDims + x)) as [hBL|] eqn:E3;
    simpl in Hg; [|done].
  destruct (rd hm ((y + 1) * mapxp1 mapDims + x + 1)) as [hBR|] eqn:E4;
    simpl in Hg; [|done].
  apply rd_Some in E1 as [_ E1%list_elem_of_lookup_2].
  apply rd_Some in E2 as [_ E2%list_elem_of_lookup_2].
  apply rd_Some in E3 as [_ E3%list_elem_of_lookup_2].
  apply rd_Some in E4 as [_ E4%list_elem_of_lookup_2].
  injection Hg as <-.
  destruct (USE_UNSYNCED_HEIGHTMAP && init); simpl in Hin;
    repeat (apply elem_of_cons in Hin as [Hin|Hin]; [simplify_eq|]);
    try (by apply elem_of_nil in Hin); eauto 10.
Qed.

Lemma slope_writes_value (fn : list (float3 F)) ys xs i v :
  nest_writes (slope_writes mapDims fn) ys xs (i, v) →
  ∃ n0 n1 n2 n3 n4 n5 n6 n7,
    n0 ∈ fn ∧ n1 ∈ fn ∧ n2 ∈ fn ∧ n3 ∈ fn ∧
    n4 ∈ fn ∧ n5 ∈ fn ∧ n6 ∈ fn ∧ n7 ∈ fn ∧
    v = slope_of (fy n0) (fy n1) (fy n2) (fy n3)
                 (fy n4) (fy n5) (fy n6) (fy n7).
Proof.
  intros (y & x & acts & _ & _ & Hg & Hin).
  unfold slope_writes in Hg. cbv zeta in Hg.
  destruct (rd fn ((y * 2 * mapx mapDims + x * 2) * 2)) as [n0|] eqn:E0;
    simpl in Hg; [|done].
  destruct (rd fn ((y * 2 * mapx mapDims + x * 2) * 2 + 1)) as [n1|] eqn:E1;
    simpl in Hg; [|done].
  destruct (rd fn ((y * 2 * mapx mapDims + x * 2 + 1) * 2)) as [n2|] eqn:E2;
    simpl in Hg; [|done].
  destruct (rd fn ((y * 2 * mapx mapDims + x * 2 + 1) * 2 + 1)) as [n3|] eqn:E3;
    simpl in Hg; [|done].
  destruct (rd fn (((y * 2 + 1) * mapx mapDims + x * 2) * 2)) as [n4|] eqn:E4;
    simpl in Hg; [|done].
  destruct (rd fn (((y * 2 + 1) * mapx mapDims + x * 2) * 2 + 1)) as [n5|] eqn:E5;
    simpl in Hg; [|done].
  destruct (rd fn (((y * 2 + 1) * mapx mapDims + x * 2 + 1) * 2)) as [n6|] eqn:E6;
    simpl in Hg; [|done].
  destruct (rd fn (((y * 2 + 1) * mapx mapDims + x * 2 + 1) * 2 + 1)) as [n7|] eqn:E7;
    simpl in Hg; [|done].
  apply rd_Some in E0 as [_ E0%list_elem_of_lookup_2].
  apply rd_Some in E1 as [_ E1%list_elem_of_lookup_2].
  apply rd_Some in E2 as [_ E2%list_elem_of_lookup_2].
  apply rd_Some in E3 as [_ E3%list_elem_of_lookup_2].
  apply rd_Some in E4 as [_ E4%list_elem_of_lookup_2].
  apply rd_Some in E5 as [_ E5%list_elem_of_lookup_2].
  apply rd_Some in E6 as [_ E6%list_elem_of_lookup_2].
  apply rd_Some in E7 as [_ E7%list_elem_of_lookup_2].
  injection Hg as <-. apply list_elem_of_singleton in Hin.
  injection Hin as _ ->.
  exists n0, n1, n2, n3, n4, n5, n6, n7. by repeat split.
Qed.

(** On the whole map, every cell of the face-normal buffer is written. *)
Lemma face_writes_cover init (hm : list F) ys xs i :
  0 < mapx mapDims → 0 < mapy mapDims →
  (∀ y, 0 ≤ y ≤ mapy mapDims - 1 → y ∈ ys) →
  (∀ x, 0 ≤ x ≤ mapx mapDims - 1 → x ∈ xs) →
  (∀ y x, y ∈ ys → x ∈ xs → is_Some (face_writes mapDims init hm y x)) →
  0 ≤ i < mapx mapDims * mapy mapDims * 2 →
  ∃ v, nest_writes (face_writes mapDims init hm) ys xs (mkNAct BFaceS i v).
Proof.
  intros Hmx Hmy Hys Hxs Hreads Hi.
  set (sq := i `div` 2). set (b := i `mod` 2).
  set (y := sq `div` mapx mapDims). set (x := sq `mod` mapx mapDims).
  assert (Hsq : i = sq * 2 + b) by (unfold sq, b; pose proof (Z.div_mod i 2); lia).
  assert (Hb : 0 ≤ b < 2) by (apply Z.mod_pos_bound; lia).
  assert (Hyx : sq = y * mapx mapDims + x)
    by (unfold y, x; pose proof (Z.div_mod sq (mapx mapDims)); lia).
  assert (Hx : 0 ≤ x < mapx mapDims) by (apply Z.mod_pos_bound; lia).
  assert (Hsq0 : 0 ≤ sq < mapx mapDims * mapy mapDims) by lia.
  assert (Hy : 0 ≤ y ≤ mapy mapDims - 1).
  { split; [apply Z.div_pos; lia|].
    assert (y < mapy mapDims); [|lia].
    apply Z.div_lt_upper_bound; lia. }
  assert (Hyin : y ∈ ys) by (apply Hys; lia).
  assert (Hxin : x ∈ xs) by (apply Hxs; lia).
  destruct (Hreads y x Hyin Hxin) as [acts Hacts].
  pose proof Hacts as Hacts'. unfold face_writes in Hacts'.
  destruct (rd hm (y * mapxp1 mapDims + x)) as [hTL|];
    simpl in Hacts'; [|done].
  destruct (rd hm (y * mapxp1 mapDims + x + 1)) as [hTR|];
    simpl in Hacts'; [|done].
  destruct (rd hm ((y + 1) * mapxp1 mapDims + x)) as [hBL|];
    simpl in Hacts'; [|done].
  destruct (rd hm ((y + 1) * mapxp1 mapDims + x + 1)) as [hBR|];
    simpl in Hacts'; [|done].
  injection Hacts' as Hacts'. rewrite <- Hyx in Hacts'.
  destruct (decide (b = 0)) as [Hb0|Hb0].
  - exists (face_TL hTL hTR hBL), y, x, acts. repeat split; try done.
    rewrite <- Hacts'. replace i with (sq * 2) by lia. left.
  - exists (face_BR hTR hBL hBR), y, x, acts. repeat split; try done.
    rewrite <- Hacts'. replace i with (sq * 2 + 1) by lia. right; left.
Qed.

Lemma pipeline_faces_Forall (P : float3 F → Prop) (Q : F → Prop)
    rect (s s' : CReadMap F) :
  UpdateHeightMapSynced mapDims rect s = Some s' →
  Forall Q (heightMapSynced s) →
  (∀ a b c, Q a → Q b → Q c → P (face_TL a b c)) →
  (∀ a b c, Q a → Q b → Q c → P (face_BR a b c)) →
  (Forall P (faceNormalsSynced s) ∨
   (rect = mkRect 0 0 (mapx mapDims) (mapy mapDims) ∧
    0 < mapx mapDims ∧ 0 < mapy mapDims ∧
    Z.of_nat (length (faceNormalsSynced s))
      = mapx mapDims * mapy mapDims * 2)) →
  Forall P (faceNormalsSynced s').
Proof.
  intros Hrun HQ HTL HBR Hold.
  destruct (pipeline_inv mapDims rect s s' Hrun) as (_ & _ & _ & Hn & _).
  pose proof (face_collects mapDims
    (SRectangle_eqb rect (mkRect 0 0 (mapx mapDims) (mapy mapDims)))
    (heightMapSynced s)) as Hcol.
  unfold UpdateFaceNormals in Hn.
  apply (norm_nest_Forall _ _ _ _ (λ y x n, Hcol y x n) P BFaceS _ _ Hn).
  - intros i v (a & b & c & Ha & Hb & Hc & [->| ->])%face_writes_FaceS.
    + apply HTL; by eapply Forall_forall.
    + apply HBR; by eapply Forall_forall.
  - destruct Hold as [Hall|(-> & Hmx & Hmy & Hlen)]; [by left|right].
    simpl. intros i Hi. apply face_writes_cover; try done.
    + intros y Hy. apply elem_of_range_incl.
      unfold centerRect_of, mapym1; simpl. lia.
    + intros x Hx. apply elem_of_range_incl.
      unfold centerRect_of, mapxm1; simpl. lia.
    + intros y x Hy Hx.
      apply (nest_reads napp _ _ _ _ (λ y x n, Hcol y x n) _ _ y x Hn Hy Hx).
    + lia.
Qed.

Lemma pipeline_slope_Forall (P : F → Prop) rect (s s' : CReadMap F) :
  UpdateHeightMapSynced mapDims rect s = Some s' →
  Forall P (slopeMap s) →
  (∀ n0 n1 n2 n3 n4 n5 n6 n7,
     n0 ∈ faceNormalsSynced s' → n1 ∈ faceNormalsSynced s' →
     n2 ∈ faceNormalsSynced s' → n3 ∈ faceNormalsSynced s' →
     n4 ∈ faceNormalsSynced s' → n5 ∈ faceNormalsSynced s' →
     n6 ∈ faceNormalsSynced s' → n7 ∈ faceNormalsSynced s' →
     P (slope_of (fy n0) (fy n1) (fy n2) (fy n3)
                 (fy n4) (fy n5) (fy n6) (fy n7))) →
  Forall P (slopeMap s').
Proof.
  intros Hrun Hold HP.
  destruct (pipeline_inv mapDims rect s s' Hrun) as (_ & _ & _ & _ & Hs).
  pose proof (slope_collects mapDims (faceNormalsSynced s')) as Hcol.
  unfold UpdateSlopemap in Hs.
  apply (buf_nest_Forall _ _ _ _ (λ y x t, Hcol y x t) P _ _ Hs);
    [|by left].
  intros i v (n0 & n1 & n2 & n3 & n4 & n5 & n6 & n7 & H0' & H1' & H2' &
              H3' & H4' & H5' & H6' & H7' & ->)%slope_writes_value.
  by apply HP.
Qed.
End WrittenValues.

(** ** Initialisation *)

Section InitFacts.
Context {F : Type} `{Scalar F} `{Consts}.
Variable mapDims : MapDimensions.

Lemma length_resized {A} (n : Z) (x : A) :
  0 ≤ n → Z.of_nat (length (resized n x)) = n.
Proof. intros Hn. unfold resized. rewrite length_replicate. lia. Qed.

Lemma allocate_wf (hm : list F) :
  dims_ok mapDims →
  Z.of_nat (length hm) = mapxp1 mapDims * mapyp1 mapDims →
  wf_state mapDims (allocate (F:=F) mapDims hm).
Proof.
  intros (HL & Hmx & Hmy & _ & _) Hhm.
  assert (∀ i, 0 ≤ Z.shiftr (mapx mapDims) i * Z.shiftr (mapy mapDims) i).
  { intros i. apply Z.mul_nonneg_nonneg; apply Z.shiftr_nonneg; lia. }
  unfold wf_state, allocate, hmapx, hmapy; simpl.
  rewrite !length_resized by (try done; nia).
  repeat split; try done.
  - rewrite length_fmap. unfold range_excl. rewrite length_seqZ. lia.
  - intros i l [Hi Hl]%rd_Some.
    rewrite list_lookup_fmap in Hl.
    destruct (range_excl 1 numHeightMipMaps !! Z.to_nat (i - 1))
      as [k|] eqn:Hk; simpl in Hl; [|done].
    apply lookup_seqZ in Hk as [-> _]. injection Hl as <-.
    rewrite length_resized by done. do 2 f_equal; lia.
Qed.


Lemma InitHeightBounds_keeps (s s1 : CReadMap F) :
  InitHeightBounds mapDims s = Some s1 →
  heightMapSynced s1 = heightMapSynced s ∧
  centerHeightMap s1 = centerHeightMap s ∧
  mipCenterHeightMaps s1 = mipCenterHeightMaps s ∧
  faceNormalsSynced s1 = faceNormalsSynced s ∧
  faceNormalsUnsynced s1 = faceNormalsUnsynced s ∧
  centerNormalsSynced s1 = centerNormalsSynced s ∧
  centerNormalsUnsynced s1 = centerNormalsUnsynced s ∧
  centerNormals2D s1 = centerNormals2D s ∧
  slopeMap s1 = slopeMap s.
Proof.
  unfold InitHeightBounds. intros Hrun.
  destruct (forM _ _ (mapFileHeightMap s)) as [mf|]; simpl in Hrun; [|done].
  destruct (forM _ _ (originalHeightMap s, _)) as [r|]; simpl in Hrun; [|done].
  injection Hrun as <-. by repeat split.
Qed.




Lemma Initialize_inv (hm : list F) (s : CReadMap F) :
  Initialize mapDims hm = Returned s →
  ∃ s1, InitHeightBounds mapDims (allocate mapDims hm) = Some s1 ∧
        UpdateHeightMapSynced mapDims
          (mkRect 0 0 (mapx mapDims) (mapy mapDims)) s1 = Some s.
Proof.
  unfold Initialize. intros Hrun.
  destruct (existsb _ _); [done|].
  destruct (InitHeightBounds mapDims (allocate mapDims hm)) as [s1|];
    simpl in Hrun; [|done].
  destruct (UpdateHeightMapSynced _ _ s1) as [s'|] eqn:E;
    simpl in Hrun; [|done].
  injection Hrun as <-. eauto.
Qed.

End InitFacts.

(** ** Slopes over the reals *)

Section RealSlopes.
Context `{Consts}.
Hypothesis HS : 0 < SQUARE_SIZE.
Variable mapDims : MapDimensions.
Hypothesis Hmx : 0 < mapx mapDims.
Hypothesis Hmy : 0 < mapy mapDims.

Lemma R_pipeline_slopes rect (s s' : CReadMap R) :
  UpdateHeightMapSynced mapDims rect s = Some s' →
  (Forall (λ n, 0 < fy n <= 1)%R (faceNormalsSynced s) ∨
   (rect = mkRect 0 0 (mapx mapDims) (mapy mapDims) ∧
    Z.of_nat (length (faceNormalsSynced s))
      = mapx mapDims * mapy mapDims * 2)) →
  Forall (λ v, 0 <= v <= 1)%R (slopeMap s) →
  Forall (λ n, 0 < fy n <= 1)%R (faceNormalsSynced s') ∧
  Forall (λ v, 0 <= v <= 1)%R (slopeMap s').
Proof.
  intros Hrun Hfaces Hslopes.
  assert (Hf' : Forall (λ n, 0 < fy n <= 1)%R (faceNormalsSynced s')).
  { apply (pipeline_faces_Forall mapDims _ (λ _, True) rect s s' Hrun).
    - by apply Forall_true.
    - intros. by apply R_face_TL_unit.
    - intros. by apply R_face_BR_unit.
    - destruct Hfaces as [|[-> Hlen]]; [by left|right; done]. }
  split; [done|].
  apply (pipeline_slope_Forall mapDims _ rect s s' Hrun Hslopes).
  intros n0 n1 n2 n3 n4 n5 n6 n7 H0' H1' H2' H3' H4' H5' H6' H7'.
  pose proof (proj1 (Forall_forall _ _) Hf') as Hall.
  apply R_slope_of_unit; by apply Hall.
Qed.

Lemma R_reachable_slopes (s : CReadMap R) :
  reachable mapDims s →
  Forall (λ n, 0 < fy n <= 1)%R (faceNormalsSynced s) ∧
  Forall (λ v, 0 <= v <= 1)%R (slopeMap s).
Proof.
  induction 1 as [hm s Hinit|s hm rect updated s' Hreach IH Hlen Hrun].
  - apply Initialize_inv in Hinit as (s1 & Hs1 & Hrun).
    destruct (InitHeightBounds_keeps _ _ _ Hs1)
      as (_ & _ & _ & E4 & _ & _ & _ & _ & E9).
    apply (R_pipeline_slopes _ s1 s Hrun).
    + right. split; [done|]. rewrite E4. simpl.
      apply length_resized. nia.
    + rewrite E9. simpl. apply Forall_replicate. simpl. lra.
  - destruct IH as [IHf IHs].
    apply (R_pipeline_slopes rect _ s' Hrun); [by left|done].
Qed.
End RealSlopes.

(** Over the reals, in exact arithmetic: in every state reached from
    [Initialize] by rounds in which arbitrary corner heights are written and
    the pipeline is run on an arbitrary rectangle, every value of the slope
    map lies in the closed interval [0,1]. *)
Lemma R_slope_values_in_unit_interval `{Consts}
    (d : MapDimensions) (s : CReadMap R) :
  0 < SQUARE_SIZE → 0 < mapx d → 0 < mapy d →
  reachable d s →
  Forall (λ v, 0 <= v <= 1)%R (slopeMap s).
Proof.
  intros HS Hmx Hmy Hreach.
  by destruct (R_reachable_slopes HS d Hmx Hmy s Hreach).
Qed.

(** A carrier that [<] orders totally, as the reals, meets the condition
    on every grid. *)
Lemma ordered_heights_all {F : Type} `{Scalar F} (hm : list F) :
  strict_total fltb → ordered_heights hm.
Proof. apply strict_total_on_all. Qed.

Lemma R_ordered_heights (hm : list R) : ordered_heights hm.
Proof. apply ordered_heights_all, Rltb_strict_total. Qed.

Lemma ordered_heights_in {F : Type} `{Scalar F} (hm : list F) :
  Forall (λ h, h ∈ FLT_MAX :: FLT_LOWEST :: hm) hm ∧
  FLT_MAX ∈ FLT_MAX :: FLT_LOWEST :: hm ∧
  FLT_LOWEST ∈ FLT_MAX :: FLT_LOWEST :: hm.
Proof.
  split; [|split].
  - apply Forall_forall. intros h Hh. by do 2 right.
  - left.
  - right; left.
Qed.

(** C5, as the code has it.  The grid changed before a pacing cycle starts
    and not during it; [<] is a strict total order on its heights and the
    two start values of the scan (for [float]: no NaN, not both zeros), and
    the slice indices fit in [int].  Then the [PACING_PERIOD] calls of the
    cycle leave in [tempHeightBounds] exactly the pair the full rescan
    computes, while [currHeightBounds] still holds what the first call of
    the cycle committed from before; the next call, slice 0 of the following
    cycle, commits that pair into [currHeightBounds]. *)
Theorem paced_cycle_then_commit_matches_rescan
    {F : Type} `{Scalar F} `{Consts}
    (d : MapDimensions) (s : CReadMap F) (f : Z) :
  ordered_heights (heightMapSynced s) → slices_fit d →
  0 < simdSize → 0 < GAME_SPEED →
  Z.of_nat (length (heightMapSynced s)) = mapxp1 d * mapyp1 d →
  hmUpdated s = true → 0 ≤ f → Z.rem f GAME_SPEED = 0 →
  ∃ s1 s2 sF,
    forM (range_excl f (f + GAME_SPEED)) (UpdateHeightBounds_paced d) s
      = Some s1 ∧
    UpdateHeightBounds_paced d (f + GAME_SPEED) s1 = Some s2 ∧
    UpdateHeightBounds d s = Some sF ∧
    currHeightBounds sF = bounds_of (heightMapSynced s) (FLT_MAX, FLT_LOWEST) ∧
    tempHeightBounds s1 = currHeightBounds sF ∧
    currHeightBounds s1 =
      (if processingHeightBounds s
       then tempHeightBounds s else currHeightBounds s) ∧
    currHeightBounds s2 = currHeightBounds sF.
Proof.
  intros Hord Hfit Hsimd Hpace Hlen Hup Hf Hrem.
  destruct (ordered_heights_in (heightMapSynced s)) as (Hhm & Pmax & Plow).
  eexists _, _, _.
  split; [apply (paced_prefix _ Hord Hsimd Hpace d s f GAME_SPEED);
          (done || lia)|].
  split.
  { unfold UpdateHeightBounds_paced.
    assert (Z.rem (f + GAME_SPEED) GAME_SPEED = 0) as ->.
    { rewrite Z.rem_mod_nonneg in * by lia.
      apply Z.mod_divide in Hrem as [t ->]; [|lia].
      replace (t * GAME_SPEED + GAME_SPEED) with ((t + 1) * GAME_SPEED) by lia.
      apply Z.mod_mul. lia. }
    rewrite decide_True by done. simpl. done. }
  split; [by apply (UpdateHeightBounds_full _ Hord)|].
  simpl.
  replace (GAME_SPEED * mapxp1 d * mapyp1 d)
    with (GAME_SPEED * (mapxp1 d * mapyp1 d)) by lia.
  rewrite slice_last by done. rewrite firstn_all2 by lia. done.
Qed.


(** * Concrete runs *)

Lemma dims_ok_d64 : dims_ok d64.
Proof.
  unfold dims_ok; simpl. repeat split; try lia; by exists 1.
Qed.

Section ThreeLevelsRuns.
Local Existing Instance three_levels | 0.

Lemma dims_ok_d8 : dims_ok d8.
Proof.
  unfold dims_ok; simpl. repeat split; try lia; by exists 2.
Qed.

Lemma init8_is_initialised :
  Initialize d8 (flat_b32 d8 0) = Returned init8.
Proof. vm_compute. reflexivity. Qed.

Lemma after_edit8_is_update :
  UpdateHeightMapSynced d8 (mkRect 4 4 4 4) edited_state8 = Some after_edit8.
Proof. vm_compute. reflexivity. Qed.

(** C2, the code at a failing input.  With three levels, a map of 8x8
    squares (a valid size) is initialised flat at height 0, corner (4, 4)
    is raised to 16 and the pipeline is run on the rectangle (4,4)-(4,4),
    that is on the center rectangle (3,3)-(5,5).  Level 1 of the pyramid
    is brought up to date: its cell (2, 2) becomes 1.  Level 2 is not: its
    cell (1, 1), the average of the level 1 cells (2,2), (2,3), (3,2),
    (3,3), keeps the value 0 where the average is 0.25, because the loops
    over level 1 run over [x < ex] with [ex = 5 >> 1 = 2] and never visit
    the block that starts at 2.  Before the edit the cell satisfied the
    mip invariant. *)
Theorem mip_level2_stale_after_edit :
  dims_ok d8 ∧
  Initialize d8 (flat_b32 d8 0) = Returned init8 ∧
  mip_cell_ok d8 init8 1 1 1 ∧
  centerRect_of d8 (mkRect 4 4 4 4) = mkRect 3 3 5 5 ∧
  UpdateHeightMapSynced d8 (mkRect 4 4 4 4) edited_state8
    = Some after_edit8 ∧
  mip_at d8 after_edit8 1 2 2 = Some (b32_of_Z 1) ∧
  mip_at d8 after_edit8 1 2 3 = Some (b32_of_Z 0) ∧
  mip_at d8 after_edit8 1 3 2 = Some (b32_of_Z 0) ∧
  mip_at d8 after_edit8 1 3 3 = Some (b32_of_Z 0) ∧
  mip_at d8 after_edit8 2 1 1 = Some (b32_of_Z 0) ∧
  mean4 (b32_of_Z 1) (b32_of_Z 0) (b32_of_Z 0) (b32_of_Z 0) = f_quarter ∧
  ¬ mip_cell_ok d8 after_edit8 1 1 1.
Proof.
  split; [apply dims_ok_d8|].
  split; [apply init8_is_initialised|].
  split.
  { exists (b32_of_Z 0), (b32_of_Z 0), (b32_of_Z 0), (b32_of_Z 0).
    vm_compute. by repeat split. }
  split; [reflexivity|].
  split; [apply after_edit8_is_update|].
  repeat (split; [by vm_compute|]).
  intros (h0 & h1 & h2 & h3 & H0 & H1 & H2 & H3 & H4).
  vm_compute in H0, H1, H2, H3.
  injection H0 as <-. injection H1 as <-.
  injection H2 as <-. injection H3 as <-.
  vm_compute in H4. discriminate.
Qed.
End ThreeLevelsRuns.

(** * The claims at concrete inputs *)

Lemma length_flat_b32 (h : Z) :
  Z.of_nat (length (flat_b32 d64 h)) = mapxp1 d64 * mapyp1 d64.
Proof. unfold flat_b32. rewrite length_replicate. reflexivity. Qed.


(** C7 at the 8x8 map of the build with three levels, after the edit of
    corner (4, 4). *)
Lemma pipeline_twice_same_buffers_witness :
  ∃ s2,
    UpdateHeightMapSynced (H0:=three_levels) d8 (mkRect 4 4 4 4) after_edit8
      = Some s2 ∧
    same_derived after_edit8 s2.
Proof.
  apply (pipeline_twice_same_buffers (H0:=three_levels)
           d8 (mkRect 4 4 4 4) edited_state8).
  apply after_edit8_is_update.
Defined.

(** C10 at the 64x64 map, on a rectangle that extends past every border. *)
Lemma pipeline_stays_in_bounds_witness :
  (0 ≤ x1 (centerRect_of d64 (mkRect (-5) (-5) 100 100)) ∧
   0 ≤ z1 (centerRect_of d64 (mkRect (-5) (-5) 100 100)) ∧
   x2 (centerRect_of d64 (mkRect (-5) (-5) 100 100)) ≤ mapxm1 d64 ∧
   z2 (centerRect_of d64 (mkRect (-5) (-5) 100 100)) ≤ mapym1 d64) ∧
  ∃ s', UpdateHeightMapSynced d64 (mkRect (-5) (-5) 100 100)
          (allocate d64 (flat_b32 d64 0)) = Some s' ∧
        wf_state d64 s'.
Proof.
  apply (pipeline_stays_in_bounds d64 _ (mkRect (-5) (-5) 100 100)
           dims_ok_d64).
  apply allocate_wf; [apply dims_ok_d64|apply length_flat_b32].
Defined.

(** C6 on grids of three words. *)
Lemma xor_delta_roundtrip_witness :
  ∃ delta,
    delta = zip_with Z.lxor [5; 2; 7] [1; 2; 3] ∧
    SerializeMapChanges 3 (mkSerializer true [9]) [1; 2; 3] [5; 2; 7]
      = Some (mkSerializer true ([9] ++ delta), [5; 2; 7]) ∧
    SerializeMapChanges 3 (mkSerializer false (delta ++ [8])) [1; 2; 3]
        [0; 0; 0]
      = Some (mkSerializer false [8], [5; 2; 7]).
Proof.
  apply (xor_delta_roundtrip 3 [1; 2; 3] [5; 2; 7] [0; 0; 0] [9] [8]);
    reflexivity.
Defined.

(** C4, the claim at a failing input, in binary32 with three levels: on
    the 8x8 map initialised flat at height 0 all 16 cells of the slope map
    are 0, not 1. *)
Lemma flat_grid_slopes_not_one :
  Initialize (H0:=three_levels) d8 (flat_b32 d8 0) = Returned init8 ∧
  heightMapSynced init8 = replicate 81 (b32_of_Z 0) ∧
  slopeMap init8 = replicate 16 (b32_of_Z 0) ∧
  b32_of_Z 0 ≠ b32_of_Z 1.
Proof.
  split; [apply init8_is_initialised|].
  split; [by vm_compute|]. split; [by vm_compute|].
  by vm_compute.
Qed.

(** C5, the claim at a failing input, in binary32: on the 8x8 map
    initialised flat at 0, corner (4, 4) is raised to 16.  The thirty calls
    of one pacing cycle, slices 0 to 29, leave [currHeightBounds] at (0, 0);
    the full rescan sets it to (0, 16). *)
Lemma paced_cycle_leaves_bounds_stale :
  hmUpdated edited_state8 = true ∧
  currHeightBounds <$>
    forM (range_excl 0 30) (UpdateHeightBounds_paced (H0:=three_levels) d8)
      edited_state8
    = Some (b32_of_Z 0, b32_of_Z 0) ∧
  currHeightBounds <$> UpdateHeightBounds (H0:=three_levels) d8 edited_state8
    = Some (b32_of_Z 0, b32_of_Z 16) ∧
  b32_of_Z 0 ≠ b32_of_Z 16.
Proof.
  split; [reflexivity|].
  split; [by vm_compute|]. split; [by vm_compute|]. by vm_compute.
Qed.



(** * More on the height bounds *)

Section LesserBounds.
Context {F : Type} (ltb : F → F → bool) (P : F → Prop).
Hypothesis Hord : strict_total_on ltb P.

Lemma not_ltb_trans a b c :
  P a → P b → P c →
  ltb a b = false → ltb b c = false → ltb a c = false.
Proof.
  destruct Hord as (Hirr & Htr & Htot). intros Pa Pb Pc Hab Hbc.
  destruct (ltb a c) eqn:Hac; [|done]. exfalso.
  destruct (ltb b a) eqn:Hba.
  - by rewrite (Htr b a c Pb Pa Pc Hba Hac) in Hbc.
  - rewrite (Htot a b Pa Pb Hab Hba) in Hac. congruence.
Qed.

Lemma lesser_lower a b :
  P a → P b →
  ltb a (lesser ltb a b) = false ∧ ltb b (lesser ltb a b) = false.
Proof.
  destruct Hord as (Hirr & Htr & Htot). intros Pa Pb. unfold lesser.
  destruct (ltb b a) eqn:Hba.
  - split; [|by apply Hirr]. by apply (ltb_asym ltb P Hord).
  - split; [by apply Hirr|done].
Qed.

Lemma lesser_cases a b : lesser ltb a b = a ∨ lesser ltb a b = b.
Proof. unfold lesser. destruct (ltb b a); auto. Qed.

Lemma fold_lesser_step h l m :
  Forall P l → P h → P m →
  fold_lesser ltb (h :: l) m = lesser ltb h (fold_lesser ltb l m).
Proof.
  intros. by rewrite fold_lesser_cons, (fold_lesser_out ltb P Hord).
Qed.

(** The fold is a lower bound of the start value and of every element, and
    it is one of them. *)
Lemma fold_lesser_lower l m x :
  Forall P l → P m →
  x ∈ m :: l → ltb x (fold_lesser ltb l m) = false.
Proof.
  intros Hl Pm. revert x.
  induction Hl as [|h l Ph Hl IH]; intros x Hx.
  - apply list_elem_of_singleton in Hx as ->.
    destruct Hord as (Hirr & _). by apply Hirr.
  - rewrite fold_lesser_step by done.
    assert (P (fold_lesser ltb l m)) as Pf by by apply fold_lesser_in.
    destruct (lesser_lower h (fold_lesser ltb l m) Ph Pf) as [Hh Hf].
    assert (P (lesser ltb h (fold_lesser ltb l m))) as Pl
      by by apply lesser_in.
    apply elem_of_cons in Hx as [->|Hx].
    + apply (not_ltb_trans _ (fold_lesser ltb l m)); try done.
      apply IH. left.
    + apply elem_of_cons in Hx as [->|Hx]; [done|].
      apply (not_ltb_trans _ (fold_lesser ltb l m)); try done.
      * by apply (proj1 (Forall_forall _ _) Hl).
      * apply IH. by right.
Qed.

Lemma fold_lesser_elem l m : fold_lesser ltb l m ∈ m :: l.
Proof.
  unfold fold_lesser. revert m.
  induction l as [|h l IH]; intros m; simpl; [left|].
  specialize (IH (lesser ltb h m)).
  apply elem_of_cons in IH as [->|IH]; [|by do 2 right].
  destruct (lesser_cases h m) as [->| ->]; [right; left|left].
Qed.
End LesserBounds.

Section BoundsMore.
Context {F : Type} `{Scalar F} `{Consts}.
Variable P : F → Prop.
Hypothesis Hord : strict_total_on fltb P.
Hypothesis Hsimd : 0 < simdSize.
Hypothesis Hpace : 0 < GAME_SPEED.
Variable mapDims : MapDimensions.

Lemma bounds_of_bound (l : list F) m M h :
  Forall P l → P m → P M →
  h ∈ l →
  fltb h (bounds_of l (m, M)).1 = false ∧
  fltb (bounds_of l (m, M)).2 h = false.
Proof.
  intros Hl Pm PM Hh. rewrite bounds_of_pair. simpl. split.
  - apply (fold_lesser_lower fltb P Hord); try done. by right.
  - apply (fold_lesser_lower (λ a b, fltb b a) P
             (strict_total_flip fltb P Hord) l M h); try done. by right.
Qed.

Lemma bounds_of_elem (l : list F) m M :
  (bounds_of l (m, M)).1 ∈ m :: l ∧ (bounds_of l (m, M)).2 ∈ M :: l.
Proof.
  rewrite bounds_of_pair. simpl. split.
  - apply fold_lesser_elem.
  - apply (fold_lesser_elem (λ a b, fltb b a)).
Qed.

(** A call of the paced scan off the start of a cycle. *)
Lemma paced_offcycle (s : CReadMap F) g :
  slices_fit mapDims →
  Z.of_nat (length (heightMapSynced s)) = mapxp1 mapDims * mapyp1 mapDims →
  0 ≤ g → Z.rem g GAME_SPEED ≠ 0 →
  ∃ s', UpdateHeightBounds_paced mapDims g s = Some s' ∧
        heightMapSynced s' = heightMapSynced s ∧
        hmUpdated s' = hmUpdated s ∧
        processingHeightBounds s' = processingHeightBounds s ∧
        currHeightBounds s' = currHeightBounds s.
Proof.
  intros Hfit Hlen Hg Hrem. unfold UpdateHeightBounds_paced.
  rewrite !decide_False by done.
  destruct (processingHeightBounds s) eqn:Hp; simpl; [|eauto 10].
  set (n := mapxp1 mapDims * mapyp1 mapDims) in *.
  set (r := Z.rem g GAME_SPEED) in *.
  assert (0 ≤ r < GAME_SPEED) as Hr by (apply Z.rem_bound_pos; lia).
  assert (Hn : 0 ≤ n) by lia.
  rewrite (int_mul_x Hpace mapDims (r + 0)) by (done || lia). simpl.
  rewrite (int_mul_xy Hpace mapDims (r + 0)) by (done || lia). simpl.
  rewrite (int_mul_x Hpace mapDims (r + 1)) by (done || lia). simpl.
  rewrite (int_mul_xy Hpace mapDims (r + 1)) by (done || lia). simpl.
  replace ((r + 0) * mapxp1 mapDims * mapyp1 mapDims) with (r * n)
    by (unfold n; lia).
  replace ((r + 1) * mapxp1 mapDims * mapyp1 mapDims) with ((r + 1) * n)
    by (unfold n; lia).
  pose proof (slice_bounds Hpace n r Hn ltac:(lia)) as Hs.
  pose proof (slice_le Hpace n (r + 1) Hn ltac:(lia)) as Hs1.
  destruct (UpdateTempHeightBoundsSIMD_total Hsimd (heightMapSynced s)
              (Z.quot (r * n) GAME_SPEED) (Z.quot ((r + 1) * n) GAME_SPEED)
              (tempHeightBounds s)) as [t' Ht']; [lia..|].
  rewrite Ht'. simpl. eauto 10.
Qed.

Lemma paced_offcycle_run (s : CReadMap F) g k :
  slices_fit mapDims →
  Z.of_nat (length (heightMapSynced s)) = mapxp1 mapDims * mapyp1 mapDims →
  0 ≤ g → 0 ≤ k →
  (∀ j, g ≤ j < g + k → Z.rem j GAME_SPEED ≠ 0) →
  ∃ s', forM (range_excl g (g + k)) (UpdateHeightBounds_paced mapDims) s
          = Some s' ∧
        heightMapSynced s' = heightMapSynced s ∧
        hmUpdated s' = hmUpdated s ∧
        processingHeightBounds s' = processingHeightBounds s ∧
        currHeightBounds s' = currHeightBounds s.
Proof.
  intros Hfit Hlen Hg Hk. pattern k. apply natlike_ind; [| |done]; clear k Hk.
  - intros _. rewrite Z.add_0_r, range_excl_nil by lia. simpl. eauto 10.
  - intros k Hk IH Hoff. unfold Z.succ.
    destruct IH as (s1 & Hrun & Hh & Hu & Hp & Hc).
    { intros j Hj. apply Hoff. lia. }
    rewrite Z.add_assoc, range_excl_snoc, forM_snoc by lia.
    rewrite Hrun. simpl.
    destruct (paced_offcycle s1 (g + k)) as (s2 & Hs2 & Hh2 & Hu2 & Hp2 & Hc2).
    { done. } { by rewrite Hh. } { lia. } { apply Hoff. lia. }
    exists s2. split; [done|]. by rewrite Hh2, Hu2, Hp2, Hc2.
Qed.

(** The first frame at or after [f] that starts a cycle. *)
Lemma next_cycle_start f :
  0 ≤ f →
  ∃ c, f ≤ c < f + GAME_SPEED ∧ Z.rem c GAME_SPEED = 0 ∧
       ∀ j, f ≤ j < c → Z.rem j GAME_SPEED ≠ 0.
Proof.
  intros Hf. exists (f + (- f) `mod` GAME_SPEED).
  pose proof (Z.mod_pos_bound (- f) GAME_SPEED Hpace) as Hb.
  split; [lia|]. split.
  - rewrite Z.rem_mod_nonneg by lia.
    rewrite Zplus_mod_idemp_r. replace (f + - f) with 0 by lia.
    by apply Z.mod_0_l; lia.
  - intros j Hj Hz. rewrite Z.rem_mod_nonneg in Hz by lia.
    apply Z.mod_divide in Hz as [t Ht]; [|lia].
    assert (GAME_SPEED ≠ 0) as Hne by lia.
    pose proof (Z.div_mod (- f) GAME_SPEED Hne) as Hdm.
    set (q := (- f) `div` GAME_SPEED) in *.
    set (m := (- f) `mod` GAME_SPEED) in *.
    assert (f = - (GAME_SPEED * q) - m) as Hfe by lia.
    assert (j - f < m) as Hlt by lia.
    assert (t * GAME_SPEED + GAME_SPEED * q + m < m ∧
            0 ≤ t * GAME_SPEED + GAME_SPEED * q + m) as [H1 H2] by lia.
    assert ((t + q) * GAME_SPEED < 0) by lia.
    assert (- GAME_SPEED < (t + q) * GAME_SPEED) by lia.
    destruct (Z_lt_le_dec (t + q) 0).
    + assert ((t + q) * GAME_SPEED ≤ (-1) * GAME_SPEED)
        by (apply Z.mul_le_mono_nonneg_r; lia).
      lia.
    + assert (0 ≤ (t + q) * GAME_SPEED)
        by (apply Z.mul_nonneg_nonneg; lia).
      lia.
Qed.

Lemma paced_catches_up (s : CReadMap F) f :
  Forall P (heightMapSynced s) → P FLT_MAX → P FLT_LOWEST →
  slices_fit mapDims →
  Z.of_nat (length (heightMapSynced s)) = mapxp1 mapDims * mapyp1 mapDims →
  hmUpdated s = true → 0 ≤ f →
  ∃ c s',
    f ≤ c < f + GAME_SPEED ∧ Z.rem c GAME_SPEED = 0 ∧
    forM (range_incl f (c + GAME_SPEED)) (UpdateHeightBounds_paced mapDims) s
      = Some s' ∧
    heightMapSynced s' = heightMapSynced s ∧
    currHeightBounds s'
      = bounds_of (heightMapSynced s) (FLT_MAX, FLT_LOWEST) ∧
    hmUpdated s' = false ∧ processingHeightBounds s' = false.
Proof.
  intros Hhm Pmax Plow Hfit Hlen Hup Hf.
  destruct (next_cycle_start f Hf) as (c & Hc & Hrem & Hoff).
  exists c.
  destruct (paced_offcycle_run s f (c - f) Hfit Hlen Hf ltac:(lia))
    as (s1 & Hrun1 & Hh1 & Hu1 & Hp1 & Hc1).
  { intros j Hj. apply Hoff. lia. }
  replace (f + (c - f)) with c in Hrun1 by lia.
  assert (range_incl f (c + GAME_SPEED) =
          range_excl f c ++ range_excl c (c + GAME_SPEED) ++ [c + GAME_SPEED])
    as ->.
  { unfold range_incl.
    replace (c + GAME_SPEED - f + 1) with ((c + GAME_SPEED + 1) - f) by lia.
    change (seqZ f (c + GAME_SPEED + 1 - f))
      with (range_excl f (c + GAME_SPEED + 1)).
    rewrite (range_excl_split f c) by lia. f_equal.
    by rewrite range_excl_snoc by lia. }
  rewrite forM_app, Hrun1. simpl. rewrite forM_snoc.
  rewrite (paced_prefix P Hord Hsimd Hpace mapDims s1 c GAME_SPEED)
    by (rewrite ?Hh1, ?Hu1; (done || lia)).
  simpl. unfold UpdateHeightBounds_paced.
  assert (Z.rem (c + GAME_SPEED) GAME_SPEED = 0) as ->.
  { rewrite Z.rem_mod_nonneg in * by lia.
    apply Z.mod_divide in Hrem as [t ->]; [|lia].
    replace (t * GAME_SPEED + GAME_SPEED) with ((t + 1) * GAME_SPEED) by lia.
    apply Z.mod_mul. lia. }
  rewrite decide_True by done. simpl.
  eexists. split; [done|]. split; [done|]. split; [done|]. simpl.
  split; [done|]. split; [|done].
  replace (GAME_SPEED * mapxp1 mapDims * mapyp1 mapDims)
    with (GAME_SPEED * (mapxp1 mapDims * mapyp1 mapDims)) by lia.
  rewrite slice_last by done. rewrite Hh1. rewrite firstn_all2 by lia. done.
Qed.

(** An idle scan stays idle. *)
Lemma paced_idle_run (s : CReadMap F) (frames : list Z) :
  hmUpdated s = false → processingHeightBounds s = false →
  forM frames (UpdateHeightBounds_paced mapDims) s = Some s.
Proof.
  intros Hu Hp. apply forM_fixed. intros g _.
  unfold UpdateHeightBounds_paced.
  destruct (decide (Z.rem g GAME_SPEED = 0)); simpl;
    rewrite ?Hp, ?Hu; simpl; [|done].
  f_equal. destruct s; simpl in *. by subst.
Qed.
End BoundsMore.


(** X2: the full rescan [UpdateHeightBounds()] on a grid of
    [(mapx+1)*(mapy+1)] heights that [<] orders totally (for [float]: no
    NaN, not both zeros) returns, changes nothing but the two pairs of
    bounds, and leaves in [currHeightBounds] a pair that no height of the
    grid lies outside of; each end of the pair is a height of the grid or
    the value the scan starts from, [FLT_MAX] or [FLT_LOWEST]. *)
Theorem full_rescan_bounds_every_height {F : Type} `{Scalar F} `{Consts}
    (d : MapDimensions) (s : CReadMap F) :
  ordered_heights (heightMapSynced s) → 0 < simdSize →
  Z.of_nat (length (heightMapSynced s)) = mapxp1 d * mapyp1 d →
  ∃ lo hi,
    UpdateHeightBounds d s
      = Some (set_bounds s (lo, hi) (lo, hi)
                (hmUpdated s) (processingHeightBounds s)) ∧
    Forall (λ h, fltb h lo = false ∧ fltb hi h = false) (heightMapSynced s) ∧
    lo ∈ FLT_MAX :: heightMapSynced s ∧
    hi ∈ FLT_LOWEST :: heightMapSynced s.
Proof.
  intros Hord Hsimd Hlen.
  destruct (ordered_heights_in (heightMapSynced s)) as (Hhm & Pmax & Plow).
  pose proof (UpdateHeightBounds_full _ Hord Hsimd d s Hhm Pmax Plow Hlen)
    as Hfull.
  destruct (bounds_of (heightMapSynced s) (FLT_MAX, FLT_LOWEST))
    as [lo hi] eqn:Hb.
  exists lo, hi. split; [done|].
  split.
  - apply Forall_forall. intros h Hh.
    pose proof (bounds_of_bound _ Hord _ FLT_MAX FLT_LOWEST h Hhm Pmax Plow Hh)
      as Hbd.
    by rewrite Hb in Hbd.
  - pose proof (bounds_of_elem (heightMapSynced s) FLT_MAX FLT_LOWEST) as He.
    by rewrite Hb in He.
Qed.

(** X3: while no change of the height map is pending and no scan is in
    progress, calls of the paced [UpdateHeightBounds(syncFrame)], for any
    frames in any order, leave the whole state as it is: the bounds are not
    touched and the grid is not read (no assumption on its size is
    needed). *)
Theorem paced_scan_idle_is_noop {F : Type} `{Scalar F} `{Consts}
    (d : MapDimensions) (s : CReadMap F) (frames : list Z) :
  hmUpdated s = false → processingHeightBounds s = false →
  forM frames (UpdateHeightBounds_paced d) s = Some s.
Proof. apply paced_idle_run. Qed.

(** X4: a change of the height map flagged at any frame [f] is in
    [currHeightBounds] after fewer than two pacing periods, on a grid whose
    heights [<] orders totally (for [float]: no NaN, not both zeros) and
    small enough for the slice indices to fit in [int].  With the grid left
    alone from then on, the calls for the frames [f] to
    [c + PACING_PERIOD], where [c] is the first frame from [f] on that
    starts a cycle, all return; after them [currHeightBounds] is the pair
    the scan of the whole grid gives and the scan is idle again.  Whether a
    scan was in progress at [f], and on what, does not matter. *)
Theorem paced_scan_catches_up {F : Type} `{Scalar F} `{Consts}
    (d : MapDimensions) (s : CReadMap F) (f : Z) :
  ordered_heights (heightMapSynced s) → slices_fit d →
  0 < simdSize → 0 < GAME_SPEED →
  Z.of_nat (length (heightMapSynced s)) = mapxp1 d * mapyp1 d →
  hmUpdated s = true → 0 ≤ f →
  ∃ c s',
    f ≤ c < f + GAME_SPEED ∧ Z.rem c GAME_SPEED = 0 ∧
    forM (range_incl f (c + GAME_SPEED)) (UpdateHeightBounds_paced d) s
      = Some s' ∧
    heightMapSynced s' = heightMapSynced s ∧
    currHeightBounds s'
      = bounds_of (heightMapSynced s) (FLT_MAX, FLT_LOWEST) ∧
    hmUpdated s' = false ∧ processingHeightBounds s' = false.
Proof.
  intros Hord Hfit Hsimd Hpace Hlen Hup Hf.
  destruct (ordered_heights_in (heightMapSynced s)) as (Hhm & Pmax & Plow).
  by apply (paced_catches_up _ Hord).
Qed.

(** * More on saving and loading *)

Lemma lxor_self_zero a b : Z.lxor a b = 0 ↔ a = b.
Proof. apply Z.lxor_eq_0_iff. Qed.

Lemma int32_shiftr z : is_int32 z ↔ Z.shiftr z 31 = 0 ∨ Z.shiftr z 31 = -1.
Proof.
  unfold is_int32. rewrite Z.shiftr_div_pow2 by lia.
  pose proof (Z.div_mod z (2 ^ 31) ltac:(lia)) as Hdm.
  pose proof (Z.mod_pos_bound z (2 ^ 31) ltac:(lia)) as Hb.
  lia.
Qed.

Lemma lxor_int32 a b : is_int32 a → is_int32 b → is_int32 (Z.lxor a b).
Proof.
  rewrite !int32_shiftr, Z.shiftr_lxor.
  intros [-> | ->] [-> | ->]; simpl; auto.
Qed.

Lemma uint8_shiftr z : is_uint8 z ↔ Z.shiftr z 8 = 0.
Proof.
  unfold is_uint8. rewrite Z.shiftr_div_pow2 by lia.
  pose proof (Z.div_mod z (2 ^ 8) ltac:(lia)) as Hdm.
  pose proof (Z.mod_pos_bound z (2 ^ 8) ltac:(lia)) as Hb.
  lia.
Qed.

Lemma lxor_uint8 a b : is_uint8 a → is_uint8 b → is_uint8 (Z.lxor a b).
Proof.
  rewrite !uint8_shiftr, Z.shiftr_lxor. by intros -> ->.
Qed.

Lemma zip_lxor_Forall (P : Z → Prop) (l1 l2 : list Z) :
  (∀ a b, P a → P b → P (Z.lxor a b)) →
  Forall P l1 → Forall P l2 → Forall P (zip_with Z.lxor l1 l2).
Proof.
  intros HP H1. revert l2. induction H1 as [|a l1 Ha H1 IH]; intros l2 H2.
  - constructor.
  - destruct H2 as [|b l2 Hb H2]; simpl; constructor; auto.
Qed.

Lemma zip_lxor_twice (ws ref : list Z) :
  length ws = length ref →
  zip_with Z.lxor (zip_with Z.lxor ws ref) ref = ws.
Proof.
  revert ref; induction ws as [|w ws IH]; intros [|r ref] Hl; simpl in *;
    try done.
  rewrite lxor_twice. f_equal. apply IH. lia.
Qed.

Lemma zip_lxor_self (l : list Z) :
  zip_with Z.lxor l l = replicate (length l) 0.
Proof.
  induction l as [|a l IH]; simpl; [done|].
  by rewrite Z.lxor_nilpotent, IH.
Qed.

(** Writing: the words appended are [cur xor ref]. *)
Lemma xor_write (n : Z) (ref cur pre : list Z) :
  Z.of_nat (length ref) = n → Z.of_nat (length cur) = n →
  SerializeMapChanges n (mkSerializer true pre) ref cur
  = Some (mkSerializer true (pre ++ zip_with Z.lxor cur ref), cur).
Proof.
  intros Hr Hc. unfold SerializeMapChanges; simpl.
  rewrite serialize_write_prefix by lia.
  by rewrite !firstn_all2 by lia.
Qed.

(** Reading: any [n] words are taken off the stream; the grid becomes
    [words xor ref]. *)
Lemma xor_read (n : Z) (ref ws junk rest : list Z) :
  Z.of_nat (length ref) = n → Z.of_nat (length ws) = n →
  Z.of_nat (length junk) = n →
  SerializeMapChanges n (mkSerializer false (ws ++ rest)) ref junk
  = Some (mkSerializer false rest, zip_with Z.lxor ws ref).
Proof.
  intros Hr Hw Hj. unfold SerializeMapChanges; simpl.
  pose proof (serialize_read_prefix ref (zip_with Z.lxor ws ref) junk rest n)
    as Hrd.
  rewrite zip_lxor_twice in Hrd by lia.
  rewrite Hrd by (rewrite ?length_zip_with; lia).
  rewrite firstn_all2 by (rewrite length_zip_with; lia).
  rewrite !drop_ge by (rewrite ?length_zip_with; lia).
  by rewrite app_nil_r.
Qed.

Lemma typemap_write (n : Z) (ref itm pre : list Z) :
  Z.of_nat (length ref) = n → Z.of_nat (length itm) = n →
  SerializeTypeMap n (mkSerializer true pre) (Some ref) itm
  = Some (mkSerializer true (pre ++ zip_with Z.lxor itm ref), itm).
Proof. apply xor_write. Qed.

Lemma typemap_read (n : Z) (ref ws junk rest : list Z) :
  Z.of_nat (length ref) = n → Z.of_nat (length ws) = n →
  Z.of_nat (length junk) = n →
  SerializeTypeMap n (mkSerializer false (ws ++ rest)) (Some ref) junk
  = Some (mkSerializer false rest, zip_with Z.lxor ws ref).
Proof. apply xor_read. Qed.

(** X5: what [SerializeMapChanges] writes for a grid against its reference
    is one word per height, zero exactly where the height has the bits of
    the reference (so an unchanged grid is saved as a run of zeros), and
    every word is an [int32_t] when the two views are; the grid itself is
    not changed by writing. *)
Theorem xor_delta_zero_where_unchanged (n : Z) (ref cur pre : list Z) :
  Z.of_nat (length ref) = n → Z.of_nat (length cur) = n →
  ∃ delta,
    SerializeMapChanges n (mkSerializer true pre) ref cur
      = Some (mkSerializer true (pre ++ delta), cur) ∧
    Z.of_nat (length delta) = n ∧
    (∀ i a b, rd cur i = Some a → rd ref i = Some b →
       (rd delta i = Some 0 ↔ a = b)) ∧
    (cur = ref → delta = replicate (Z.to_nat n) 0) ∧
    (Forall is_int32 ref → Forall is_int32 cur → Forall is_int32 delta).
Proof.
  intros Hr Hc. exists (zip_with Z.lxor cur ref).
  split; [by apply xor_write|].
  split; [rewrite length_zip_with; lia|].
  split; [|split].
  - intros i a b [Hi Ha]%rd_Some [_ Hb]%rd_Some.
    assert (rd (zip_with Z.lxor cur ref) i = Some (Z.lxor a b)) as ->.
    { apply rd_Some. split; [done|].
      rewrite lookup_zip_with, Ha; simpl. by rewrite Hb. }
    split.
    + intros [= Hz]. by apply lxor_self_zero.
    + intros ->. by rewrite Z.lxor_nilpotent.
  - intros ->. rewrite zip_lxor_self. f_equal. lia.
  - intros Href Hcur. apply zip_lxor_Forall; auto using lxor_int32.
Qed.

(** X6: reading with [SerializeMapChanges] is defined for any [n] words at
    the head of the stream, whoever wrote them: it consumes exactly these,
    overwrites the whole grid with [word xor reference], whatever the grid
    held, and the heights read are [int32_t] bit patterns when the words
    and the reference are. *)
Theorem xor_delta_load_any_words (n : Z) (ref ws junk rest : list Z) :
  Z.of_nat (length ref) = n → Z.of_nat (length ws) = n →
  Z.of_nat (length junk) = n →
  ∃ cur,
    SerializeMapChanges n (mkSerializer false (ws ++ rest)) ref junk
      = Some (mkSerializer false rest, cur) ∧
    Z.of_nat (length cur) = n ∧
    (∀ i w b, rd ws i = Some w → rd ref i = Some b →
       rd cur i = Some (Z.lxor w b)) ∧
    (Forall is_int32 ref → Forall is_int32 ws → Forall is_int32 cur).
Proof.
  intros Hr Hw Hj. exists (zip_with Z.lxor ws ref).
  split; [by apply xor_read|].
  split; [rewrite length_zip_with; lia|]. split.
  - intros i w b [Hi Ha]%rd_Some [_ Hb]%rd_Some.
    apply rd_Some. split; [done|].
    rewrite lookup_zip_with, Ha; simpl. by rewrite Hb.
  - intros Href Hws. apply zip_lxor_Forall; auto using lxor_int32.
Qed.

(** X7: [SerializeTypeMap] round-trips the type map against the type map of
    the map file, byte for byte, and the bytes written are [uint8_t] values;
    when the map file has no type map ([GetInfoMap] returns a null pointer)
    nothing is written and nothing is read, so the type map a game is loaded
    into keeps what it held and edits of the saved game's type map are
    lost. *)
Theorem typemap_roundtrip (n : Z) (iotm : option (list Z))
    (itm junk pre rest : list Z) :
  (∀ ref, iotm = Some ref → Z.of_nat (length ref) = n) →
  Z.of_nat (length itm) = n → Z.of_nat (length junk) = n →
  ∃ data,
    SerializeTypeMap n (mkSerializer true pre) iotm itm
      = Some (mkSerializer true (pre ++ data), itm) ∧
    SerializeTypeMap n (mkSerializer false (data ++ rest)) iotm junk
      = Some (mkSerializer false rest,
              match iotm with Some _ => itm | None => junk end) ∧
    Z.of_nat (length data) = match iotm with Some _ => n | None => 0 end ∧
    (Forall is_uint8 itm → (∀ ref, iotm = Some ref → Forall is_uint8 ref) →
     Forall is_uint8 data).
Proof.
  intros Href Hi Hj. destruct iotm as [ref|].
  - specialize (Href ref eq_refl).
    exists (zip_with Z.lxor itm ref).
    split; [by apply typemap_write|]. split.
    + rewrite typemap_read by (rewrite ?length_zip_with; lia).
      by rewrite zip_lxor_twice by lia.
    + split; [rewrite length_zip_with; lia|].
      intros Hitm Hr. apply zip_lxor_Forall; auto using lxor_uint8.
  - exists []. simpl. rewrite app_nil_r. repeat split; try done.
Qed.

(** X8: a game saved with [CReadMap::Serialize] and loaded into a terrain
    that was initialised from the same map file gets back the height map at
    the start of the match, the current height map and the type map of the
    saved game, whatever the terrain loaded into held in these three; the
    second delta is read against the start-of-match height map that the
    first one has just rebuilt.  The stream holds two words per corner
    height and one byte per type-map cell (none without a type map in the
    map file), and loading consumes exactly what saving wrote; saving
    changes nothing. *)
Theorem save_then_load_restores_terrain (d : MapDimensions)
    (iotm : option (list Z)) (saved fresh : SavedTerrain)
    (pre rest : list Z) :
  let n := mapxp1 d * mapyp1 d in
  let m := hmapx d * hmapy d in
  Z.of_nat (length (svMapFile saved)) = n →
  Z.of_nat (length (svOriginal saved)) = n →
  Z.of_nat (length (svSynced saved)) = n →
  Z.of_nat (length (svTypeMap saved)) = m →
  svMapFile fresh = svMapFile saved →
  Z.of_nat (length (svOriginal fresh)) = n →
  Z.of_nat (length (svSynced fresh)) = n →
  Z.of_nat (length (svTypeMap fresh)) = m →
  (∀ ref, iotm = Some ref → Z.of_nat (length ref) = m) →
  ∃ data,
    CReadMap_Serialize d iotm (mkSerializer true pre) saved
      = Some (mkSerializer true (pre ++ data), saved) ∧
    CReadMap_Serialize d iotm (mkSerializer false (data ++ rest)) fresh
      = Some (mkSerializer false rest,
              mkSaved (svMapFile saved) (svOriginal saved) (svSynced saved)
                (match iotm with
                 | Some _ => svTypeMap saved
                 | None => svTypeMap fresh
                 end)) ∧
    Z.of_nat (length data)
      = 2 * n + match iotm with Some _ => m | None => 0 end.
Proof.
  intros n m Hmf Hor Hsy Hty Hsame Hor' Hsy' Hty' Hio.
  destruct (typemap_roundtrip m iotm (svTypeMap saved) (svTypeMap fresh)
              (pre ++ zip_with Z.lxor (svOriginal saved) (svMapFile saved)
                   ++ zip_with Z.lxor (svSynced saved) (svOriginal saved))
              rest Hio Hty Hty') as (tdata & Htw & Htr & Htl & _).
  exists (zip_with Z.lxor (svOriginal saved) (svMapFile saved) ++
          zip_with Z.lxor (svSynced saved) (svOriginal saved) ++ tdata).
  split; [|split].
  - unfold CReadMap_Serialize, SerializeMapChangesBeforeMatch,
      SerializeMapChangesDuringMatch.
    fold n. rewrite xor_write by done. simpl.
    rewrite xor_write by done. simpl. fold m.
    rewrite <- app_assoc, Htw. simpl.
    rewrite <- !app_assoc. by destruct saved.
  - unfold CReadMap_Serialize, SerializeMapChangesBeforeMatch,
      SerializeMapChangesDuringMatch.
    fold n. rewrite Hsame. rewrite <- !app_assoc.
    rewrite xor_read by (rewrite ?length_zip_with; lia). simpl.
    rewrite zip_lxor_twice by lia.
    rewrite xor_read by (rewrite ?length_zip_with; lia). simpl.
    rewrite zip_lxor_twice by lia. fold m.
    rewrite Htr. simpl. done.
  - rewrite !length_app, !length_zip_with. lia.
Qed.

(** * More on the drain of the update queue *)

Section DrainMore.
Context {W : Type}.
Variable Process : bool → list SRectangle → list SRectangle.
Variable UpdateHeightMapUnsynced : SRectangle → W → W.

(** One call on a queue that is not empty. *)
Lemma UpdateDraw_step firstCall (st : DrawState (W:=W)) :
  dQueue st ≠ [] →
  let q := Process firstCall (dQueue st) in
  UpdateDraw Process UpdateHeightMapUnsynced firstCall st
  = Some (mkDraw (drop 128 q)
            (foldl (λ w r, UpdateHeightMapUnsynced r w) (dWorld st)
                   (take 128 q))
            (dEvents st ++ take 128 q)).
Proof.
  intros Hne q. unfold UpdateDraw.
  destruct (dQueue st) as [|r0 q0] eqn:Hq; [done|]. fold q.
  set (N := Z.min MAX_UHM_RECTS_PER_FRAME (Z.of_nat (length q))).
  assert (0 ≤ N ≤ Z.of_nat (length q)) as [HN0 HN]
    by (unfold N, MAX_UHM_RECTS_PER_FRAME; lia).
  rewrite (drain_loop UpdateHeightMapUnsynced q _ N HN0 HN). simpl.
  rewrite (drain_loop (λ r ev, ev ++ [r]) q _ N HN0 HN). simpl.
  rewrite (pop_loop q N HN0 HN). simpl.
  rewrite foldl_snoc_all.
  assert (take (Z.to_nat N) q = take 128 q) as ->.
  { unfold N, MAX_UHM_RECTS_PER_FRAME.
    destruct (decide (128 ≤ Z.of_nat (length q))).
    - by rewrite Z.min_l by done.
    - rewrite Z.min_r by lia. rewrite Nat2Z.id.
      by rewrite !firstn_all2 by lia. }
  assert (drop (Z.to_nat N) q = drop 128 q) as ->; [|done].
  unfold N, MAX_UHM_RECTS_PER_FRAME.
  destruct (decide (128 ≤ Z.of_nat (length q))).
  - by rewrite Z.min_l by done.
  - rewrite Z.min_r by lia. rewrite Nat2Z.id.
    by rewrite !drop_ge by lia.
Qed.

Lemma UpdateDraw_empty firstCall (st : DrawState (W:=W)) :
  dQueue st = [] →
  UpdateDraw Process UpdateHeightMapUnsynced firstCall st = Some st.
Proof. intros Hq. unfold UpdateDraw. by rewrite Hq. Qed.

Lemma drain_frames (flags : list bool) (st : DrawState (W:=W)) :
  (∀ b q, length (Process b q) ≤ length q)%nat →
  (length (dQueue st) ≤ 128 * length flags)%nat →
  ∃ st',
    forM flags (UpdateDraw Process UpdateHeightMapUnsynced) st = Some st' ∧
    dQueue st' = [] ∧
    (length (dEvents st') ≤ length (dEvents st) + length (dQueue st))%nat.
Proof.
  intros HP. revert st; induction flags as [|b flags IH]; intros st Hlen.
  - simpl in *. exists st. split; [done|].
    split; [|lia]. destruct (dQueue st); [done|simpl in Hlen; lia].
  - simpl. destruct (decide (dQueue st = [])) as [Hq|Hq].
    + rewrite UpdateDraw_empty by done. simpl.
      apply IH. rewrite Hq. simpl. lia.
    + rewrite UpdateDraw_step by done. simpl.
      pose proof (HP b (dQueue st)) as Hle.
      destruct (IH (mkDraw (drop 128 (Process b (dQueue st)))
                      (foldl (λ w r, UpdateHeightMapUnsynced r w)
                             (dWorld st)
                             (take 128 (Process b (dQueue st))))
                      (dEvents st ++ take 128 (Process b (dQueue st)))))
        as (st' & Hrun & Hempty & Hev).
      { simpl. rewrite length_drop. simpl in Hlen. lia. }
      exists st'. split; [done|]. split; [done|].
      simpl in Hev. rewrite length_app, length_take, length_drop in Hev.
      lia.
Qed.

(** Without a change of layout every rectangle is handled once, in queue
    order. *)
Lemma drain_frames_plain (flags : list bool) (st : DrawState (W:=W)) :
  (∀ b q, Process b q = q) →
  (length (dQueue st) ≤ 128 * length flags)%nat →
  forM flags (UpdateDraw Process UpdateHeightMapUnsynced) st
  = Some (mkDraw []
            (foldl (λ w r, UpdateHeightMapUnsynced r w) (dWorld st)
                   (dQueue st))
            (dEvents st ++ dQueue st)).
Proof.
  intros HP. revert st; induction flags as [|b flags IH]; intros st Hlen.
  - simpl in *. destruct st as [q w ev]; simpl in *.
    destruct q; [|simpl in Hlen; lia]. simpl. by rewrite app_nil_r.
  - simpl. destruct (decide (dQueue st = [])) as [Hq|Hq].
    + rewrite UpdateDraw_empty by done. simpl.
      apply IH. rewrite Hq. simpl. lia.
    + rewrite UpdateDraw_step by done. simpl. rewrite HP.
      rewrite IH by (simpl; rewrite length_drop; simpl in Hlen; lia).
      simpl. rewrite <- foldl_app, <- app_assoc, take_drop. done.
Qed.
End DrainMore.

(** X9: the queue of unsynced updates is drained for good by a bounded
    number of frames.  With a layout step [Process] that never makes the
    queue longer, [k] calls of [UpdateDraw] in a row (whatever [firstCall]
    is in each) all return and leave the queue empty as soon as
    [128 * k] is at least its length, and they announce no more rectangles
    than were queued; when [Process] leaves the queue as it is, every
    queued rectangle is copied and announced exactly once, in queue
    order. *)
Theorem UpdateDraw_drains_queue {W : Type}
    (Process : bool → list SRectangle → list SRectangle)
    (UpdateHeightMapUnsynced : SRectangle → W → W)
    (flags : list bool) (st : DrawState (W:=W)) :
  (∀ b q, length (Process b q) ≤ length q)%nat →
  (length (dQueue st) ≤ 128 * length flags)%nat →
  ∃ st',
    forM flags (UpdateDraw Process UpdateHeightMapUnsynced) st = Some st' ∧
    dQueue st' = [] ∧
    (length (dEvents st') ≤ length (dEvents st) + length (dQueue st))%nat ∧
    ((∀ b q, Process b q = q) →
     dEvents st' = dEvents st ++ dQueue st ∧
     dWorld st' = foldl (λ w r, UpdateHeightMapUnsynced r w) (dWorld st)
                    (dQueue st)).
Proof.
  intros HP Hlen.
  destruct (drain_frames Process UpdateHeightMapUnsynced flags st HP Hlen)
    as (st' & Hrun & Hq & Hev).
  exists st'. split; [done|]. split; [done|]. split; [done|].
  intros Hid.
  rewrite (drain_frames_plain Process UpdateHeightMapUnsynced flags st Hid Hlen)
    in Hrun.
  by injection Hrun as <-.
Qed.

(** * The digests of the line-of-sight squares *)

(** X10: with digests in use, [HasHeightMapViewChanged] reports a change of
    a line-of-sight square once.  Whatever a call at a position answers,
    the next call at that position answers "unchanged" and changes nothing;
    a call answers "changed" exactly when the two digests of the square
    differ, it then copies the synced digest over the unsynced one, and it
    never touches a synced digest or the digest of another square. *)
Theorem view_change_is_reported_once (los_size pos : Z * Z)
    (dg dg' : DigestVectors) (b : bool) :
  HasHeightMapViewChanged true los_size pos dg = Some (b, dg') →
  let idx := pos.1 + pos.2 * (los_size.1 + 1) in
  HasHeightMapViewChanged true los_size pos dg' = Some (false, dg') ∧
  (b = true ↔ rd (unsyncedHeightMapDigests dg) idx
              ≠ rd (syncedHeightMapDigests dg) idx) ∧
  (b = false → dg' = dg) ∧
  syncedHeightMapDigests dg' = syncedHeightMapDigests dg ∧
  rd (unsyncedHeightMapDigests dg') idx = rd (syncedHeightMapDigests dg) idx ∧
  ∀ i, i ≠ idx →
    rd (unsyncedHeightMapDigests dg') i = rd (unsyncedHeightMapDigests dg) i.
Proof.
  intros Hc idx. unfold HasHeightMapViewChanged in *. cbv zeta in Hc.
  fold idx in Hc |- *.
  destruct (rd (unsyncedHeightMapDigests dg) idx) as [u|] eqn:Hu;
    simpl in Hc; [|done].
  destruct (rd (syncedHeightMapDigests dg) idx) as [s|] eqn:Hs;
    simpl in Hc; [|done].
  destruct (decide (u ≠ s)) as [Hne|Heq].
  - destruct (wr (unsyncedHeightMapDigests dg) idx s) as [un|] eqn:Hw;
      simpl in Hc; [|done].
    injection Hc as <- <-. simpl.
    rewrite (rd_wr_eq _ _ _ _ Hw), Hs. simpl.
    destruct (decide (s ≠ s)) as [Hx|_]; [done|].
    split; [done|]. split; [split; [congruence|done]|].
    split; [done|]. split; [done|]. split; [done|].
    intros i Hi. by apply (rd_wr_ne _ _ _ _ _ Hw).
  - injection Hc as <- <-.
    rewrite Hu, Hs. simpl. rewrite decide_False by done.
    apply dec_stable in Heq. subst s.
    split; [done|]. split; [split; [done|congruence]|]. done.
Qed.

(** * What each step writes and what it leaves alone *)

Section BufNestMore.
Context {A K1 K2 : Type}.
Variable g : K1 → K2 → option (list (Z * A)).
Variable body : K1 → K2 → list A → option (list A).
Variables (ys : list K1) (xs : list K2).
Hypothesis body_collects :
  ∀ y x s, body y x s = acts ← g y x; forM acts wr_act s.

Lemma buf_nest_frame t t' i :
  forM ys (λ y s, forM xs (body y) s) t = Some t' →
  (∀ v, ¬ nest_writes g ys xs (i, v)) →
  rd t' i = rd t i.
Proof.
  intros Hrun Hno. destruct (rd t' i) as [u|] eqn:Hu.
  - destruct (buf_nest_provenance g body ys xs body_collects _ _ _ _ Hrun Hu)
      as [Hw|[Hs _]]; [by destruct (Hno u)|done].
  - pose proof (buf_nest_length g body ys xs body_collects _ _ Hrun) as Hl.
    destruct (rd t i) as [v|] eqn:Hv; [|done]. apply rd_lt in Hv.
    destruct (rd_in_range t' i) as [w Hw]; [lia|]. congruence.
Qed.
End BufNestMore.

Section NormNestMore.
Context {F K1 K2 : Type}.
Variable g : K1 → K2 → option (list (NAct F)).
Variable body : K1 → K2 → Normals F → option (Normals F).
Variables (ys : list K1) (xs : list K2).
Hypothesis body_collects :
  ∀ y x s, body y x s = acts ← g y x; forM acts napp s.

Lemma norm_nest_reads n n' y x :
  forM ys (λ y s, forM xs (body y) s) n = Some n' →
  y ∈ ys → x ∈ xs → is_Some (g y x).
Proof. intros Hrun. by eapply nest_reads. Qed.

Lemma norm_nest_written n n' b i v :
  forM ys (λ y s, forM xs (body y) s) n = Some n' →
  nest_writes g ys xs (mkNAct b i v) →
  (∀ v', nest_writes g ys xs (mkNAct b i v') → v' = v) →
  rd (nget b n') i = Some v.
Proof.
  intros Hrun Hw Huniq.
  apply (nest_written napp nrd nloc aVal (@napp_set F) (@napp_frame F)
           g body ys xs body_collects n n' (mkNAct b i v) Hrun Hw).
  intros [b' j v'] Hb Hj; unfold nloc in Hj; simpl in *.
  injection Hj as -> ->. by apply Huniq.
Qed.

Lemma norm_nest_frame n n' b i :
  forM ys (λ y s, forM xs (body y) s) n = Some n' →
  (∀ v, ¬ nest_writes g ys xs (mkNAct b i v)) →
  rd (nget b n') i = rd (nget b n) i.
Proof.
  intros Hrun Hno. destruct (rd (nget b n') i) as [u|] eqn:Hu.
  - destruct (norm_nest_provenance g body ys xs body_collects _ _ _ _ _
                Hrun Hu) as [Hw|[Hs _]]; [by destruct (Hno u)|done].
  - pose proof (norm_nest_length g body ys xs body_collects _ _ b Hrun) as Hl.
    destruct (rd (nget b n) i) as [v|] eqn:Hv; [|done]. apply rd_lt in Hv.
    destruct (rd_in_range (nget b n') i) as [w Hw]; [lia|]. congruence.
Qed.
End NormNestMore.

Ltac in_list := solve [repeat first [by left | right]].

Lemma rd_ext {A} (l l' : list A) :
  length l = length l' → (∀ i, rd l i = rd l' i) → l = l'.
Proof.
  intros Hlen Hrd. apply list_eq. intros k.
  specialize (Hrd (Z.of_nat k)). unfold rd in Hrd.
  rewrite !decide_True in Hrd by lia. by rewrite Nat2Z.id in Hrd.
Qed.

Section Stages.
Context {F : Type} `{Scalar F} `{Consts}.
Variable d : MapDimensions.

(** ** Center heights *)

Lemma center_writes_shape (hm : list F) y x acts :
  center_writes d hm y x = Some acts →
  ∃ v, acts = [(y * mapx d + x, v)].
Proof.
  unfold center_writes. intros Hg.
  destruct (rd hm ((y + 0) * mapxp1 d + x + 0)); simpl in Hg; [|done].
  destruct (rd hm ((y + 0) * mapxp1 d + x + 1)); simpl in Hg; [|done].
  destruct (rd hm ((y + 1) * mapxp1 d + x + 0)); simpl in Hg; [|done].
  destruct (rd hm ((y + 1) * mapxp1 d + x + 1)); simpl in Hg; [|done].
  injection Hg as <-. eauto.
Qed.

Lemma UpdateCenterHeightmap_frame rect (hm c c' : list F) x y :
  UpdateCenterHeightmap d rect hm c = Some c' →
  0 ≤ x1 rect → x2 rect ≤ mapxm1 d →
  0 ≤ x < mapx d →
  ¬ (x1 rect ≤ x ≤ x2 rect ∧ z1 rect ≤ y ≤ z2 rect) →
  rd c' (y * mapx d + x) = rd c (y * mapx d + x).
Proof.
  unfold mapxm1. intros Hrun Hx1 Hx2 Hx Hout.
  apply (buf_nest_frame (center_writes d hm) _ _ _
           (center_collects d hm) _ _ _ Hrun).
  intros v (y' & x' & acts & Hy'%elem_of_range_incl
            & Hx'%elem_of_range_incl & Hg & Hin).
  apply center_writes_shape in Hg as [v' ->].
  apply list_elem_of_singleton in Hin. injection Hin as Hidx _.
  assert (y = y' ∧ x = x') as [-> ->]
    by (apply (rowmajor_inj (mapx d)); lia).
  apply Hout. lia.
Qed.

(** ** Slopes *)

Lemma slope_writes_shape (fn : list (float3 F)) y x acts :
  slope_writes d fn y x = Some acts →
  ∃ v, acts = [(y * hmapx d + x, v)].
Proof.
  unfold slope_writes. cbv zeta. intros Hg.
  destruct (rd fn ((y * 2 * mapx d + x * 2) * 2)); simpl in Hg; [|done].
  destruct (rd fn ((y * 2 * mapx d + x * 2) * 2 + 1)); simpl in Hg; [|done].
  destruct (rd fn ((y * 2 * mapx d + x * 2 + 1) * 2)); simpl in Hg; [|done].
  destruct (rd fn ((y * 2 * mapx d + x * 2 + 1) * 2 + 1));
    simpl in Hg; [|done].
  destruct (rd fn (((y * 2 + 1) * mapx d + x * 2) * 2));
    simpl in Hg; [|done].
  destruct (rd fn (((y * 2 + 1) * mapx d + x * 2) * 2 + 1));
    simpl in Hg; [|done].
  destruct (rd fn (((y * 2 + 1) * mapx d + x * 2 + 1) * 2));
    simpl in Hg; [|done].
  destruct (rd fn (((y * 2 + 1) * mapx d + x * 2 + 1) * 2 + 1));
    simpl in Hg; [|done].
  injection Hg as <-. eauto.
Qed.

(** The columns and rows [UpdateSlopemap] loops over. *)
Lemma UpdateSlopemap_written rect (fn : list (float3 F)) sm sm' x y :
  UpdateSlopemap d rect fn sm = Some sm' →
  Z.max 0 (Z.quot (x1 rect) 2 - 1) ≤ x
    ≤ Z.min (hmapx d - 1) (Z.quot (x2 rect) 2 + 1) →
  Z.max 0 (Z.quot (z1 rect) 2 - 1) ≤ y
    ≤ Z.min (hmapy d - 1) (Z.quot (z2 rect) 2 + 1) →
  ∃ v, slope_writes d fn y x = Some [(y * hmapx d + x, v)] ∧
       rd sm' (y * hmapx d + x) = Some v.
Proof.
  intros Hrun Hx Hy.
  pose proof (slope_collects d fn) as Hcol.
  assert (Hyin : y ∈ range_incl (Z.max 0 (Z.quot (z1 rect) 2 - 1))
                   (Z.min (hmapy d - 1) (Z.quot (z2 rect) 2 + 1)))
    by by apply elem_of_range_incl.
  assert (Hxin : x ∈ range_incl (Z.max 0 (Z.quot (x1 rect) 2 - 1))
                   (Z.min (hmapx d - 1) (Z.quot (x2 rect) 2 + 1)))
    by by apply elem_of_range_incl.
  destruct (buf_nest_reads (slope_writes d fn) _ _ _ Hcol
              _ _ y x Hrun Hyin Hxin) as [acts Hacts].
  destruct (slope_writes_shape _ _ _ _ Hacts) as [v ->].
  exists v. split; [done|].
  apply (buf_nest_written (slope_writes d fn) _ _ _ Hcol _ _ _ _ Hrun).
  - exists y, x, [(y * hmapx d + x, v)].
    repeat split; try done. by apply list_elem_of_singleton.
  - intros v' (y' & x' & acts' & Hy'%elem_of_range_incl
               & Hx'%elem_of_range_incl & Hg' & Hin).
    destruct (slope_writes_shape _ _ _ _ Hg') as [w ->].
    apply list_elem_of_singleton in Hin. injection Hin as Hidx ->.
    assert (y = y' ∧ x = x') as [-> ->]
      by (apply (rowmajor_inj (hmapx d)); lia).
    rewrite Hacts in Hg'. by injection Hg'.
Qed.

Lemma UpdateSlopemap_frame rect (fn : list (float3 F)) sm sm' x y :
  UpdateSlopemap d rect fn sm = Some sm' →
  0 ≤ x < hmapx d →
  ¬ (Z.max 0 (Z.quot (x1 rect) 2 - 1) ≤ x
       ≤ Z.min (hmapx d - 1) (Z.quot (x2 rect) 2 + 1) ∧
     Z.max 0 (Z.quot (z1 rect) 2 - 1) ≤ y
       ≤ Z.min (hmapy d - 1) (Z.quot (z2 rect) 2 + 1)) →
  rd sm' (y * hmapx d + x) = rd sm (y * hmapx d + x).
Proof.
  intros Hrun Hx Hout.
  apply (buf_nest_frame (slope_writes d fn) _ _ _
           (slope_collects d fn) _ _ _ Hrun).
  intros v (y' & x' & acts & Hy'%elem_of_range_incl
            & Hx'%elem_of_range_incl & Hg & Hin).
  apply slope_writes_shape in Hg as [v' ->].
  apply list_elem_of_singleton in Hin. injection Hin as Hidx _.
  assert (y = y' ∧ x = x') as [-> ->]
    by (apply (rowmajor_inj (hmapx d)); lia).
  apply Hout. lia.
Qed.

(** ** Normals *)

Lemma face_writes_shape init (hm : list F) y x acts :
  face_writes d init hm y x = Some acts →
  ∃ hTL hTR hBL hBR,
    rd hm (y * mapxp1 d + x) = Some hTL ∧
    rd hm (y * mapxp1 d + (x + 1)) = Some hTR ∧
    rd hm ((y + 1) * mapxp1 d + x) = Some hBL ∧
    rd hm ((y + 1) * mapxp1 d + (x + 1)) = Some hBR ∧
    acts =
      [mkNAct BFaceS ((y * mapx d + x) * 2) (face_TL hTL hTR hBL);
       mkNAct BFaceS ((y * mapx d + x) * 2 + 1) (face_BR hTR hBL hBR);
       mkNAct BCenterS (y * mapx d + x)
         (Normalize (float3_add (face_TL hTL hTR hBL)
                                (face_BR hTR hBL hBR)));
       mkNAct BCenter2D (y * mapx d + x)
         (Normalize2D (float3_add (face_TL hTL hTR hBL)
                                  (face_BR hTR hBL hBR)))] ++
      (if USE_UNSYNCED_HEIGHTMAP && init
       then [mkNAct BFaceU ((y * mapx d + x) * 2) (face_TL hTL hTR hBL);
             mkNAct BFaceU ((y * mapx d + x) * 2 + 1)
               (face_BR hTR hBL hBR);
             mkNAct BCenterU (y * mapx d + x)
               (Normalize (float3_add (face_TL hTL hTR hBL)
                                      (face_BR hTR hBL hBR)))]
       else []).
Proof.
  unfold face_writes. cbv zeta.
  replace (y * mapxp1 d + (x + 1)) with (y * mapxp1 d + x + 1) by lia.
  replace ((y + 1) * mapxp1 d + (x + 1))
    with ((y + 1) * mapxp1 d + x + 1) by lia.
  intros Hg.
  destruct (rd hm (y * mapxp1 d + x)) as [hTL|]; simpl in Hg; [|done].
  destruct (rd hm (y * mapxp1 d + x + 1)) as [hTR|]; simpl in Hg; [|done].
  destruct (rd hm ((y + 1) * mapxp1 d + x)) as [hBL|]; simpl in Hg; [|done].
  destruct (rd hm ((y + 1) * mapxp1 d + x + 1)) as [hBR|];
    simpl in Hg; [|done].
  injection Hg as <-. exists hTL, hTR, hBL, hBR. by repeat split.
Qed.

(** A write of iteration [(y, x)] goes to a cell of square [(x, y)]. *)
Lemma face_writes_square init (hm : list F) y x acts a :
  face_writes d init hm y x = Some acts → a ∈ acts →
  loc_square (aBuf a) (aIdx a) = y * mapx d + x.
Proof.
  intros (hTL & hTR & hBL & hBR & _ & _ & _ & _ & ->)%face_writes_shape Hin.
  apply elem_of_app in Hin as [Hin|Hin].
  - repeat (apply elem_of_cons in Hin as [->|Hin]); simpl;
      try (by apply elem_of_nil in Hin); try done.
    + by rewrite Z.div_mul.
    + rewrite Z.add_comm, Z.div_add by lia. done.
  - destruct (USE_UNSYNCED_HEIGHTMAP && init);
      [|by apply elem_of_nil in Hin].
    repeat (apply elem_of_cons in Hin as [->|Hin]); simpl;
      try (by apply elem_of_nil in Hin); try done.
    + by rewrite Z.div_mul.
    + rewrite Z.add_comm, Z.div_add by lia. done.
Qed.

(** Two writes of one iteration to the same cell are one write. *)
Lemma face_writes_once init (hm : list F) y x acts a a' :
  face_writes d init hm y x = Some acts → a ∈ acts → a' ∈ acts →
  aBuf a = aBuf a' → aIdx a = aIdx a' → a = a'.
Proof.
  intros (hTL & hTR & hBL & hBR & _ & _ & _ & _ & ->)%face_writes_shape.
  intros Hin Hin' Hb Hi.
  destruct (USE_UNSYNCED_HEIGHTMAP && init); simpl in Hin, Hin';
    repeat (apply elem_of_cons in Hin as [->|Hin]);
    try (by apply elem_of_nil in Hin);
    repeat (apply elem_of_cons in Hin' as [->|Hin']);
    try (by apply elem_of_nil in Hin');
    simpl in Hb, Hi; try done; try lia.
Qed.

Section FaceRun.
Variables (rect : SRectangle) (init : bool) (hm : list F).
Variables (n n' : Normals F).
Hypothesis Hrun : UpdateFaceNormals d rect init hm n = Some n'.

Let ys := range_incl (Z.max 0 (z1 rect - 1))
            (Z.min (mapym1 d) (z2 rect + 1)).
Let xs := range_incl (Z.max 0 (x1 rect - 1))
            (Z.min (mapxm1 d) (x2 rect + 1)).

Lemma face_run_unique a a' :
  nest_writes (face_writes d init hm) ys xs a →
  nest_writes (face_writes d init hm) ys xs a' →
  aBuf a = aBuf a' → aIdx a = aIdx a' → a = a'.
Proof.
  intros (y & x & acts & Hy & Hx%elem_of_range_incl & Hg & Hin)
         (y' & x' & acts' & Hy' & Hx'%elem_of_range_incl & Hg' & Hin')
         Hb Hi.
  pose proof (face_writes_square _ _ _ _ _ _ Hg Hin) as Hs.
  pose proof (face_writes_square _ _ _ _ _ _ Hg' Hin') as Hs'.
  rewrite Hb, Hi, Hs' in Hs. unfold mapxm1 in *.
  assert (y' = y ∧ x' = x) as [-> ->]
    by (apply (rowmajor_inj (mapx d)); lia).
  rewrite Hg in Hg'. injection Hg' as <-.
  by apply (face_writes_once _ _ _ _ _ _ _ Hg).
Qed.

(** The squares the loops visit get the normals of their corners. *)
Lemma UpdateFaceNormals_written x y :
  Z.max 0 (x1 rect - 1) ≤ x ≤ Z.min (mapxm1 d) (x2 rect + 1) →
  Z.max 0 (z1 rect - 1) ≤ y ≤ Z.min (mapym1 d) (z2 rect + 1) →
  ∃ hTL hTR hBL hBR,
    rd hm (y * mapxp1 d + x) = Some hTL ∧
    rd hm (y * mapxp1 d + (x + 1)) = Some hTR ∧
    rd hm ((y + 1) * mapxp1 d + x) = Some hBL ∧
    rd hm ((y + 1) * mapxp1 d + (x + 1)) = Some hBR ∧
    rd (nFaceS n') ((y * mapx d + x) * 2) = Some (face_TL hTL hTR hBL) ∧
    rd (nFaceS n') ((y * mapx d + x) * 2 + 1)
      = Some (face_BR hTR hBL hBR) ∧
    rd (nCenterS n') (y * mapx d + x)
      = Some (Normalize (float3_add (face_TL hTL hTR hBL)
                                    (face_BR hTR hBL hBR))) ∧
    rd (nCenter2D n') (y * mapx d + x)
      = Some (Normalize2D (float3_add (face_TL hTL hTR hBL)
                                      (face_BR hTR hBL hBR))) ∧
    (USE_UNSYNCED_HEIGHTMAP && init = true →
     rd (nFaceU n') ((y * mapx d + x) * 2)
       = Some (face_TL hTL hTR hBL) ∧
     rd (nFaceU n') ((y * mapx d + x) * 2 + 1)
       = Some (face_BR hTR hBL hBR) ∧
     rd (nCenterU n') (y * mapx d + x)
       = Some (Normalize (float3_add (face_TL hTL hTR hBL)
                                     (face_BR hTR hBL hBR)))).
Proof.
  intros Hx Hy.
  pose proof (face_collects d init hm) as Hcol.
  assert (Hyin : y ∈ ys) by by apply elem_of_range_incl.
  assert (Hxin : x ∈ xs) by by apply elem_of_range_incl.
  unfold UpdateFaceNormals in Hrun.
  destruct (norm_nest_reads (face_writes d init hm) _ _ _
              (λ y x n, Hcol y x n) _ _ y x Hrun Hyin Hxin)
    as [acts Hacts].
  destruct (face_writes_shape _ _ _ _ _ Hacts)
    as (hTL & hTR & hBL & hBR & E1 & E2 & E3 & E4 & Hshape).
  exists hTL, hTR, hBL, hBR. do 4 (split; [done|]).
  assert (Hw : ∀ b i v, mkNAct b i v ∈ acts → rd (nget b n') i = Some v).
  { intros b i v Hin.
    apply (norm_nest_written (face_writes d init hm) _ _ _
             (λ y x n, Hcol y x n) _ _ _ _ _ Hrun).
    - by exists y, x, acts.
    - intros v' Hw'.
      assert (mkNAct b i v' = mkNAct b i v) as Heq; [|by injection Heq].
      apply face_run_unique; try done. by exists y, x, acts. }
  rewrite Hshape in Hw.
  split; [apply (Hw BFaceS); apply elem_of_app; left; in_list|].
  split; [apply (Hw BFaceS); apply elem_of_app; left; in_list|].
  split; [apply (Hw BCenterS); apply elem_of_app; left; in_list|].
  split; [apply (Hw BCenter2D); apply elem_of_app; left; in_list|].
  intros Hu. rewrite Hu in Hw.
  split; [apply (Hw BFaceU); apply elem_of_app; right; in_list|].
  split; [apply (Hw BFaceU); apply elem_of_app; right; in_list|].
  apply (Hw BCenterU); apply elem_of_app; right; in_list.
Qed.

(** The cells of the other squares are left alone. *)
Lemma UpdateFaceNormals_frame b i x y :
  loc_square b i = y * mapx d + x →
  0 ≤ x < mapx d →
  ¬ (Z.max 0 (x1 rect - 1) ≤ x ≤ Z.min (mapxm1 d) (x2 rect + 1) ∧
     Z.max 0 (z1 rect - 1) ≤ y ≤ Z.min (mapym1 d) (z2 rect + 1)) →
  rd (nget b n') i = rd (nget b n) i.
Proof.
  intros Hsq Hx Hout.
  pose proof (face_collects d init hm) as Hcol.
  unfold UpdateFaceNormals in Hrun.
  apply (norm_nest_frame (face_writes d init hm) _ _ _
           (λ y x n, Hcol y x n) _ _ _ _ Hrun).
  intros v (y' & x' & acts & Hy'%elem_of_range_incl
            & Hx'%elem_of_range_incl & Hg & Hin).
  pose proof (face_writes_square _ _ _ _ _ _ Hg Hin) as Hs.
  simpl in Hs. rewrite Hsq in Hs. unfold mapxm1 in *.
  assert (y = y' ∧ x = x') as [-> ->]
    by (apply (rowmajor_inj (mapx d)); lia).
  apply Hout. lia.
Qed.

(** Without [initialize] the unsynced normals are not written. *)
Lemma UpdateFaceNormals_unsynced :
  USE_UNSYNCED_HEIGHTMAP && init = false →
  nFaceU n' = nFaceU n ∧ nCenterU n' = nCenterU n.
Proof.
  intros Hu.
  pose proof (face_collects d init hm) as Hcol.
  unfold UpdateFaceNormals in Hrun.
  assert (Hno : ∀ b i v, b = BFaceU ∨ b = BCenterU →
            ¬ nest_writes (face_writes d init hm) ys xs (mkNAct b i v)).
  { intros b i v Hb (y & x & acts & _ & _ & Hg & Hin).
    destruct (face_writes_shape _ _ _ _ _ Hg)
      as (? & ? & ? & ? & _ & _ & _ & _ & ->).
    rewrite Hu, app_nil_r in Hin.
    repeat (apply elem_of_cons in Hin as [Hin|Hin];
            [injection Hin as -> _ _; by destruct Hb|]).
    by apply elem_of_nil in Hin. }
  split.
  - apply rd_ext.
    + apply (norm_nest_length (face_writes d init hm) _ _ _
               (λ y x n, Hcol y x n) _ _ BFaceU Hrun).
    + intros i.
      apply (norm_nest_frame (face_writes d init hm) _ _ _
               (λ y x n, Hcol y x n) _ _ BFaceU i Hrun).
      intros v. apply Hno. by left.
  - apply rd_ext.
    + apply (norm_nest_length (face_writes d init hm) _ _ _
               (λ y x n, Hcol y x n) _ _ BCenterU Hrun).
    + intros i.
      apply (norm_nest_frame (face_writes d init hm) _ _ _
               (λ y x n, Hcol y x n) _ _ BCenterU i Hrun).
      intros v. apply Hno. by right.
Qed.
End FaceRun.
End Stages.

(** * The derived buffers stay consistent with the corner grid *)

Lemma quot2_bounds z :
  z - 1 ≤ 2 * Z.quot z 2 ∧ (0 ≤ z → 2 * Z.quot z 2 ≤ z).
Proof.
  assert (2 ≠ 0) as H2 by lia.
  pose proof (Z.quot_rem z 2 H2) as Hqr.
  pose proof (Z.rem_bound_abs z 2 H2) as Habs.
  split; [lia|]. intros Hz.
  assert (0 < 2) as H02 by lia.
  pose proof (Z.rem_bound_pos z 2 Hz H02). lia.
Qed.

Lemma loc_square_face b sq k :
  b = BFaceS ∨ b = BFaceU → 0 ≤ k < 2 → loc_square b (sq * 2 + k) = sq.
Proof.
  intros [-> | ->] Hk; simpl;
    rewrite Z.add_comm, Z.div_add by lia;
    rewrite Z.div_small by lia; lia.
Qed.

Section Steps.
Context {F : Type} `{Scalar F} `{Consts}.
Variable d : MapDimensions.
Variables (rect : SRectangle) (s0 s' : CReadMap F).
Hypothesis Hrun : UpdateHeightMapSynced d rect s0 = Some s'.

Let cr := centerRect_of d rect.

Lemma step_corner x y : corner d s' x y = corner d s0 x y.
Proof.
  destruct (pipeline_inv d rect s0 s' Hrun) as (Hh & _).
  unfold corner. by rewrite Hh.
Qed.

Lemma center_cell_step x y :
  0 ≤ x < mapx d →
  (x1 cr ≤ x ≤ x2 cr ∧ z1 cr ≤ y ≤ z2 cr) ∨ center_cell_ok d s0 x y →
  center_cell_ok d s' x y.
Proof.
  intros Hx Hcase.
  destruct (pipeline_inv d rect s0 s' Hrun) as (Hh & Hc & _).
  destruct (centerRect_clamped d rect) as (Hx1 & Hz1 & Hx2 & Hz2).
  fold cr in Hc, Hx1, Hz1, Hx2, Hz2.
  unfold center_cell_ok. rewrite !step_corner. unfold corner.
  destruct (decide (x1 cr ≤ x ≤ x2 cr ∧ z1 cr ≤ y ≤ z2 cr)) as [[Hin1 Hin2]|Hout].
  - by apply (UpdateCenterHeightmap_values d cr _ _ _ x y Hc).
  - destruct Hcase as [?|Hok]; [done|].
    rewrite (UpdateCenterHeightmap_frame d cr _ _ _ x y Hc) by done.
    exact Hok.
Qed.

Lemma normals_cell_step x y :
  0 ≤ x < mapx d →
  (Z.max 0 (x1 cr - 1) ≤ x ≤ Z.min (mapxm1 d) (x2 cr + 1) ∧
   Z.max 0 (z1 cr - 1) ≤ y ≤ Z.min (mapym1 d) (z2 cr + 1)) ∨
  normals_cell_ok d s0 x y →
  normals_cell_ok d s' x y.
Proof.
  intros Hx Hcase.
  destruct (pipeline_inv d rect s0 s' Hrun) as (Hh & _ & _ & Hn & _).
  fold cr in Hn.
  unfold normals_cell_ok. rewrite !step_corner. unfold corner.
  destruct (decide
    (Z.max 0 (x1 cr - 1) ≤ x ≤ Z.min (mapxm1 d) (x2 cr + 1) ∧
     Z.max 0 (z1 cr - 1) ≤ y ≤ Z.min (mapym1 d) (z2 cr + 1)))
    as [[Hin1 Hin2]|Hout].
  - destruct (UpdateFaceNormals_written d _ _ _ _ _ Hn x y Hin1 Hin2)
      as (hTL & hTR & hBL & hBR & E1 & E2 & E3 & E4 & W1 & W2 & W3 & W4 & _).
    simpl in *. exists hTL, hTR, hBL, hBR. by repeat split.
  - destruct Hcase as [?|Hok]; [done|].
    pose proof (UpdateFaceNormals_frame d _ _ _ _ _ Hn) as Hfr.
    assert (L0 : loc_square BFaceS ((y * mapx d + x) * 2) = y * mapx d + x).
    { rewrite <- (Z.add_0_r (_ * 2)). apply loc_square_face; [by left|lia]. }
    assert (L1 : loc_square BFaceS ((y * mapx d + x) * 2 + 1)
                 = y * mapx d + x)
      by (apply loc_square_face; [by left|lia]).
    pose proof (Hfr BFaceS _ x y L0 Hx Hout) as E0.
    pose proof (Hfr BFaceS _ x y L1 Hx Hout) as E1.
    pose proof (Hfr BCenterS (y * mapx d + x) x y eq_refl Hx Hout) as E2.
    pose proof (Hfr BCenter2D (y * mapx d + x) x y eq_refl Hx Hout) as E3.
    simpl in E0, E1, E2, E3. rewrite E0, E1, E2, E3.
    exact Hok.
Qed.

Lemma slope_cell_step x y :
  0 ≤ x < hmapx d → 0 ≤ y →
  (Z.max 0 (Z.quot (x1 cr) 2 - 1) ≤ x
     ≤ Z.min (hmapx d - 1) (Z.quot (x2 cr) 2 + 1) ∧
   Z.max 0 (Z.quot (z1 cr) 2 - 1) ≤ y
     ≤ Z.min (hmapy d - 1) (Z.quot (z2 cr) 2 + 1)) ∨
  (y < hmapy d ∧ slope_cell_ok d s0 x y) →
  slope_cell_ok d s' x y.
Proof.
  intros Hx Hy Hcase.
  destruct (pipeline_inv d rect s0 s' Hrun) as (Hh & _ & _ & Hn & Hs).
  destruct (centerRect_clamped d rect) as (Hx1 & Hz1 & Hx2 & Hz2).
  fold cr in Hn, Hs, Hx1, Hz1, Hx2, Hz2.
  unfold slope_cell_ok.
  destruct (decide
    (Z.max 0 (Z.quot (x1 cr) 2 - 1) ≤ x
       ≤ Z.min (hmapx d - 1) (Z.quot (x2 cr) 2 + 1) ∧
     Z.max 0 (Z.quot (z1 cr) 2 - 1) ≤ y
       ≤ Z.min (hmapy d - 1) (Z.quot (z2 cr) 2 + 1)))
    as [[Hin1 Hin2]|Hout].
  - by apply (UpdateSlopemap_written d cr _ _ _ x y Hs).
  - destruct Hcase as [?|[Hy2 (v & Hw & Hv)]]; [done|].
    exists v.
    rewrite (UpdateSlopemap_frame d cr _ _ _ x y Hs) by done.
    split; [|done]. rewrite <- Hw.
    (* the eight normals of the cell are not rewritten *)
    pose proof (quot2_bounds (x1 cr)) as [_ Q1].
    pose proof (quot2_bounds (z1 cr)) as [_ Q2].
    pose proof (quot2_bounds (x2 cr)) as [Q3 _].
    pose proof (quot2_bounds (z2 cr)) as [Q4 _].
    assert (Hhx : 2 * hmapx d ≤ mapx d).
    { unfold hmapx. rewrite Z.shiftr_div_pow2 by lia.
      apply (Z.mul_div_le (mapx d) 2). lia. }
    assert (Hhy : 2 * hmapy d ≤ mapy d).
    { unfold hmapy. rewrite Z.shiftr_div_pow2 by lia.
      apply (Z.mul_div_le (mapy d) 2). lia. }
    assert (Hfr : ∀ a b k, 0 ≤ a < 2 → 0 ≤ b < 2 → 0 ≤ k < 2 →
              rd (faceNormalsSynced s')
                 (((y * 2 + b) * mapx d + (x * 2 + a)) * 2 + k)
              = rd (faceNormalsSynced s0)
                   (((y * 2 + b) * mapx d + (x * 2 + a)) * 2 + k)).
    { intros a b k Ha Hb Hk.
      apply (UpdateFaceNormals_frame d _ _ _ _ _ Hn BFaceS _
               (x * 2 + a) (y * 2 + b)).
      - apply loc_square_face; [by left|done].
      - lia.
      - unfold mapxm1, mapym1. lia. }
    unfold slope_writes. cbv zeta.
    pose proof (Hfr 0 0 0 ltac:(lia) ltac:(lia) ltac:(lia)) as E0.
    pose proof (Hfr 0 0 1 ltac:(lia) ltac:(lia) ltac:(lia)) as E1.
    pose proof (Hfr 1 0 0 ltac:(lia) ltac:(lia) ltac:(lia)) as E2.
    pose proof (Hfr 1 0 1 ltac:(lia) ltac:(lia) ltac:(lia)) as E3.
    pose proof (Hfr 0 1 0 ltac:(lia) ltac:(lia) ltac:(lia)) as E4.
    pose proof (Hfr 0 1 1 ltac:(lia) ltac:(lia) ltac:(lia)) as E5.
    pose proof (Hfr 1 1 0 ltac:(lia) ltac:(lia) ltac:(lia)) as E6.
    pose proof (Hfr 1 1 1 ltac:(lia) ltac:(lia) ltac:(lia)) as E7.
    replace (((y * 2 + 0) * mapx d + (x * 2 + 0)) * 2 + 0)
      with ((y * 2 * mapx d + x * 2) * 2) in E0 by lia.
    replace (((y * 2 + 0) * mapx d + (x * 2 + 0)) * 2 + 1)
      with ((y * 2 * mapx d + x * 2) * 2 + 1) in E1 by lia.
    replace (((y * 2 + 0) * mapx d + (x * 2 + 1)) * 2 + 0)
      with ((y * 2 * mapx d + x * 2 + 1) * 2) in E2 by lia.
    replace (((y * 2 + 0) * mapx d + (x * 2 + 1)) * 2 + 1)
      with ((y * 2 * mapx d + x * 2 + 1) * 2 + 1) in E3 by lia.
    replace (((y * 2 + 1) * mapx d + (x * 2 + 0)) * 2 + 0)
      with (((y * 2 + 1) * mapx d + x * 2) * 2) in E4 by lia.
    replace (((y * 2 + 1) * mapx d + (x * 2 + 0)) * 2 + 1)
      with (((y * 2 + 1) * mapx d + x * 2) * 2 + 1) in E5 by lia.
    replace (((y * 2 + 1) * mapx d + (x * 2 + 1)) * 2 + 0)
      with (((y * 2 + 1) * mapx d + x * 2 + 1) * 2) in E6 by lia.
    replace (((y * 2 + 1) * mapx d + (x * 2 + 1)) * 2 + 1)
      with (((y * 2 + 1) * mapx d + x * 2 + 1) * 2 + 1) in E7 by lia.
    by rewrite E0, E1, E2, E3, E4, E5, E6, E7.
Qed.
End Steps.

Section Consistent.
Context {F : Type} `{Scalar F} `{Consts}.
Variable d : MapDimensions.

(** [Initialize] writes every cell. *)
(** After a run over the whole map, from any state. *)
Lemma whole_map_consistent (s1 s : CReadMap F) :
  UpdateHeightMapSynced d (mkRect 0 0 (mapx d) (mapy d)) s1 = Some s →
  center_ok d s ∧ normals_ok d s ∧ slopes_ok d s.
Proof.
  intros Hrun.
  split; [|split].
  - intros x y Hx Hy. apply (center_cell_step d _ _ _ Hrun); [done|].
    left. unfold centerRect_of, mapxm1, mapym1; simpl. lia.
  - intros x y Hx Hy. apply (normals_cell_step d _ _ _ Hrun); [done|].
    left. unfold centerRect_of, mapxm1, mapym1; simpl. lia.
  - intros x y Hx Hy. apply (slope_cell_step d _ _ _ Hrun); [done|lia|].
    left. unfold centerRect_of, mapxm1, mapym1; simpl.
    pose proof (quot2_bounds (mapx d - 1)) as [Q1 _].
    pose proof (quot2_bounds (mapy d - 1)) as [Q2 _].
    assert (2 * hmapx d ≤ mapx d).
    { unfold hmapx. rewrite Z.shiftr_div_pow2 by lia.
      apply (Z.mul_div_le (mapx d) 2). lia. }
    assert (2 * hmapy d ≤ mapy d).
    { unfold hmapy. rewrite Z.shiftr_div_pow2 by lia.
      apply (Z.mul_div_le (mapy d) 2). lia. }
    replace (Z.max (0 - 1) 0) with 0 by lia.
    change (Z.quot 0 2) with 0.
    replace (Z.min (mapx d + 1) (mapx d - 1)) with (mapx d - 1) by lia.
    replace (Z.min (mapy d + 1) (mapy d - 1)) with (mapy d - 1) by lia.
    lia.
Qed.

Lemma Initialize_consistent (hm : list F) (s : CReadMap F) :
  Initialize d hm = Returned s →
  center_ok d s ∧ normals_ok d s ∧ slopes_ok d s.
Proof.
  intros (s1 & _ & Hrun)%Initialize_inv.
  by apply (whole_map_consistent s1).
Qed.

Lemma slopes_ok_step rect (s0 s' : CReadMap F) :
  UpdateHeightMapSynced d rect s0 = Some s' →
  slopes_ok d s0 → slopes_ok d s'.
Proof.
  intros Hrun Hok x y Hx Hy.
  apply (slope_cell_step d _ _ _ Hrun); [done|lia|].
  right. split; [lia|]. by apply Hok.
Qed.

Lemma reachable_slopes_ok (s : CReadMap F) :
  reachable d s → slopes_ok d s.
Proof.
  induction 1 as [hm s Hinit|s hm rect u s' Hr IH Hlen Hrun].
  - by apply (Initialize_consistent hm).
  - apply (slopes_ok_step _ _ _ Hrun). exact IH.
Qed.

(** The corners of a square away from the edited rectangle. *)
Lemma edited_within_corner rect (s : CReadMap F) hm u x y :
  edited_within d rect (heightMapSynced s) hm →
  0 ≤ x ≤ mapx d → 0 ≤ y ≤ mapy d →
  ¬ (x1 rect ≤ x ≤ x2 rect ∧ z1 rect ≤ y ≤ z2 rect) →
  corner d (with_heights s hm u) x y = corner d s x y.
Proof. intros [_ He] Hx Hy Hout. unfold corner; simpl. by apply He. Qed.

Lemma edits_consistent (s : CReadMap F) :
  reachable_by_edits d s →
  center_ok d s ∧ normals_ok d s ∧ slopes_ok d s.
Proof.
  induction 1 as [hm s Hinit|s hm rect u s' Hr (IHc & IHn & IHs) Hed Hrun].
  - by apply (Initialize_consistent hm).
  - split; [|split].
    + intros x y Hx Hy. apply (center_cell_step d _ _ _ Hrun); [done|].
      destruct (decide
        (x1 (centerRect_of d rect) ≤ x ≤ x2 (centerRect_of d rect) ∧
         z1 (centerRect_of d rect) ≤ y ≤ z2 (centerRect_of d rect)))
        as [|Hout]; [by left|right].
      unfold centerRect_of, mapxm1, mapym1 in Hout; simpl in Hout.
      destruct (IHc x y Hx Hy) as (a & b & c & e & E1 & E2 & E3 & E4 & E5).
      exists a, b, c, e.
      rewrite !(edited_within_corner rect s hm u) by (done || lia).
      by repeat split.
    + intros x y Hx Hy. apply (normals_cell_step d _ _ _ Hrun); [done|].
      match goal with |- ?P ∨ _ => destruct (decide P) as [|Hout] end;
        [by left|right].
      unfold centerRect_of, mapxm1, mapym1 in Hout; simpl in Hout.
      destruct (IHn x y Hx Hy)
        as (a & b & c & e & E1 & E2 & E3 & E4 & E5 & E6 & E7 & E8).
      exists a, b, c, e.
      rewrite !(edited_within_corner rect s hm u) by (done || lia).
      by repeat split.
    + apply (slopes_ok_step _ _ _ Hrun).
      intros x y Hx Hy. exact (IHs x y Hx Hy).
Qed.
End Consistent.

(** * The mip pyramid after a run over the whole map *)

Section MipLevels.
Context {F : Type} `{Scalar F} `{Consts}.
Variable d : MapDimensions.

Lemma mip_writes_shape i (top : list F) y x acts :
  mip_writes d i top y x = Some acts →
  ∃ h0 h1 h2 h3,
    rd top (x + y * Z.shiftr (mapx d) i) = Some h0 ∧
    rd top (x + (y + 1) * Z.shiftr (mapx d) i) = Some h1 ∧
    rd top ((x + 1) + y * Z.shiftr (mapx d) i) = Some h2 ∧
    rd top ((x + 1) + (y + 1) * Z.shiftr (mapx d) i) = Some h3 ∧
    acts = [(Z.quot x 2 + Z.quot (Z.quot y 2 * Z.shiftr (mapx d) i) 2,
             mean4 h0 h1 h2 h3)].
Proof.
  unfold mip_writes. cbv zeta. intros Hg.
  destruct (rd top (x + y * Z.shiftr (mapx d) i)) as [h0|];
    simpl in Hg; [|done].
  destruct (rd top (x + (y + 1) * Z.shiftr (mapx d) i)) as [h1|];
    simpl in Hg; [|done].
  destruct (rd top (x + 1 + y * Z.shiftr (mapx d) i)) as [h2|];
    simpl in Hg; [|done].
  destruct (rd top (x + 1 + (y + 1) * Z.shiftr (mapx d) i)) as [h3|];
    simpl in Hg; [|done].
  injection Hg as <-. exists h0, h1, h2, h3. by repeat split.
Qed.

(** The cell a visited block is written to. *)
Lemma mip_index i X Y :
  0 ≤ i → (2 ^ (i + 1) | mapx d) → 0 ≤ X → 0 ≤ Y → 0 ≤ mapx d →
  Z.quot (2 * X) 2 + Z.quot (Z.quot (2 * Y) 2 * Z.shiftr (mapx d) i) 2
  = X + Y * Z.shiftr (mapx d) (i + 1).
Proof.
  intros Hi Hd HX HY Hm.
  rewrite (shiftr_succ_half _ i Hi Hd).
  rewrite !(Z.mul_comm 2 X), !(Z.mul_comm 2 Y), !Z.quot_mul by lia.
  replace (Y * (2 * Z.shiftr (mapx d) (i + 1)))
    with (Y * Z.shiftr (mapx d) (i + 1) * 2) by lia.
  by rewrite Z.quot_mul by lia.
Qed.

(** A block the loops of one level visit is averaged into its cell. *)
Lemma UpdateMipLevel_written rect i (top sub sub' : list F) X Y :
  UpdateMipLevel d rect i top sub = Some sub' →
  0 ≤ i → 0 < mapx d → (2 ^ (i + 1) | mapx d) →
  0 ≤ x1 rect → 0 ≤ z1 rect → x2 rect ≤ mapxm1 d →
  Z.land (Z.shiftr (x1 rect) i) (Z.lnot 1) ≤ 2 * X < Z.shiftr (x2 rect) i →
  Z.land (Z.shiftr (z1 rect) i) (Z.lnot 1) ≤ 2 * Y < Z.shiftr (z2 rect) i →
  ∃ h0 h1 h2 h3,
    rd top (2 * X + 2 * Y * Z.shiftr (mapx d) i) = Some h0 ∧
    rd top (2 * X + (2 * Y + 1) * Z.shiftr (mapx d) i) = Some h1 ∧
    rd top ((2 * X + 1) + 2 * Y * Z.shiftr (mapx d) i) = Some h2 ∧
    rd top ((2 * X + 1) + (2 * Y + 1) * Z.shiftr (mapx d) i) = Some h3 ∧
    rd sub' (X + Y * Z.shiftr (mapx d) (i + 1))
      = Some (mean4 h0 h1 h2 h3).
Proof.
  unfold mapxm1. intros Hrun Hi Hmx Hdx Hx1 Hz1 Hx2 HX HY.
  pose proof (mip_collects d i top) as Hcol.
  rewrite !land_lnot_1 in *.
  pose proof (shiftr_nonneg' (x1 rect) i Hx1) as Hsx.
  pose proof (shiftr_nonneg' (z1 rect) i Hz1) as Hsy.
  assert (0 ≤ Z.shiftr (x1 rect) i `div` 2) as Hsx2
    by (apply Z.div_pos; lia).
  assert (0 ≤ Z.shiftr (z1 rect) i `div` 2) as Hsy2
    by (apply Z.div_pos; lia).
  pose proof (shiftr_mono_le _ _ i Hi Hx2) as Hex.
  rewrite shiftr_pred_of_multiple in Hex
    by first [lia | (eapply divide_pow2_le; [|eassumption]; lia)].
  pose proof (shiftr_succ_half _ i Hi Hdx) as Hhx.
  set (ys := range_step 2 (Z.land (Z.shiftr (z1 rect) i) (Z.lnot 1))
               (Z.shiftr (z2 rect) i)).
  set (xs := range_step 2 (Z.land (Z.shiftr (x1 rect) i) (Z.lnot 1))
               (Z.shiftr (x2 rect) i)).
  assert (Hyin : 2 * Y ∈ ys).
  { unfold ys. rewrite land_lnot_1. apply elem_of_range_step; [lia|].
    exists (Y - Z.shiftr (z1 rect) i `div` 2). lia. }
  assert (Hxin : 2 * X ∈ xs).
  { unfold xs. rewrite land_lnot_1. apply elem_of_range_step; [lia|].
    exists (X - Z.shiftr (x1 rect) i `div` 2). lia. }
  unfold UpdateMipLevel in Hrun. cbv zeta in Hrun. fold ys xs in Hrun.
  destruct (buf_nest_reads (mip_writes d i top) _ ys xs Hcol
              _ _ (2 * Y) (2 * X) Hrun Hyin Hxin) as [acts Hacts].
  destruct (mip_writes_shape _ _ _ _ _ Hacts)
    as (h0 & h1 & h2 & h3 & E0 & E1 & E2 & E3 & Hshape).
  exists h0, h1, h2, h3. do 4 (split; [done|]).
  rewrite mip_index in Hshape by (done || lia).
  apply (buf_nest_written (mip_writes d i top) _ ys xs Hcol _ _ _ _ Hrun).
  - exists (2 * Y), (2 * X), acts. repeat split; try done.
    rewrite Hshape. by apply list_elem_of_singleton.
  - intros v' (y' & x' & acts' & Hy' & Hx' & Hg' & Hin).
    unfold ys in Hy'. unfold xs in Hx'. rewrite land_lnot_1 in Hy', Hx'.
    apply elem_of_range_step in Hy' as (ky & -> & Hky & Hylt); [|lia].
    apply elem_of_range_step in Hx' as (kx & -> & Hkx & Hxlt); [|lia].
    destruct (mip_writes_shape _ _ _ _ _ Hg')
      as (g0 & g1 & g2 & g3 & _ & _ & _ & _ & Hshape').
    set (X' := Z.shiftr (x1 rect) i `div` 2 + kx) in *.
    set (Y' := Z.shiftr (z1 rect) i `div` 2 + ky) in *.
    replace (2 * (Z.shiftr (x1 rect) i `div` 2) + 2 * kx)
      with (2 * X') in * by (unfold X'; lia).
    replace (2 * (Z.shiftr (z1 rect) i `div` 2) + 2 * ky)
      with (2 * Y') in * by (unfold Y'; lia).
    rewrite mip_index in Hshape' by (done || (unfold X', Y'; lia)).
    rewrite Hshape' in Hin. apply list_elem_of_singleton in Hin.
    injection Hin as Hidx ->.
    assert (Y = Y' ∧ X = X') as [<- <-].
    { apply (rowmajor_inj (Z.shiftr (mapx d) (i + 1))); lia. }
    rewrite Hacts in Hg'. injection Hg' as Heq.
    rewrite Hshape, Hshape' in Heq. by injection Heq.
Qed.

(** The levels of the pyramid after [UpdateMipHeightmaps] has run over
    the whole center grid. *)
Lemma UpdateMipHeightmaps_whole (c : list F) (mips mips' : list (list F)) :
  dims_ok d →
  UpdateMipHeightmaps d (mkRect 0 0 (mapxm1 d) (mapym1 d)) c mips
    = Some mips' →
  ∀ i X Y, 0 ≤ i < numHeightMipMaps - 1 →
    0 ≤ X < Z.shiftr (mapx d) (i + 1) →
    0 ≤ Y < Z.shiftr (mapy d) (i + 1) →
    ∃ top sub h0 h1 h2 h3,
      mipPointer c mips' i = Some top ∧
      mipPointer c mips' (i + 1) = Some sub ∧
      rd top (2 * X + 2 * Y * Z.shiftr (mapx d) i) = Some h0 ∧
      rd top (2 * X + (2 * Y + 1) * Z.shiftr (mapx d) i) = Some h1 ∧
      rd top ((2 * X + 1) + 2 * Y * Z.shiftr (mapx d) i) = Some h2 ∧
      rd top ((2 * X + 1) + (2 * Y + 1) * Z.shiftr (mapx d) i) = Some h3 ∧
      rd sub (X + Y * Z.shiftr (mapx d) (i + 1))
        = Some (mean4 h0 h1 h2 h3).
Proof.
  intros (HL & Hmx & Hmy & Hdx & Hdy) Hrun.
  set (level_ok := λ (m : list (list F)) (i : Z),
    ∀ X Y, 0 ≤ X < Z.shiftr (mapx d) (i + 1) →
      0 ≤ Y < Z.shiftr (mapy d) (i + 1) →
      ∃ top sub h0 h1 h2 h3,
        mipPointer c m i = Some top ∧
        mipPointer c m (i + 1) = Some sub ∧
        rd top (2 * X + 2 * Y * Z.shiftr (mapx d) i) = Some h0 ∧
        rd top (2 * X + (2 * Y + 1) * Z.shiftr (mapx d) i) = Some h1 ∧
        rd top ((2 * X + 1) + 2 * Y * Z.shiftr (mapx d) i) = Some h2 ∧
        rd top ((2 * X + 1) + (2 * Y + 1) * Z.shiftr (mapx d) i) = Some h3 ∧
        rd sub (X + Y * Z.shiftr (mapx d) (i + 1))
          = Some (mean4 h0 h1 h2 h3)).
  unfold UpdateMipHeightmaps in Hrun.
  assert (G : ∀ n, 0 ≤ n → n ≤ numHeightMipMaps - 1 → ∀ m,
    forM (range_excl 0 n) (λ i mips,
       topMipMap ← mipPointer c mips i;
       subMipMap ← mipPointer c mips (i + 1);
       sub' ← UpdateMipLevel d (mkRect 0 0 (mapxm1 d) (mapym1 d)) i
                topMipMap subMipMap;
       wr mips i sub') mips = Some m →
    ∀ j, 0 ≤ j < n → level_ok m j).
  { intros n Hn. pattern n. apply natlike_ind; [| |done]; clear n Hn.
    - intros _ m _ j Hj. lia.
    - intros k Hk IH Hle m Hm j Hj. unfold Z.succ in *.
      rewrite range_excl_snoc, forM_snoc in Hm by lia.
      destruct (forM (range_excl 0 k) _ mips) as [m0|] eqn:E0;
        simpl in Hm; [|done].
      specialize (IH ltac:(lia) m0 eq_refl).
      destruct (mipPointer c m0 k) as [top|] eqn:Etop; simpl in Hm; [|done].
      destruct (mipPointer c m0 (k + 1)) as [sub|] eqn:Esub;
        simpl in Hm; [|done].
      destruct (UpdateMipLevel d (mkRect 0 0 (mapxm1 d) (mapym1 d)) k top sub)
        as [sub'|] eqn:Elev; simpl in Hm; [|done].
      assert (Hptr : ∀ l, l ≠ k + 1 → mipPointer c m l = mipPointer c m0 l).
      { intros l Hl. unfold mipPointer. case_decide; [done|].
        apply (rd_wr_ne _ _ _ _ _ Hm). lia. }
      destruct (decide (j = k)) as [->|Hjk].
      + intros X Y HX HY.
        assert (Hdk : (2 ^ (k + 1) | mapx d))
          by (eapply divide_pow2_le; [|exact Hdx]; lia).
        assert (Hdk' : (2 ^ (k + 1) | mapy d))
          by (eapply divide_pow2_le; [|exact Hdy]; lia).
        assert (Hdk0 : (2 ^ k | mapx d))
          by (eapply divide_pow2_le; [|exact Hdx]; lia).
        assert (Hdk0' : (2 ^ k | mapy d))
          by (eapply divide_pow2_le; [|exact Hdy]; lia).
        pose proof (shiftr_succ_half _ k Hk Hdk) as Hhx.
        pose proof (shiftr_succ_half _ k Hk Hdk') as Hhy.
        destruct (UpdateMipLevel_written _ k top sub sub' X Y Elev)
          as (h0 & h1 & h2 & h3 & R0 & R1 & R2 & R3 & W);
          try done; cbn [x1 x2 z1 z2]; try (unfold mapxm1; lia).
        { rewrite Z.shiftr_0_l, land_lnot_1. change (0 `div` 2) with 0.
          unfold mapxm1. rewrite shiftr_pred_of_multiple by (done || lia).
          lia. }
        { rewrite Z.shiftr_0_l, land_lnot_1. change (0 `div` 2) with 0.
          unfold mapym1. rewrite shiftr_pred_of_multiple by (done || lia).
          lia. }
        exists top, sub', h0, h1, h2, h3.
        rewrite Hptr by lia. split; [done|].
        split; [|done].
        unfold mipPointer. rewrite decide_False by lia.
        replace (k + 1 - 1) with k by lia. by apply (rd_wr_eq _ _ _ _ Hm).
      + intros X Y HX HY.
        destruct (IH j ltac:(lia) X Y HX HY)
          as (t0 & s0 & h0 & h1 & h2 & h3 & P0 & P1 & R).
        exists t0, s0, h0, h1, h2, h3.
        rewrite !Hptr by lia. done. }
  intros i X Y Hi. apply (G (numHeightMipMaps - 1)); (done || lia).
Qed.
End MipLevels.

(** * More on initialisation *)

Lemma SRectangle_eqb_eq (a b : SRectangle) :
  SRectangle_eqb a b = true ↔ a = b.
Proof.
  unfold SRectangle_eqb. destruct a, b; simpl.
  rewrite !andb_true_iff, !Z.eqb_eq. split.
  - by intros [[[-> ->] ->] ->].
  - by intros [= -> -> -> ->].
Qed.

Lemma copy_loop {A} (hm mf : list A) k :
  0 ≤ k → k ≤ Z.of_nat (length hm) → length mf = length hm →
  forM (range_excl 0 k) (λ i mf, h ← rd hm i; wr mf i h) mf
  = Some (take (Z.to_nat k) hm ++ drop (Z.to_nat k) mf).
Proof.
  intros Hk. pattern k. apply natlike_ind; [| |done]; clear k Hk.
  - done.
  - intros k Hk IH Hle Hlen. unfold Z.succ.
    rewrite range_excl_snoc, forM_snoc by done.
    rewrite IH by lia. simpl.
    destruct (rd_in_range hm k) as [h Hh]; [lia|]. rewrite Hh. simpl.
    apply rd_Some in Hh as [_ Hh].
    rewrite wr_in_range
      by (rewrite length_app, length_take, length_drop; lia).
    replace (Z.to_nat (k + 1)) with (S (Z.to_nat k)) by lia.
    f_equal. apply insert_take_drop; [done|lia].
Qed.

Section InitMore.
Context {F : Type} `{Scalar F} `{Consts}.
Variable d : MapDimensions.

Lemma copy_bounds_loop (hm orig : list F) (b : F * F) k :
  0 ≤ k → k ≤ Z.of_nat (length hm) → length orig = length hm →
  forM (range_excl 0 k) (λ i r,
    h ← rd hm i;
    orig ← wr (r.1) i h;
    Some (orig, (std_min (r.2.1) h, std_max (r.2.2) h))) (orig, b)
  = Some (take (Z.to_nat k) hm ++ drop (Z.to_nat k) orig,
          foldl (λ b h, (std_min (b.1) h, std_max (b.2) h)) b
                (take (Z.to_nat k) hm)).
Proof.
  intros Hk. pattern k. apply natlike_ind; [| |done]; clear k Hk.
  - done.
  - intros k Hk IH Hle Hlen. unfold Z.succ.
    rewrite range_excl_snoc, forM_snoc by done.
    rewrite IH by lia. simpl.
    destruct (rd_in_range hm k) as [h Hh]; [lia|]. rewrite Hh. simpl.
    apply rd_Some in Hh as [_ Hh].
    rewrite wr_in_range
      by (rewrite length_app, length_take, length_drop; lia).
    simpl.
    replace (Z.to_nat (k + 1)) with (S (Z.to_nat k)) by lia.
    rewrite (take_S_r hm _ h Hh), foldl_app. simpl.
    do 2 f_equal. rewrite <- (take_S_r hm _ h Hh).
    apply insert_take_drop; [done|lia].
Qed.

Lemma init_fold_is_scan (P : F → Prop) (l : list F) (b : F * F) :
  strict_total_on fltb P → Forall P l → P (b.1) → P (b.2) →
  foldl (λ b h, (std_min (b.1) h, std_max (b.2) h)) b l = bounds_of l b.
Proof.
  intros Hord Hl. unfold bounds_of. revert b.
  induction Hl as [|h l Ph Hl IH]; intros b P1 P2; simpl; [done|].
  rewrite IH.
  - f_equal. f_equal.
    + by apply (lesser_comm fltb P Hord).
    + by apply (lesser_comm (λ a b, fltb b a) P
                  (strict_total_flip fltb P Hord)).
  - by apply (lesser_in fltb P).
  - by apply (lesser_in (λ a b, fltb b a) P).
Qed.

Lemma InitHeightBounds_result (s : CReadMap F) :
  Z.of_nat (length (heightMapSynced s)) = mapxp1 d * mapyp1 d →
  length (mapFileHeightMap s) = length (heightMapSynced s) →
  length (originalHeightMap s) = length (heightMapSynced s) →
  let hm := heightMapSynced s in
  let b := foldl (λ b h, (std_min (b.1) h, std_max (b.2) h))
             (FLT_MAX, FLT_LOWEST) hm in
  InitHeightBounds d s
  = Some (mkReadMap hm hm hm
            (centerHeightMap s) (mipCenterHeightMaps s)
            (faceNormalsSynced s) (faceNormalsUnsynced s)
            (centerNormalsSynced s) (centerNormalsUnsynced s)
            (centerNormals2D s) (slopeMap s) (unsyncedHeightMapUpdates s)
            b (FLT_MAX, FLT_LOWEST) b
            (hmUpdated s) (processingHeightBounds s)).
Proof.
  intros Hlen Hmf Hor hm b. unfold InitHeightBounds.
  rewrite copy_loop by lia. simpl.
  rewrite copy_bounds_loop by lia. simpl.
  rewrite <- Hlen, Nat2Z.id.
  rewrite !firstn_all, !drop_ge, !app_nil_r by lia. done.
Qed.

Lemma pipeline_keeps_rest rect (s s' : CReadMap F) :
  UpdateHeightMapSynced d rect s = Some s' →
  mapFileHeightMap s' = mapFileHeightMap s ∧
  originalHeightMap s' = originalHeightMap s ∧
  initHeightBounds s' = initHeightBounds s ∧
  tempHeightBounds s' = tempHeightBounds s ∧
  currHeightBounds s' = currHeightBounds s ∧
  hmUpdated s' = hmUpdated s ∧
  processingHeightBounds s' = processingHeightBounds s ∧
  unsyncedHeightMapUpdates s' =
    (if USE_UNSYNCED_HEIGHTMAP then
       if SRectangle_eqb rect (mkRect 0 0 (mapx d) (mapy d))
       then unsyncedHeightMapUpdates s ++ [cornerRect_of d rect]
       else HeightMapUpdateLOSCheck (cornerRect_of d rect)
              (unsyncedHeightMapUpdates s)
     else unsyncedHeightMapUpdates s ++ [cornerRect_of d rect]).
Proof.
  unfold UpdateHeightMapSynced. intros Hrun.
  destruct (UpdateCenterHeightmap _ _ _ _) as [c|]; simpl in Hrun; [|done].
  destruct (UpdateMipHeightmaps _ _ _ _) as [m|]; simpl in Hrun; [|done].
  destruct (UpdateFaceNormals _ _ _ _ _) as [n|]; simpl in Hrun; [|done].
  destruct (UpdateSlopemap _ _ _ _) as [sm|]; simpl in Hrun; [|done].
  injection Hrun as <-. simpl. done.
Qed.

(** What [Initialize] leaves besides the derived buffers. *)
Lemma Initialize_rest (hm : list F) (s : CReadMap F) :
  Z.of_nat (length hm) = mapxp1 d * mapyp1 d →
  Initialize d hm = Returned s →
  heightMapSynced s = hm ∧ mapFileHeightMap s = hm ∧
  originalHeightMap s = hm ∧
  initHeightBounds s
    = foldl (λ b h, (std_min (b.1) h, std_max (b.2) h))
        (FLT_MAX, FLT_LOWEST) hm ∧
  currHeightBounds s = initHeightBounds s ∧
  tempHeightBounds s = (FLT_MAX, FLT_LOWEST) ∧
  hmUpdated s = initial_hmUpdated ∧
  processingHeightBounds s = initial_processingHeightBounds.
Proof.
  intros Hlen (s1 & Hib & Hrun)%Initialize_inv.
  rewrite InitHeightBounds_result in Hib; simpl; try done.
  2, 3: unfold resized; rewrite length_replicate; lia.
  injection Hib as <-.
  destruct (pipeline_inv d _ _ _ Hrun) as (Hh & _).
  destruct (pipeline_keeps_rest _ _ _ Hrun)
    as (E1 & E2 & E3 & E4 & E5 & E6 & E7 & _).
  simpl in *. by rewrite Hh, E1, E2, E3, E4, E5, E6, E7.
Qed.

(** A run over the whole map with the unsynced height map in use. *)
Lemma full_update_normals (s s' : CReadMap F) :
  USE_UNSYNCED_HEIGHTMAP = true →
  0 < mapx d → 0 < mapy d →
  Z.of_nat (length (faceNormalsSynced s)) = mapx d * mapy d * 2 →
  Z.of_nat (length (centerNormalsSynced s)) = mapx d * mapy d →
  length (faceNormalsUnsynced s) = length (faceNormalsSynced s) →
  length (centerNormalsUnsynced s) = length (centerNormalsSynced s) →
  UpdateHeightMapSynced d (mkRect 0 0 (mapx d) (mapy d)) s = Some s' →
  faceNormalsUnsynced s' = faceNormalsSynced s' ∧
  centerNormalsUnsynced s' = centerNormalsSynced s'.
Proof.
  intros Hu Hmx Hmy HfS HcS HfU HcU Hrun.
  destruct (pipeline_inv d _ _ _ Hrun) as (_ & _ & _ & Hn & _).
  assert (SRectangle_eqb (mkRect 0 0 (mapx d) (mapy d))
            (mkRect 0 0 (mapx d) (mapy d)) = true) as Hinit
    by by apply SRectangle_eqb_eq.
  rewrite Hinit in Hn.
  pose proof (face_collects d true (heightMapSynced s)) as Hcol.
  assert (Hlen : ∀ b, length (nget b (mkNormals (faceNormalsSynced s')
              (centerNormalsSynced s') (centerNormals2D s')
              (faceNormalsUnsynced s') (centerNormalsUnsynced s')))
            = length (nget b (mkNormals (faceNormalsSynced s)
              (centerNormalsSynced s) (centerNormals2D s)
              (faceNormalsUnsynced s) (centerNormalsUnsynced s)))).
  { intros b. unfold UpdateFaceNormals in Hn.
    apply (norm_nest_length (face_writes d true (heightMapSynced s)) _ _ _
             (λ y x n, Hcol y x n) _ _ b Hn). }
  pose proof (Hlen BFaceS) as LfS. pose proof (Hlen BFaceU) as LfU.
  pose proof (Hlen BCenterS) as LcS. pose proof (Hlen BCenterU) as LcU.
  simpl in LfS, LfU, LcS, LcU.
  assert (Hcell : ∀ x y, 0 ≤ x < mapx d → 0 ≤ y < mapy d →
    rd (faceNormalsUnsynced s') ((y * mapx d + x) * 2)
      = rd (faceNormalsSynced s') ((y * mapx d + x) * 2) ∧
    rd (faceNormalsUnsynced s') ((y * mapx d + x) * 2 + 1)
      = rd (faceNormalsSynced s') ((y * mapx d + x) * 2 + 1) ∧
    rd (centerNormalsUnsynced s') (y * mapx d + x)
      = rd (centerNormalsSynced s') (y * mapx d + x)).
  { intros x y Hx Hy.
    destruct (UpdateFaceNormals_written d _ _ _ _ _ Hn x y)
      as (a & b & c & e & _ & _ & _ & _ & W1 & W2 & W3 & _ & WU).
    { unfold centerRect_of, mapxm1; simpl. lia. }
    { unfold centerRect_of, mapym1; simpl. lia. }
    destruct WU as (U1 & U2 & U3); [by rewrite Hu|].
    simpl in *. by rewrite W1, W2, W3, U1, U2, U3. }
  split.
  - apply rd_ext; [lia|]. intros i.
    destruct (decide (0 ≤ i < mapx d * mapy d * 2)) as [Hi|Hi].
    + set (sq := i `div` 2). set (k := i `mod` 2).
      set (y := sq `div` mapx d). set (x := sq `mod` mapx d).
      assert (i = sq * 2 + k)
        by (unfold sq, k; pose proof (Z.div_mod i 2); lia).
      assert (0 ≤ k < 2) by (apply Z.mod_pos_bound; lia).
      assert (sq = y * mapx d + x)
        by (unfold y, x; pose proof (Z.div_mod sq (mapx d)); lia).
      assert (0 ≤ x < mapx d) by (apply Z.mod_pos_bound; lia).
      assert (0 ≤ sq < mapx d * mapy d) by lia.
      assert (0 ≤ y < mapy d).
      { split; [apply Z.div_pos; lia|].
        apply Z.div_lt_upper_bound; lia. }
      destruct (Hcell x y) as (C1 & C2 & _); [done..|].
      destruct (decide (k = 0)).
      * replace i with ((y * mapx d + x) * 2) by lia. done.
      * replace i with ((y * mapx d + x) * 2 + 1) by lia. done.
    + unfold rd. case_decide; [|done].
      rewrite !lookup_ge_None_2 by lia. done.
  - apply rd_ext; [lia|]. intros i.
    destruct (decide (0 ≤ i < mapx d * mapy d)) as [Hi|Hi].
    + set (y := i `div` mapx d). set (x := i `mod` mapx d).
      assert (i = y * mapx d + x)
        by (unfold y, x; pose proof (Z.div_mod i (mapx d)); lia).
      assert (0 ≤ x < mapx d) by (apply Z.mod_pos_bound; lia).
      assert (0 ≤ y < mapy d).
      { split; [apply Z.div_pos; lia|].
        apply Z.div_lt_upper_bound; lia. }
      destruct (Hcell x y) as (_ & _ & C3); [done..|].
      replace i with (y * mapx d + x) by lia. done.
    + unfold rd. case_decide; [|done].
      rewrite !lookup_ge_None_2 by lia. done.
Qed.

Lemma partial_update_unsynced rect (s s' : CReadMap F) :
  rect ≠ mkRect 0 0 (mapx d) (mapy d) →
  UpdateHeightMapSynced d rect s = Some s' →
  faceNormalsUnsynced s' = faceNormalsUnsynced s ∧
  centerNormalsUnsynced s' = centerNormalsUnsynced s.
Proof.
  intros Hne Hrun.
  destruct (pipeline_inv d _ _ _ Hrun) as (_ & _ & _ & Hn & _).
  destruct (UpdateFaceNormals_unsynced d _ _ _ _ _ Hn) as [E1 E2]; [|done].
  destruct (SRectangle_eqb rect (mkRect 0 0 (mapx d) (mapy d))) eqn:E.
  - by apply SRectangle_eqb_eq in E.
  - apply andb_false_r.
Qed.
End InitMore.

(** * The digests of the line-of-sight squares *)

Lemma forM_bind {J K S} (l : list J) (g : J → list K)
    (body : K → S → option S) (s : S) :
  forM (l ≫= g) body s = forM l (λ j s, forM (g j) body s) s.
Proof.
  revert s. induction l as [|j l IH]; intros s; [done|].
  change ((j :: l) ≫= g) with (g j ++ (l ≫= g)).
  rewrite forM_app. simpl. destruct (forM (g j) body s); simpl; auto.
Qed.

(** A loop that reads, changes and writes back one cell per iteration, no
    cell twice. *)
Lemma rmw_loop {A} (f : A → A) (idxs : list Z) (sd sd' : list A) :
  NoDup idxs →
  forM idxs (λ i sd, v ← rd sd i; wr sd i (f v)) sd = Some sd' →
  length sd' = length sd ∧
  (∀ i, i ∈ idxs → rd sd' i = f <$> rd sd i) ∧
  (∀ i, i ∉ idxs → rd sd' i = rd sd i).
Proof.
  revert sd. induction idxs as [|i0 idxs IH]; intros sd Hnd Hrun.
  - injection Hrun as <-. split; [done|]. split; [|done].
    intros i Hi. by apply elem_of_nil in Hi.
  - apply NoDup_cons in Hnd as [Hnotin Hnd]. simpl in Hrun.
    destruct (rd sd i0) as [v|] eqn:Hv; simpl in Hrun; [|done].
    destruct (wr sd i0 (f v)) as [sd1|] eqn:Hw; simpl in Hrun; [|done].
    destruct (IH sd1 Hnd Hrun) as (Hlen & Hin & Hout).
    split; [by rewrite Hlen, (wr_length _ _ _ _ Hw)|]. split.
    + intros i [->|Hi]%elem_of_cons.
      * rewrite (Hout _ Hnotin), (rd_wr_eq _ _ _ _ Hw), Hv. done.
      * rewrite (Hin _ Hi). f_equal.
        apply (rd_wr_ne _ _ _ _ _ Hw). by intros ->.
    + intros i Hi. apply not_elem_of_cons in Hi as [Hne Hi].
      rewrite (Hout _ Hi). by apply (rd_wr_ne _ _ _ _ _ Hw).
Qed.

Section DigestRun.
Variable los_size : Z * Z.
Let w := los_size.1 + 1.

Lemma rect_indices_NoDup (rect : SRectangle) :
  0 ≤ x1 rect → x2 rect ≤ los_size.1 →
  NoDup (range_incl (z1 rect) (z2 rect) ≫= λ z,
           (λ x, x + z * w) <$> range_incl (x1 rect) (x2 rect)).
Proof.
  intros Hx1 Hx2. apply NoDup_bind.
  - intros a b y _ _ (x & -> & Hx)%list_elem_of_fmap
      (x' & E & Hx')%list_elem_of_fmap.
    unfold range_incl in Hx, Hx'. apply elem_of_seqZ in Hx, Hx'.
    destruct (rowmajor_inj w a x b x'); [unfold w; lia..|done].
  - intros z _. apply NoDup_fmap_2; [|apply NoDup_seqZ].
    intros a b. lia.
  - apply NoDup_seqZ.
Qed.

Lemma rect_indices_elem (rect : SRectangle) x z :
  0 ≤ x1 rect → x2 rect ≤ los_size.1 → 0 ≤ x ≤ los_size.1 →
  x + z * w ∈ (range_incl (z1 rect) (z2 rect) ≫= λ z,
                 (λ x, x + z * w) <$> range_incl (x1 rect) (x2 rect))
  ↔ x1 rect ≤ x ≤ x2 rect ∧ z1 rect ≤ z ≤ z2 rect.
Proof.
  intros Hx1 Hx2 Hx. rewrite list_elem_of_bind. split.
  - intros (z' & (x' & E & Hx')%list_elem_of_fmap & Hz').
    unfold range_incl in Hx', Hz'. apply elem_of_seqZ in Hx', Hz'.
    destruct (rowmajor_inj w z x z' x'); [unfold w; lia..|]. lia.
  - intros [Hxr Hzr]. exists z. split.
    + apply list_elem_of_fmap. exists x. split; [done|].
      unfold range_incl. apply elem_of_seqZ. lia.
    + unfold range_incl. apply elem_of_seqZ. lia.
Qed.

Lemma IncrementDigests_cells (rect : SRectangle) (dg dg' : DigestVectors) :
  0 ≤ x1 rect → x2 rect ≤ los_size.1 →
  IncrementDigests los_size rect dg = Some dg' →
  unsyncedHeightMapDigests dg' = unsyncedHeightMapDigests dg ∧
  ∀ x z, 0 ≤ x ≤ los_size.1 →
    rd (syncedHeightMapDigests dg') (x + z * w)
    = if decide (x1 rect ≤ x ≤ x2 rect ∧ z1 rect ≤ z ≤ z2 rect)
      then (λ v, (v + 1) `mod` 256) <$>
             rd (syncedHeightMapDigests dg) (x + z * w)
      else rd (syncedHeightMapDigests dg) (x + z * w).
Proof.
  intros Hx1 Hx2. unfold IncrementDigests. intros Hrun.
  destruct (forM _ _ _) as [sd|] eqn:Hloop; simpl in Hrun; [|done].
  injection Hrun as <-. simpl. split; [done|].
  rewrite (forM_ext _ _ (λ z sd,
    forM ((λ x, x + z * w) <$> range_incl (x1 rect) (x2 rect))
         (λ i sd, v ← rd sd i; wr sd i ((v + 1) `mod` 256)) sd)) in Hloop
    by (intros z s; by rewrite forM_fmap).
  rewrite <- (forM_bind _ (λ z, (λ x, x + z * w) <$> range_incl _ _))
    in Hloop.
  destruct (rmw_loop (λ v, (v + 1) `mod` 256) _ _ _
              (rect_indices_NoDup rect Hx1 Hx2) Hloop) as (_ & Hin & Hout).
  intros x z Hx. case_decide as Hc.
  - apply Hin. by apply rect_indices_elem.
  - apply Hout. by rewrite rect_indices_elem.
Qed.

Lemma IncrementDigests_run (rects : list SRectangle) (x z : Z)
    (dg dg' : DigestVectors) (v : Z) :
  Forall (λ r, 0 ≤ x1 r ∧ x2 r ≤ los_size.1) rects →
  0 ≤ x ≤ los_size.1 →
  rd (syncedHeightMapDigests dg) (x + z * w) = Some v → 0 ≤ v < 256 →
  forM rects (IncrementDigests los_size) dg = Some dg' →
  unsyncedHeightMapDigests dg' = unsyncedHeightMapDigests dg ∧
  rd (syncedHeightMapDigests dg') (x + z * w)
  = Some ((v + Z.of_nat (length (filter
             (λ r, x1 r ≤ x ≤ x2 r ∧ z1 r ≤ z ≤ z2 r) rects))) `mod` 256).
Proof.
  intros Hall Hx. revert dg v.
  induction Hall as [|r rects [Hr1 Hr2] Hall IH]; intros dg v Hv Hb Hrun.
  - injection Hrun as <-. simpl. rewrite Z.add_0_r, Z.mod_small by done.
    done.
  - simpl in Hrun.
    destruct (IncrementDigests los_size r dg) as [dg1|] eqn:Hstep;
      simpl in Hrun; [|done].
    destruct (IncrementDigests_cells r dg dg1 Hr1 Hr2 Hstep) as [Hu Hcell].
    specialize (Hcell x z Hx). rewrite Hv in Hcell. simpl in Hcell.
    rewrite filter_cons. case_decide as Hc.
    + destruct (IH dg1 ((v + 1) `mod` 256) Hcell) as [Hu' Hs'];
        [apply Z.mod_pos_bound; lia|done|].
      split; [by rewrite Hu', Hu|]. rewrite Hs'. f_equal.
      rewrite Z.add_mod_idemp_l by lia. simpl length. f_equal. lia.
    + destruct (IH dg1 v Hcell Hb Hrun) as [Hu' Hs'].
      split; [by rewrite Hu', Hu|]. done.
Qed.
End DigestRun.

(** * Runs over the whole map, and edits of one corner *)

Section WholeMap.
Context {F : Type} `{Scalar F} `{Consts}.
Variable d : MapDimensions.

Lemma centerRect_whole :
  0 < mapx d → 0 < mapy d →
  centerRect_of d (mkRect 0 0 (mapx d) (mapy d))
  = mkRect 0 0 (mapxm1 d) (mapym1 d).
Proof.
  intros Hx Hy. unfold centerRect_of, mapxm1, mapym1; simpl.
  f_equal; lia.
Qed.

Lemma cornerRect_whole :
  0 ≤ mapx d → 0 ≤ mapy d →
  cornerRect_of d (mkRect 0 0 (mapx d) (mapy d))
  = mkRect 0 0 (mapx d) (mapy d).
Proof.
  intros Hx Hy. unfold cornerRect_of; simpl. f_equal; lia.
Qed.

Lemma full_update_mips (s s' : CReadMap F) :
  dims_ok d →
  UpdateHeightMapSynced d (mkRect 0 0 (mapx d) (mapy d)) s = Some s' →
  mips_ok d s'.
Proof.
  intros Hd Hrun.
  destruct (pipeline_inv d _ _ _ Hrun) as (_ & _ & Hm & _).
  rewrite centerRect_whole in Hm by (destruct Hd as (_ & ? & ? & _); lia).
  intros i x y Hi Hx Hy.
  destruct (UpdateMipHeightmaps_whole d _ _ _ Hd Hm i x y Hi Hx Hy)
    as (top & sub & h0 & h1 & h2 & h3 & Ht & Hs & R0 & R1 & R2 & R3 & R4).
  exists h0, h1, h2, h3. unfold mip_at. rewrite Ht, Hs. simpl.
  by repeat split.
Qed.

Lemma edit_corner_within (hm : list F) (x0 y0 : Z) (h : F) :
  0 ≤ x0 ≤ mapx d → 0 ≤ y0 →
  edited_within d (mkRect x0 y0 x0 y0) hm
    (<[Z.to_nat (y0 * mapxp1 d + x0) := h]> hm).
Proof.
  intros Hx0 Hy0. split; [apply length_insert|]. simpl.
  intros x y Hx Hy Hout. unfold rd.
  case_decide as Hi; [|done].
  apply list_lookup_insert_ne. intros E.
  assert (y0 * mapxp1 d + x0 = y * mapxp1 d + x) as E'.
  { assert (0 ≤ y0 * mapxp1 d + x0) by (unfold mapxp1; nia). lia. }
  destruct (rowmajor_inj (mapxp1 d) y0 x0 y x);
    [unfold mapxp1; lia|unfold mapxp1; lia|exact E'|].
  lia.
Qed.
End WholeMap.

Lemma rd_resized {A} (n i : Z) (x : A) :
  0 ≤ i < n → rd (resized n x) i = Some x.
Proof.
  intros Hi. unfold rd, resized. rewrite decide_True by lia.
  apply lookup_replicate_2. lia.
Qed.

Lemma fresh_digests_unchanged (size pos : Z * Z) (dg0 : DigestVectors) :
  0 ≤ pos.1 ≤ size.1 → 0 ≤ pos.2 ≤ size.2 →
  HasHeightMapViewChanged true size pos
    (InitHeightMapDigestVectors true size dg0)
  = Some (false, InitHeightMapDigestVectors true size dg0).
Proof.
  intros Hx Hy. unfold HasHeightMapViewChanged, InitHeightMapDigestVectors.
  cbv zeta. simpl.
  rewrite !rd_resized by nia. done.
Qed.

Lemma mod_256_shift (v k : Z) :
  0 ≤ v < 256 → 0 ≤ k → ((v + k) `mod` 256 = v ↔ k `mod` 256 = 0).
Proof.
  intros Hv Hk.
  rewrite <- (Z.add_mod_idemp_r v k) by lia.
  pose proof (Z.mod_pos_bound k 256) as Hb.
  assert (0 ≤ k `mod` 256 < 256) as Hb' by lia.
  set (h := k `mod` 256) in *. clearbody h.
  split.
  - intros E. destruct (Z_lt_le_dec (v + h) 256).
    + rewrite Z.mod_small in E by lia. lia.
    + replace (v + h) with ((v + h - 256) + 1 * 256) in E by lia.
      rewrite Z.mod_add, Z.mod_small in E by lia. lia.
  - intros ->. rewrite Z.add_0_r. apply Z.mod_small. lia.
Qed.

(** * Concrete runs on the 8x8 map *)

Section ThreeLevelsMoreRuns.
Local Existing Instance three_levels | 0.

Lemma init8_again_is_update :
  UpdateHeightMapSynced d8 (mkRect 0 0 (mapx d8) (mapy d8)) init8
  = Some init8_again.
Proof. vm_compute. reflexivity. Qed.

Lemma init8_heights : heightMapSynced init8 = flat_b32 d8 0.
Proof. vm_compute. reflexivity. Qed.

Lemma after_edit8_by_edits : reachable_by_edits d8 after_edit8.
Proof.
  apply (edits_update d8 init8 edited8 (mkRect 4 4 4 4) true).
  - apply (edits_init d8 (flat_b32 d8 0)), init8_is_initialised.
  - rewrite init8_heights. by apply (edit_corner_within d8).
  - apply after_edit8_is_update.
Qed.

Lemma after_edit8_reachable : reachable d8 after_edit8.
Proof.
  apply (reach_update d8 init8 edited8 (mkRect 4 4 4 4) true).
  - apply (reach_init d8 (flat_b32 d8 0)), init8_is_initialised.
  - rewrite init8_heights. apply length_insert.
  - apply after_edit8_is_update.
Qed.
End ThreeLevelsMoreRuns.

(** * The derived buffers over the life of a map *)

(** X11: the center heights never go stale.  In every state reached from
    [Initialize] by edits of the corner grid, each followed by
    [UpdateHeightMapSynced] on a rectangle that covers the edit, the center
    height of every square of the map is the mean of the four corners the
    grid has now, summed as [UpdateCenterHeightmap] sums them. *)
Theorem center_heights_follow_edits {F : Type} `{Scalar F} `{Consts}
    (d : MapDimensions) (s : CReadMap F) :
  reachable_by_edits d s → center_ok d s.
Proof. intros Hr. by destruct (edits_consistent d s Hr) as (? & _). Qed.

(** X12: the synced normals never go stale.  In every state reached from
    [Initialize] by edits of the corner grid, each followed by
    [UpdateHeightMapSynced] on a rectangle that covers the edit, every
    square of the map has the face normals of its two triangles over the
    corners the grid has now, and its center normal and 2D center normal
    are those of their sum. *)
Theorem synced_normals_follow_edits {F : Type} `{Scalar F} `{Consts}
    (d : MapDimensions) (s : CReadMap F) :
  reachable_by_edits d s → normals_ok d s.
Proof. intros Hr. by destruct (edits_consistent d s Hr) as (_ & ? & _). Qed.

(** X13: the slope map always agrees with the face normals.  In every state
    reached from [Initialize] by rounds in which the corner grid is
    overwritten in any way and the pipeline is run on any rectangle, every
    cell of the slope map holds the value the body of [UpdateSlopemap]
    computes from the eight face normals of the cell as they are stored
    now: a run that rewrites face normals also rewrites every slope cell
    that reads one of them. *)
Theorem slopes_follow_face_normals {F : Type} `{Scalar F} `{Consts}
    (d : MapDimensions) (s : CReadMap F) :
  reachable d s → slopes_ok d s.
Proof. apply reachable_slopes_ok. Qed.

(** X14: a run of [UpdateHeightMapSynced] over the rectangle of the whole
    map counts as the initial one, at any time.  With the unsynced height
    map in use and the unsynced normal buffers as long as the synced ones,
    it leaves the unsynced face and center normals equal to the synced
    ones, and it queues the whole-map rectangle for the unsynced update
    without passing it through [HeightMapUpdateLOSCheck]. *)
Theorem whole_map_update_syncs_unsynced_normals
    {F : Type} `{Scalar F} `{Consts} (d : MapDimensions) (s s' : CReadMap F) :
  USE_UNSYNCED_HEIGHTMAP = true →
  0 < mapx d → 0 < mapy d →
  Z.of_nat (length (faceNormalsSynced s)) = mapx d * mapy d * 2 →
  Z.of_nat (length (centerNormalsSynced s)) = mapx d * mapy d →
  length (faceNormalsUnsynced s) = length (faceNormalsSynced s) →
  length (centerNormalsUnsynced s) = length (centerNormalsSynced s) →
  UpdateHeightMapSynced d (mkRect 0 0 (mapx d) (mapy d)) s = Some s' →
  faceNormalsUnsynced s' = faceNormalsSynced s' ∧
  centerNormalsUnsynced s' = centerNormalsSynced s' ∧
  unsyncedHeightMapUpdates s'
    = unsyncedHeightMapUpdates s ++ [mkRect 0 0 (mapx d) (mapy d)].
Proof.
  intros Hu Hx Hy HfS HcS HfU HcU Hrun.
  destruct (full_update_normals d s s' Hu Hx Hy HfS HcS HfU HcU Hrun)
    as [E1 E2].
  destruct (pipeline_keeps_rest d _ _ _ Hrun) as (_ & _ & _ & _ & _ & _ & _ & Q).
  rewrite Hu in Q.
  rewrite (proj2 (SRectangle_eqb_eq _ _) eq_refl) in Q.
  rewrite cornerRect_whole in Q by lia. done.
Qed.

(** X15: a run of [UpdateHeightMapSynced] on any rectangle other than that
    of the whole map writes no unsynced normal: [faceNormalsUnsynced] and
    [centerNormalsUnsynced] are as they were, whatever the run changed in
    the synced buffers. *)
Theorem partial_update_keeps_unsynced_normals
    {F : Type} `{Scalar F} `{Consts} (d : MapDimensions)
    (rect : SRectangle) (s s' : CReadMap F) :
  rect ≠ mkRect 0 0 (mapx d) (mapy d) →
  UpdateHeightMapSynced d rect s = Some s' →
  faceNormalsUnsynced s' = faceNormalsUnsynced s ∧
  centerNormalsUnsynced s' = centerNormalsUnsynced s.
Proof. apply partial_update_unsynced. Qed.

(** X16: after [Initialize], and after any run of [UpdateHeightMapSynced]
    over the rectangle of the whole map, the mip pyramid is consistent on a
    map whose sides every level divides: every cell of every level
    [1 .. numHeightMipMaps - 1] is the mean of its 2x2 block one level up,
    level 0 being the center heights. *)
Theorem whole_map_update_builds_mip_pyramid
    {F : Type} `{Scalar F} `{Consts} (d : MapDimensions) (s' : CReadMap F) :
  dims_ok d →
  ((∃ hm, Initialize d hm = Returned s') ∨
   (∃ s, UpdateHeightMapSynced d (mkRect 0 0 (mapx d) (mapy d)) s
           = Some s')) →
  mips_ok d s'.
Proof.
  intros Hd [[hm Hi]|[s Hrun]].
  - apply Initialize_inv in Hi as (s1 & _ & Hrun).
    by apply (full_update_mips d s1).
  - by apply (full_update_mips d s).
Qed.

(** X17: what [Initialize] leaves of the loaded grid.  The synced height
    map, the snapshot of the map file and the snapshot of the start of the
    match are all the grid that was loaded, and the temporary bounds are
    [(FLT_MAX, FLT_LOWEST)].  When [<] orders the heights totally (for
    [float]: no NaN, not both zeros), the initial and the current height
    bounds are the pair of the least and the greatest height that the
    rescan of the whole grid gives. *)
Theorem Initialize_snapshots_and_bounds {F : Type} `{Scalar F} `{Consts}
    (d : MapDimensions) (hm : list F) (s : CReadMap F) :
  Z.of_nat (length hm) = mapxp1 d * mapyp1 d →
  Initialize d hm = Returned s →
  heightMapSynced s = hm ∧ mapFileHeightMap s = hm ∧
  originalHeightMap s = hm ∧
  tempHeightBounds s = (FLT_MAX, FLT_LOWEST) ∧
  currHeightBounds s = initHeightBounds s ∧
  (ordered_heights hm →
   initHeightBounds s = bounds_of hm (FLT_MAX, FLT_LOWEST)).
Proof.
  intros Hlen Hinit.
  destruct (Initialize_rest d hm s Hlen Hinit)
    as (E1 & E2 & E3 & E4 & E5 & E6 & _).
  repeat (split; [done|]).
  intros Hord.
  destruct (ordered_heights_in hm) as (Hhm & Pmax & Plow).
  rewrite E4. by apply (init_fold_is_scan _ _ _ Hord).
Qed.

(** X18: a game saved straight after [Initialize] holds no height change.
    Whatever [int32_t] view [bits] the heights have, [CReadMap::Serialize]
    then writes [2 * (mapx+1) * (mapy+1)] zero words for the two height
    deltas, followed by the bytes of the type map, which are zero as well
    when the type map is that of the map file. *)
Theorem save_after_Initialize_is_all_zero {F : Type} `{Scalar F} `{Consts}
    (bits : F → Z) (d : MapDimensions) (hm : list F) (s : CReadMap F)
    (iotm : option (list Z)) (tm pre : list Z) :
  Z.of_nat (length hm) = mapxp1 d * mapyp1 d →
  Initialize d hm = Returned s →
  Z.of_nat (length tm) = hmapx d * hmapy d →
  (∀ ref, iotm = Some ref → Z.of_nat (length ref) = hmapx d * hmapy d) →
  let t := mkSaved (bits <$> mapFileHeightMap s) (bits <$> originalHeightMap s)
                   (bits <$> heightMapSynced s) tm in
  ∃ tdata,
    CReadMap_Serialize d iotm (mkSerializer true pre) t
      = Some (mkSerializer true
                (pre ++ replicate (Z.to_nat (2 * (mapxp1 d * mapyp1 d))) 0
                     ++ tdata), t) ∧
    (iotm = Some tm → tdata = replicate (length tm) 0).
Proof.
  intros Hlen Hinit Htm Hio t.
  destruct (Initialize_rest d hm s Hlen Hinit) as (E1 & E2 & E3 & _).
  unfold t. rewrite E1, E2, E3.
  assert (Z.of_nat (length (bits <$> hm)) = mapxp1 d * mapyp1 d) as Hb
    by by rewrite length_fmap.
  assert (replicate (Z.to_nat (2 * (mapxp1 d * mapyp1 d))) 0
          = replicate (length (bits <$> hm)) 0
              ++ replicate (length (bits <$> hm)) 0) as Hz.
  { rewrite <- replicate_add. f_equal. lia. }
  unfold CReadMap_Serialize, SerializeMapChangesBeforeMatch,
    SerializeMapChangesDuringMatch. simpl.
  rewrite (xor_write _ _ _ _ Hb Hb). simpl.
  rewrite (xor_write _ _ _ _ Hb Hb). simpl.
  rewrite zip_lxor_self, Hz.
  destruct iotm as [ref|].
  - exists (zip_with Z.lxor tm ref).
    rewrite (typemap_write _ ref tm _ (Hio ref eq_refl) Htm). simpl.
    rewrite <- !app_assoc. split; [done|].
    intros [= ->]. apply zip_lxor_self.
  - exists []. simpl. rewrite app_nil_r, <- !app_assoc. done.
Qed.

(** * The digests *)

(** X19: a digest counts the updates of its line-of-sight square modulo
    256.  From digests in which a square was seen at its current digest,
    after the increments of [UpdateHeightMapSynced] for any list of
    line-of-sight rectangles inside the columns of the map,
    [HasHeightMapViewChanged] reports the square changed exactly when the
    number of rectangles that contain it is not a multiple of 256: the
    256th update of a square in a row makes its change invisible. *)
Theorem digest_counts_updates_mod_256 (los_size pos : Z * Z)
    (rects : list SRectangle) (dg dg' : DigestVectors) (v : Z) :
  Forall (λ r, 0 ≤ x1 r ∧ x2 r ≤ los_size.1) rects →
  0 ≤ pos.1 ≤ los_size.1 →
  0 ≤ v < 256 →
  rd (syncedHeightMapDigests dg) (pos.1 + pos.2 * (los_size.1 + 1)) = Some v →
  rd (unsyncedHeightMapDigests dg) (pos.1 + pos.2 * (los_size.1 + 1))
    = Some v →
  forM rects (IncrementDigests los_size) dg = Some dg' →
  let hits := Z.of_nat (length (filter
      (λ r, x1 r ≤ pos.1 ≤ x2 r ∧ z1 r ≤ pos.2 ≤ z2 r) rects)) in
  rd (syncedHeightMapDigests dg') (pos.1 + pos.2 * (los_size.1 + 1))
    = Some ((v + hits) `mod` 256) ∧
  ∃ dg'', HasHeightMapViewChanged true los_size pos dg'
          = Some (negb (hits `mod` 256 =? 0), dg'').
Proof.
  intros Hall Hx Hv Hs Hu Hrun hits.
  destruct (IncrementDigests_run los_size rects (pos.1) (pos.2) dg dg' v
              Hall Hx Hs Hv Hrun) as [Eu Es].
  fold hits in Es. split; [exact Es|].
  unfold HasHeightMapViewChanged. cbv zeta.
  rewrite Eu, Hu, Es. simpl.
  pose proof (mod_256_shift v hits Hv ltac:(unfold hits; lia)) as Hm.
  destruct (Z.eqb_spec (hits `mod` 256) 0) as [E0|E0]; simpl.
  - rewrite decide_False by (rewrite (proj2 Hm E0); auto). eauto.
  - rewrite decide_True by (intros E; apply E0, Hm; done).
    apply rd_Some in Hu as [Hi Hl]. apply lookup_lt_Some in Hl.
    rewrite wr_in_range by lia. simpl. eauto.
Qed.

(** X20: digests fresh from [InitHeightMapDigestVectors] have no change
    pending.  At every position of the line-of-sight map, borders included,
    [HasHeightMapViewChanged] reads inside both vectors, answers
    "unchanged" and leaves the digests as they are. *)
Theorem fresh_digests_report_no_change (size pos : Z * Z)
    (dg0 : DigestVectors) :
  0 ≤ pos.1 ≤ size.1 → 0 ≤ pos.2 ≤ size.2 →
  HasHeightMapViewChanged true size pos
    (InitHeightMapDigestVectors true size dg0)
  = Some (false, InitHeightMapDigestVectors true size dg0).
Proof. apply fresh_digests_unchanged. Qed.

(** * Binary32: the order of [<] and the flat square *)

Ltac cmp_cases :=
  repeat match goal with
  | H : context [Pos.compare_cont Eq ?a ?b] |- _ =>
      change (Pos.compare_cont Eq a b) with (Pos.compare a b) in H
  | |- context [Pos.compare_cont Eq ?a ?b] =>
      change (Pos.compare_cont Eq a b) with (Pos.compare a b)
  | H : context [Z.compare ?a ?b] |- _ =>
      destruct (Z.compare_spec a b); simpl in H
  | H : context [Pos.compare ?a ?b] |- _ =>
      destruct (Pos.compare_spec a b); simpl in H
  | |- context [Z.compare ?a ?b] =>
      destruct (Z.compare_spec a b); simpl
  | |- context [Pos.compare ?a ?b] =>
      destruct (Pos.compare_spec a b); simpl
  end;
  try discriminate; try reflexivity; try lia.

Lemma SFltb_irrefl (a : spec_float) : SFltb a a = false.
Proof.
  unfold SFltb.
  destruct a as [[]|[]| |[] m e]; simpl; try done;
    rewrite Z.compare_refl;
    change (Pos.compare_cont Eq m m) with (Pos.compare m m);
    by rewrite Pos.compare_refl.
Qed.

Lemma SFltb_trans (a b c : spec_float) :
  SFltb a b = true → SFltb b c = true → SFltb a c = true.
Proof.
  unfold SFltb.
  destruct a as [[]|[]| |[] ma ea], b as [[]|[]| |[] mb eb],
    c as [[]|[]| |[] mc ec]; simpl; try done;
    intros Hab Hbc; cmp_cases.
Qed.

Lemma SFltb_total (a b : spec_float) :
  b32_is_nan a = false → b32_is_nan b = false →
  (∀ s, a = S754_zero s → b = S754_zero (negb s) → False) →
  SFltb a b = false → SFltb b a = false → a = b.
Proof.
  unfold SFltb.
  destruct a as [[]|[]| |[] ma ea], b as [[]|[]| |[] mb eb];
    simpl; try done; intros _ _ Hz Hab Hba;
    try (by destruct (Hz true));
    try (by destruct (Hz false));
    cmp_cases; subst; try done; try lia.
Qed.

Lemma b32_ordered_spec (l : list spec_float) :
  b32_ordered l = true → strict_total_on SFltb (λ h, h ∈ l).
Proof.
  unfold b32_ordered. rewrite andb_true_iff, orb_true_iff, !forallb_forall.
  intros [Hnan Hzero]. repeat split.
  - intros a _. apply SFltb_irrefl.
  - intros a b c _ _ _. apply SFltb_trans.
  - intros a b Ha%list_elem_of_In Hb%list_elem_of_In. apply SFltb_total.
    + specialize (Hnan a Ha). by destruct (b32_is_nan a).
    + specialize (Hnan b Hb). by destruct (b32_is_nan b).
    + intros s -> ->.
      destruct Hzero as [Hz|Hz];
        pose proof (Hz _ Ha) as Z1; pose proof (Hz _ Hb) as Z2;
        destruct s; simpl in Z1, Z2; done.
Qed.

(** The difference of a finite value and itself is [+0]. *)
Lemma b32_sub_self (h : spec_float) :
  b32_is_finite h = true → SFsub 24 128 h h = S754_zero false.
Proof.
  destruct h as [[]|[]| |s m e]; simpl; try done. intros _.
  by rewrite Z.sub_diag.
Qed.

(** * The slope map: what a cell holds, and the flat grid *)

Section FlatGrid.
Context {F : Type} `{Scalar F} `{Consts}.
Variable d : MapDimensions.

(** A cell of the slope map that agrees with the face normals, when all
    face normals have the vertical component [one]. *)
Lemma slope_cell_all_one (s : CReadMap F) (one : F) x y :
  Forall (λ n, fy n = one) (faceNormalsSynced s) →
  slope_cell_ok d s x y →
  rd (slopeMap s) (y * hmapx d + x)
  = Some (slope_of one one one one one one one one).
Proof.
  intros Hall (v & Hw & Hv). rewrite Hv. f_equal.
  destruct (slope_writes_value d (faceNormalsSynced s) [y] [x]
              (y * hmapx d + x) v)
    as (n0 & n1 & n2 & n3 & n4 & n5 & n6 & n7 &
        H0' & H1' & H2' & H3' & H4' & H5' & H6' & H7' & ->).
  { exists y, x, [(y * hmapx d + x, v)].
    repeat split; try done; by apply list_elem_of_singleton. }
  pose proof (proj1 (Forall_forall _ _) Hall) as Hone.
  by rewrite !Hone by done.
Qed.

(** A run over the whole map on a flat grid, from buffers that hold
    anything: every cell of the slope map is written, with the slope of
    eight normals whose vertical component is that of the flat square. *)
Lemma flat_whole_map_slopes (h one : F) (s : CReadMap F) :
  fy (face_TL h h h) = one → fy (face_BR h h h) = one →
  dims_ok d → wf_state d s →
  Forall (λ x, x = h) (heightMapSynced s) →
  ∃ s', UpdateHeightMapSynced d (mkRect 0 0 (mapx d) (mapy d)) s = Some s' ∧
        slopeMap s' = replicate (Z.to_nat (hmapx d * hmapy d))
                        (slope_of one one one one one one one one).
Proof.
  intros HTL HBR Hd Hwf Hflat.
  destruct (pipeline_total d (mkRect 0 0 (mapx d) (mapy d)) s Hd Hwf)
    as (s' & Hrun & Hwf' & _).
  exists s'. split; [done|].
  destruct Hd as (_ & Hmx & Hmy & _).
  destruct (whole_map_consistent d s s' Hrun) as (_ & _ & Hok).
  assert (Hf : Forall (λ n, fy n = one) (faceNormalsSynced s')).
  { apply (pipeline_faces_Forall d _ (λ x, x = h) _ s s' Hrun).
    - done.
    - by intros a b c -> -> ->.
    - by intros a b c -> -> ->.
    - right. repeat split; try done. apply Hwf. }
  assert (Hlen : Z.of_nat (length (slopeMap s')) = hmapx d * hmapy d)
    by apply Hwf'.
  assert (0 ≤ hmapx d ∧ 0 ≤ hmapy d) as [Hhx Hhy].
  { unfold hmapx, hmapy. split; apply Z.shiftr_nonneg; lia. }
  apply rd_ext; [rewrite length_replicate; lia|]. intros i.
  destruct (decide (0 ≤ i < hmapx d * hmapy d)) as [Hi|Hi].
  - change (replicate (Z.to_nat (hmapx d * hmapy d)))
      with (resized (A:=F) (hmapx d * hmapy d)).
    rewrite rd_resized by done.
    assert (0 < hmapx d) by nia.
    set (y := i `div` hmapx d). set (x := i `mod` hmapx d).
    assert (i = y * hmapx d + x)
      by (unfold y, x; pose proof (Z.div_mod i (hmapx d)); lia).
    assert (0 ≤ x < hmapx d) by (apply Z.mod_pos_bound; lia).
    assert (0 ≤ y < hmapy d).
    { split; [apply Z.div_pos; lia|].
      apply Z.div_lt_upper_bound; lia. }
    replace i with (y * hmapx d + x) by lia.
    apply slope_cell_all_one; [done|]. by apply Hok.
  - unfold rd. case_decide; [|done].
    rewrite !lookup_ge_None_2; [done|rewrite length_replicate; lia|lia].
Qed.
End FlatGrid.

(** The flat square in binary32, with squares of eight world units. *)
Section FlatBinary32.
Context `{Consts}.
Hypothesis HS : SQUARE_SIZE = 8.

Lemma b32_face_TL_flat (h : spec_float) :
  b32_is_finite h = true → fy (face_TL h h h) = b32_of_Z 1.
Proof.
  intros Hh. unfold face_TL.
  cbn [fsub fneg f_of_Z b32_Scalar]. rewrite HS, b32_sub_self by done.
  by vm_compute.
Qed.

Lemma b32_face_BR_flat (h : spec_float) :
  b32_is_finite h = true → fy (face_BR h h h) = b32_of_Z 1.
Proof.
  intros Hh. unfold face_BR.
  cbn [fsub fneg f_of_Z b32_Scalar]. rewrite HS, b32_sub_self by done.
  by vm_compute.
Qed.
End FlatBinary32.

Lemma b32_slope_of_flat `{Consts} :
  slope_of (F:=spec_float) (b32_of_Z 1) (b32_of_Z 1) (b32_of_Z 1) (b32_of_Z 1)
           (b32_of_Z 1) (b32_of_Z 1) (b32_of_Z 1) (b32_of_Z 1) = b32_of_Z 0.
Proof. by vm_compute. Qed.

(** C4, as the code has it: the slope values are oriented the other way
    round, 0 is flat.  Every cell of the slope map that a run of the
    pipeline visits holds [1 - slope], where [slope] blends the smallest
    ([maxslope]) and the mean ([avgslope]) vertical component of the eight
    face normals of the cell as they are stored after the run, with
    [maxslope / avgslope] as factor.  On a uniformly flat grid of finite
    heights a run over the whole map writes 0 into every cell of the slope
    map, whatever the slope map held before: in binary32 with squares of
    eight world units, and in exact arithmetic.  The map has sides that are
    positive multiples of [2^(L-1)] and buffers of the sizes [Initialize]
    gives them. *)
Theorem flat_grid_slopes_are_zero `{Consts} (d : MapDimensions) :
  dims_ok d →
  (SQUARE_SIZE = 8 →
   ∀ (h : spec_float) (s : CReadMap spec_float),
     b32_is_finite h = true → wf_state d s →
     Forall (λ x, x = h) (heightMapSynced s) →
     ∃ s', UpdateHeightMapSynced d (mkRect 0 0 (mapx d) (mapy d)) s = Some s' ∧
           slopeMap s' = replicate (Z.to_nat (hmapx d * hmapy d)) (b32_of_Z 0)) ∧
  (0 < SQUARE_SIZE →
   ∀ (h : R) (s : CReadMap R),
     wf_state d s → Forall (λ x, x = h) (heightMapSynced s) →
     ∃ s', UpdateHeightMapSynced d (mkRect 0 0 (mapx d) (mapy d)) s = Some s' ∧
           slopeMap s' = replicate (Z.to_nat (hmapx d * hmapy d)) 0%R) ∧
  (∀ (F : Type) (SF : Scalar F) (rect : SRectangle) (s s' : CReadMap F) x y,
     UpdateHeightMapSynced d rect s = Some s' →
     Z.max 0 (Z.quot (x1 (centerRect_of d rect)) 2 - 1) ≤ x
       ≤ Z.min (hmapx d - 1) (Z.quot (x2 (centerRect_of d rect)) 2 + 1) →
     Z.max 0 (Z.quot (z1 (centerRect_of d rect)) 2 - 1) ≤ y
       ≤ Z.min (hmapy d - 1) (Z.quot (z2 (centerRect_of d rect)) 2 + 1) →
     ∃ n0 n1 n2 n3 n4 n5 n6 n7,
       let idx0 := (y * 2) * mapx d + x * 2 in
       let idx1 := (y * 2 + 1) * mapx d + x * 2 in
       let maxslope :=
         std_min (std_min (std_min (std_min (std_min (std_min (std_min
           (fy n0) (fy n1)) (fy n2)) (fy n3)) (fy n4)) (fy n5)) (fy n6))
           (fy n7) in
       let avgslope :=
         fmul (fadd (fadd (fadd (fadd (fadd (fadd (fadd (fadd (f_of_Z 0)
           (fy n0)) (fy n1)) (fy n2)) (fy n3)) (fy n4)) (fy n5)) (fy n6))
           (fy n7)) f_eighth in
       rd (faceNormalsSynced s') (idx0 * 2) = Some n0 ∧
       rd (faceNormalsSynced s') (idx0 * 2 + 1) = Some n1 ∧
       rd (faceNormalsSynced s') ((idx0 + 1) * 2) = Some n2 ∧
       rd (faceNormalsSynced s') ((idx0 + 1) * 2 + 1) = Some n3 ∧
       rd (faceNormalsSynced s') (idx1 * 2) = Some n4 ∧
       rd (faceNormalsSynced s') (idx1 * 2 + 1) = Some n5 ∧
       rd (faceNormalsSynced s') ((idx1 + 1) * 2) = Some n6 ∧
       rd (faceNormalsSynced s') ((idx1 + 1) * 2 + 1) = Some n7 ∧
       rd (slopeMap s') (y * hmapx d + x)
         = Some (fsub (f_of_Z 1)
                   (mix maxslope avgslope (fdiv maxslope avgslope)))).
Proof.
  intros Hd. split; [|split].
  - intros HS h s Hh Hwf Hflat.
    destruct (flat_whole_map_slopes d h (b32_of_Z 1) s) as (s' & Hrun & Hs);
      try done.
    { by apply b32_face_TL_flat. } { by apply b32_face_BR_flat. }
    exists s'. split; [done|]. by rewrite Hs, b32_slope_of_flat.
  - intros HS h s Hwf Hflat.
    destruct (flat_whole_map_slopes d h 1%R s) as (s' & Hrun & Hs);
      try done.
    { by apply R_face_TL_flat. } { by apply R_face_BR_flat. }
    exists s'. split; [done|]. by rewrite Hs, R_slope_of_flat.
  - intros F SF rect s s' x y Hrun Hx Hy.
    destruct (pipeline_inv d rect s s' Hrun) as (_ & _ & _ & _ & Hs).
    destruct (UpdateSlopemap_written d _ _ _ _ x y Hs Hx Hy)
      as (v & Hw & Hv).
    unfold slope_writes in Hw. cbv zeta in Hw.
    destruct (rd _ ((y * 2 * mapx d + x * 2) * 2)) as [n0|] eqn:E0;
      simpl in Hw; [|done].
    destruct (rd _ ((y * 2 * mapx d + x * 2) * 2 + 1)) as [n1|] eqn:E1;
      simpl in Hw; [|done].
    destruct (rd _ ((y * 2 * mapx d + x * 2 + 1) * 2)) as [n2|] eqn:E2;
      simpl in Hw; [|done].
    destruct (rd _ ((y * 2 * mapx d + x * 2 + 1) * 2 + 1)) as [n3|] eqn:E3;
      simpl in Hw; [|done].
    destruct (rd _ (((y * 2 + 1) * mapx d + x * 2) * 2)) as [n4|] eqn:E4;
      simpl in Hw; [|done].
    destruct (rd _ (((y * 2 + 1) * mapx d + x * 2) * 2 + 1)) as [n5|] eqn:E5;
      simpl in Hw; [|done].
    destruct (rd _ (((y * 2 + 1) * mapx d + x * 2 + 1) * 2)) as [n6|] eqn:E6;
      simpl in Hw; [|done].
    destruct (rd _ (((y * 2 + 1) * mapx d + x * 2 + 1) * 2 + 1)) as [n7|] eqn:E7;
      simpl in Hw; [|done].
    injection Hw as <-.
    exists n0, n1, n2, n3, n4, n5, n6, n7. cbv zeta.
    repeat (split; [done|]). exact Hv.
Qed.

(** * The revised claims at concrete inputs *)

Lemma flat_b32_flat (d : MapDimensions) (h : Z) :
  Forall (λ x, x = b32_of_Z h) (flat_b32 d h).
Proof. unfold flat_b32. by apply Forall_replicate. Qed.

(** C4, as the code has it, at the 64x64 map: the flat grid at height 5
    in binary32, from freshly allocated buffers. *)
Lemma flat_grid_slopes_are_zero_witness :
  ∃ s', UpdateHeightMapSynced d64 (mkRect 0 0 (mapx d64) (mapy d64))
          (allocate d64 (flat_b32 d64 5)) = Some s' ∧
        slopeMap s' = replicate (Z.to_nat (hmapx d64 * hmapy d64)) (b32_of_Z 0).
Proof.
  apply (proj1 (flat_grid_slopes_are_zero d64 dims_ok_d64) eq_refl
           (b32_of_Z 5) (allocate d64 (flat_b32 d64 5)) eq_refl).
  - apply allocate_wf; [apply dims_ok_d64|apply length_flat_b32].
  - apply flat_b32_flat.
Defined.


Section ThreeLevelsCases.
Local Existing Instance three_levels | 0.

Lemma dims_ok_d4 : dims_ok d4.
Proof.
  unfold dims_ok; simpl. repeat split; try lia; by exists 1.
Qed.

Lemma edited8_ordered : ordered_heights (heightMapSynced edited_state8).
Proof. apply b32_ordered_spec. by vm_compute. Qed.

Lemma slices_fit_d8 : slices_fit d8.
Proof. unfold slices_fit. by vm_compute. Qed.

Lemma length_edited8 :
  Z.of_nat (length (heightMapSynced edited_state8)) = mapxp1 d8 * mapyp1 d8.
Proof. by vm_compute. Qed.

(** C3, the code at a failing input, in binary32 with three levels.  The
    map of 4x4 squares (a valid size) is initialised with ridges of height
    [2^64] along two corner columns, all heights finite.  In every square
    the squared length of each face normal overflows to infinity, its
    inverse square root is 0 and the normalised normal has the vertical
    component 0; so in every cell of the slope map the smallest and the
    mean vertical component are both 0, their quotient is a NaN and the
    cell holds a NaN, which is neither at least 0 nor at most 1. *)
Theorem tall_ridges_give_nan_slopes :
  dims_ok d4 ∧
  Z.of_nat (length ridges4) = mapxp1 d4 * mapyp1 d4 ∧
  Forall (λ h, b32_is_finite h = true) ridges4 ∧
  Initialize d4 ridges4 = Returned ridges_state4 ∧
  Forall (λ n, fy n = S754_zero false) (faceNormalsSynced ridges_state4) ∧
  fdiv (S754_zero false) (S754_zero false) = S754_nan ∧
  slopeMap ridges_state4 = replicate 4 S754_nan ∧
  Forall (λ v, SFleb (b32_of_Z 0) v = false ∧ SFleb v (b32_of_Z 1) = false)
         (slopeMap ridges_state4).
Proof.
  split; [apply dims_ok_d4|].
  split; [by vm_compute|].
  split; [by repeat constructor|].
  split; [by vm_compute|].
  split; [by repeat constructor|].
  split; [by vm_compute|].
  split; [by vm_compute|].
  by repeat constructor.
Qed.

(** C5, as the code has it, in binary32 at the 8x8 map with corner (4, 4) just
    raised to 16, the cycle starting at frame 0. *)
Lemma paced_cycle_then_commit_matches_rescan_witness :
  ∃ s1 s2 sF,
    forM (range_excl 0 (0 + GAME_SPEED)) (UpdateHeightBounds_paced d8)
      edited_state8 = Some s1 ∧
    UpdateHeightBounds_paced d8 (0 + GAME_SPEED) s1 = Some s2 ∧
    UpdateHeightBounds d8 edited_state8 = Some sF ∧
    tempHeightBounds s1 = currHeightBounds sF ∧
    currHeightBounds s2 = currHeightBounds sF.
Proof.
  destruct (paced_cycle_then_commit_matches_rescan d8 edited_state8 0
              edited8_ordered slices_fit_d8 eq_refl eq_refl
              length_edited8 eq_refl)
    as (s1 & s2 & sF & R1 & R2 & R3 & _ & E1 & _ & E2);
    [lia|reflexivity|].
  exists s1, s2, sF. by repeat split.
Defined.

Lemma wf_allocate_d3 : wf_state d3 (allocate d3 (flat_b32 d3 0)).
Proof.
  unfold wf_state. repeat split; try reflexivity.
  intros i l Hrd.
  destruct (decide (i = 1)) as [->|]; [by injection Hrd as <-|].
  destruct (decide (i = 2)) as [->|]; [by injection Hrd as <-|].
  apply rd_Some in Hrd as [Hi Hl]. apply lookup_lt_Some in Hl.
  simpl in Hl. lia.
Qed.

(** C10, the claim at a failing input, with three levels: on the map of
    3x3 squares, whose sides are not multiples of [2^(L-1) = 4], with
    buffers of the sizes [Initialize] gives them, the pipeline run on the
    rectangle (1,1)-(1,1) reads outside level 1 of the mip pyramid, which
    has one cell. *)
Lemma pipeline_leaves_bounds_on_indivisible_map :
  wf_state d3 (allocate d3 (flat_b32 d3 0)) ∧
  ¬ (2 ^ (numHeightMipMaps - 1) | mapx d3) ∧
  centerRect_of d3 (mkRect 1 1 1 1) = mkRect 0 0 2 2 ∧
  mipPointer (centerHeightMap (allocate d3 (flat_b32 d3 0)))
    (mipCenterHeightMaps (allocate d3 (flat_b32 d3 0))) 1
    = Some [b32_of_Z 0] ∧
  UpdateMipLevel d3 (mkRect 0 0 2 2) 1 [b32_of_Z 0] [] = None ∧
  UpdateHeightMapSynced d3 (mkRect 1 1 1 1) (allocate d3 (flat_b32 d3 0))
    = None.
Proof.
  split; [apply wf_allocate_d3|].
  split; [intros [q Hq]; simpl in Hq; lia|].
  split; [reflexivity|].
  split; [reflexivity|].
  split; by vm_compute.
Qed.
End ThreeLevelsCases.

(** * The further properties at concrete inputs *)


(** X3 at the freshly allocated 64x64 map. *)
Lemma paced_scan_idle_is_noop_witness :
  forM [0; 1; 29; 30; 31; 7] (UpdateHeightBounds_paced d64)
    (allocate d64 cliff_R)
  = Some (allocate d64 cliff_R).
Proof.
  apply (paced_scan_idle_is_noop d64 (allocate d64 cliff_R)); reflexivity.
Defined.

(** X5 on grids of three words. *)
Lemma xor_delta_zero_where_unchanged_witness :
  ∃ delta,
    SerializeMapChanges 3 (mkSerializer true [9]) [1; 2; 3] [5; 2; 7]
      = Some (mkSerializer true ([9] ++ delta), [5; 2; 7]) ∧
    rd delta 1 = Some 0.
Proof.
  destruct (xor_delta_zero_where_unchanged 3 [1; 2; 3] [5; 2; 7] [9]
              eq_refl eq_refl) as (delta & Hrun & _ & Hz & _).
  exists delta. split; [exact Hrun|].
  apply (Hz 1 2 2); reflexivity.
Defined.

(** X6: three words that no save has written. *)
Lemma xor_delta_load_any_words_witness :
  ∃ cur,
    SerializeMapChanges 3 (mkSerializer false ([4; 0; 4] ++ [8])) [1; 2; 3]
        [0; 0; 0]
      = Some (mkSerializer false [8], cur) ∧
    Z.of_nat (length cur) = 3.
Proof.
  destruct (xor_delta_load_any_words 3 [1; 2; 3] [4; 0; 4] [0; 0; 0] [8]
              eq_refl eq_refl eq_refl) as (cur & Hrun & Hlen & _).
  exists cur. split; [exact Hrun|exact Hlen].
Defined.

(** X7 on a type map of two cells. *)
Lemma typemap_roundtrip_witness :
  ∃ data,
    SerializeTypeMap 2 (mkSerializer true [9]) (Some [1; 2]) [3; 2]
      = Some (mkSerializer true ([9] ++ data), [3; 2]) ∧
    SerializeTypeMap 2 (mkSerializer false (data ++ [8])) (Some [1; 2]) [0; 0]
      = Some (mkSerializer false [8], [3; 2]).
Proof.
  destruct (typemap_roundtrip 2 (Some [1; 2]) [3; 2] [0; 0] [9] [8])
    as (data & Hw & Hr & _).
  - intros ref E. injection E as <-. reflexivity.
  - reflexivity.
  - reflexivity.
  - exists data. split; [exact Hw|exact Hr].
Defined.

(** X8 on the map of 2x2 squares. *)
Lemma save_then_load_restores_terrain_witness :
  ∃ data,
    CReadMap_Serialize d2 (Some [1]) (mkSerializer true [9]) saved2
      = Some (mkSerializer true ([9] ++ data), saved2) ∧
    CReadMap_Serialize d2 (Some [1]) (mkSerializer false (data ++ [8])) fresh2
      = Some (mkSerializer false [8], saved2) ∧
    Z.of_nat (length data) = 19.
Proof.
  destruct (save_then_load_restores_terrain d2 (Some [1]) saved2 fresh2
              [9] [8]) as (data & Hw & Hr & Hlen);
    try reflexivity.
  - intros ref E. injection E as <-. reflexivity.
  - exists data. split; [exact Hw|]. split; [exact Hr|exact Hlen].
Defined.

(** X9: two hundred queued rectangles, two frames. *)
Lemma UpdateDraw_drains_queue_witness :
  ∃ st',
    forM [true; false] (UpdateDraw (λ _ q, q) (λ _ (w : nat), S w))
      (mkDraw (replicate 200 (mkRect 0 0 1 1)) 0%nat []) = Some st' ∧
    dQueue st' = [] ∧
    dEvents st' = replicate 200 (mkRect 0 0 1 1).
Proof.
  destruct (UpdateDraw_drains_queue (λ _ q, q) (λ _ (w : nat), S w)
              [true; false]
              (mkDraw (replicate 200 (mkRect 0 0 1 1)) 0%nat []))
    as (st' & Hrun & Hq & _ & Hid).
  - intros b q. apply Nat.le_refl.
  - cbn [dQueue]. rewrite length_replicate. simpl. lia.
  - exists st'. split; [exact Hrun|]. split; [exact Hq|].
    apply (proj1 (Hid (λ b q, eq_refl))).
Defined.

(** X10: the square (1, 0) of a 2x2 line-of-sight map has changed. *)
Lemma view_change_is_reported_once_witness :
  HasHeightMapViewChanged true (1, 1) (1, 0) digests2
    = Some (true, mkDigests [0; 5; 0; 0] [0; 5; 0; 0]) ∧
  HasHeightMapViewChanged true (1, 1) (1, 0)
      (mkDigests [0; 5; 0; 0] [0; 5; 0; 0])
    = Some (false, mkDigests [0; 5; 0; 0] [0; 5; 0; 0]).
Proof.
  split; [reflexivity|].
  apply (view_change_is_reported_once (1, 1) (1, 0) digests2
           (mkDigests [0; 5; 0; 0] [0; 5; 0; 0]) true eq_refl).
Defined.

(** X19: two updates of the square (1, 0) of a fresh 2x2 line-of-sight
    map. *)
Lemma digest_counts_updates_mod_256_witness :
  rd (syncedHeightMapDigests (mkDigests [1; 2; 0; 1] [0; 0; 0; 0]))
     (1 + 0 * (1 + 1)) = Some ((0 + 2) `mod` 256) ∧
  ∃ dg'', HasHeightMapViewChanged true (1, 1) (1, 0)
            (mkDigests [1; 2; 0; 1] [0; 0; 0; 0]) = Some (true, dg'').
Proof.
  apply (digest_counts_updates_mod_256 (1, 1) (1, 0)
           [mkRect 0 0 1 0; mkRect 1 0 1 1]
           (InitHeightMapDigestVectors true (1, 1) digests2)
           (mkDigests [1; 2; 0; 1] [0; 0; 0; 0]) 0).
  - repeat constructor; simpl; lia.
  - simpl; lia.
  - lia.
  - reflexivity.
  - reflexivity.
  - reflexivity.
Defined.

(** X20: the last square of a 2x2 line-of-sight map. *)
Lemma fresh_digests_report_no_change_witness :
  HasHeightMapViewChanged true (1, 1) (1, 1)
    (InitHeightMapDigestVectors true (1, 1) digests2)
  = Some (false, InitHeightMapDigestVectors true (1, 1) digests2).
Proof.
  apply (fresh_digests_report_no_change (1, 1) (1, 1) digests2);
    simpl; lia.
Defined.

Section ExtraCases8.
Local Existing Instance three_levels | 0.

Lemma length_flat8 :
  Z.of_nat (length (flat_b32 d8 0)) = mapxp1 d8 * mapyp1 d8.
Proof. unfold flat_b32. rewrite length_replicate. reflexivity. Qed.

(** X2 in binary32, at the 8x8 map with corner (4, 4) raised to 16. *)
Lemma full_rescan_bounds_every_height_witness :
  ∃ lo hi,
    UpdateHeightBounds d8 edited_state8
      = Some (set_bounds edited_state8 (lo, hi) (lo, hi) true false) ∧
    Forall (λ h, fltb h lo = false ∧ fltb hi h = false) edited8.
Proof.
  destruct (full_rescan_bounds_every_height (H0:=three_levels)
              d8 edited_state8
              edited8_ordered eq_refl length_edited8)
    as (lo & hi & Hrun & Hall & _).
  exists lo, hi. split; [exact Hrun|exact Hall].
Defined.

(** X4 in binary32, at the 8x8 map: corner (4, 4) is raised at frame 7. *)
Lemma paced_scan_catches_up_witness :
  ∃ c s',
    7 ≤ c < 7 + GAME_SPEED ∧
    forM (range_incl 7 (c + GAME_SPEED)) (UpdateHeightBounds_paced d8)
      edited_state8 = Some s' ∧
    currHeightBounds s' = bounds_of edited8 (FLT_MAX, FLT_LOWEST).
Proof.
  destruct (paced_scan_catches_up d8 edited_state8 7
              edited8_ordered slices_fit_d8 eq_refl eq_refl
              length_edited8 eq_refl)
    as (c & s' & Hc & _ & Hrun & _ & Hb & _); [lia|].
  exists c, s'. split; [exact Hc|]. split; [exact Hrun|exact Hb].
Defined.

(** X17 in binary32, at the 8x8 map initialised flat at height 0. *)
Lemma Initialize_snapshots_and_bounds_witness :
  heightMapSynced init8 = flat_b32 d8 0 ∧
  mapFileHeightMap init8 = flat_b32 d8 0 ∧
  originalHeightMap init8 = flat_b32 d8 0 ∧
  currHeightBounds init8 = initHeightBounds init8.
Proof.
  destruct (Initialize_snapshots_and_bounds d8 (flat_b32 d8 0) init8
              length_flat8 init8_is_initialised)
    as (E1 & E2 & E3 & _ & E5 & _).
  by repeat split.
Defined.

(** X11 at the 8x8 map after the edit of corner (4, 4). *)
Lemma center_heights_follow_edits_witness : center_ok d8 after_edit8.
Proof.
  apply (center_heights_follow_edits d8 after_edit8 after_edit8_by_edits).
Defined.

(** X12 at the 8x8 map after the edit of corner (4, 4). *)
Lemma synced_normals_follow_edits_witness : normals_ok d8 after_edit8.
Proof.
  apply (synced_normals_follow_edits d8 after_edit8 after_edit8_by_edits).
Defined.

(** X13 at the 8x8 map after the edit of corner (4, 4). *)
Lemma slopes_follow_face_normals_witness : slopes_ok d8 after_edit8.
Proof.
  apply (slopes_follow_face_normals d8 after_edit8 after_edit8_reachable).
Defined.

(** X14 at the 8x8 map: a second run over the whole map. *)
Lemma whole_map_update_syncs_unsynced_normals_witness :
  faceNormalsUnsynced init8_again = faceNormalsSynced init8_again ∧
  centerNormalsUnsynced init8_again = centerNormalsSynced init8_again ∧
  unsyncedHeightMapUpdates init8_again
    = unsyncedHeightMapUpdates init8 ++ [mkRect 0 0 (mapx d8) (mapy d8)].
Proof.
  apply (whole_map_update_syncs_unsynced_normals (H0:=three_levels)
           d8 init8 init8_again eq_refl eq_refl eq_refl eq_refl eq_refl eq_refl eq_refl
           init8_again_is_update).
Defined.

(** X15 at the 8x8 map: the run on the rectangle of the edit. *)
Lemma partial_update_keeps_unsynced_normals_witness :
  faceNormalsUnsynced after_edit8 = faceNormalsUnsynced edited_state8 ∧
  centerNormalsUnsynced after_edit8 = centerNormalsUnsynced edited_state8.
Proof.
  apply (partial_update_keeps_unsynced_normals d8 (mkRect 4 4 4 4)
           edited_state8 after_edit8).
  - discriminate.
  - apply after_edit8_is_update.
Defined.

(** X16 at the 8x8 map as initialised. *)
Lemma whole_map_update_builds_mip_pyramid_witness : mips_ok d8 init8.
Proof.
  apply (whole_map_update_builds_mip_pyramid d8 init8 dims_ok_d8).
  left. exists (flat_b32 d8 0). apply init8_is_initialised.
Defined.

(** X18 at the 8x8 map as initialised, with a type map of zeros. *)
Lemma save_after_Initialize_is_all_zero_witness :
  ∃ tdata,
    CReadMap_Serialize d8 (Some (replicate 16 0)) (mkSerializer true [9])
      (mkSaved (b32_bits <$> mapFileHeightMap init8)
               (b32_bits <$> originalHeightMap init8)
               (b32_bits <$> heightMapSynced init8) (replicate 16 0))
    = Some (mkSerializer true
              ([9] ++ replicate (Z.to_nat (2 * (mapxp1 d8 * mapyp1 d8))) 0
                   ++ tdata),
            mkSaved (b32_bits <$> mapFileHeightMap init8)
                    (b32_bits <$> originalHeightMap init8)
                    (b32_bits <$> heightMapSynced init8) (replicate 16 0)) ∧
    (Some (replicate 16 0) = Some (replicate 16 0) →
     tdata = replicate (length (replicate 16 0)) 0).
Proof.
  apply (save_after_Initialize_is_all_zero b32_bits d8 (flat_b32 d8 0)
           init8 (Some (replicate 16 0)) (replicate 16 0) [9]
           length_flat8 init8_is_initialised eq_refl).
  intros ref E. injection E as <-. reflexivity.
Defined.
End ExtraCases8.
